(** * Chrysalis Chess: a shallow embedding of the rules engine of [src/App.tsx]

    The TypeScript functions are pure functions over JSON-like values (every
    mutating function first takes a [deepClone] of its argument), so each one
    is embedded as a Rocq function over records.  Three conventions:

    - a JavaScript [number] holding a file, a rank, a move number or a count
      is a [Z];
    - [Array.prototype.find] is [List.find]; the source dereferences its
      result without a test ([board.find(...)!.occupant]), which raises a
      [TypeError] when nothing is found: a function that can reach such a
      dereference returns an [option], [None] standing for the exception;
    - [null] and [undefined] values of optional fields are [None]; the
      optional boolean [mustReturn], only ever tested for truthiness, is a
      [bool].

    The scores of the computer opponent are the only numbers that are not
    integers (a mobility term counts half a point per move): they are
    rationals, and [-Infinity] and [Infinity] are added to them where the
    search uses them. *)

From Stdlib Require Import ZArith QArith Lqa List String Ascii Bool Lia Permutation DecimalString DecimalPos DecimalZ.
Import ListNotations.
Local Open Scope string_scope.
Local Open Scope list_scope.
Local Open Scope Z_scope.

Set Implicit Arguments.

(** ** The exception monad of the embedding *)

Notation "x <- e ;; k" :=
  (match e with Some x => k | None => None end)
  (at level 61, e at next level, right associativity, only parsing).

(** ** Data model (lines 3-47) *)

Definition FILES : list string := ["a"; "b"; "c"; "d"; "e"; "f"; "g"; "h"].
Definition RANKS : list Z := [1; 2; 3; 4; 5; 6; 7; 8].

Inductive Color : Set := white | black.
Inductive PieceType : Set := K | Q | R | B | N | P.
Definition SquareId : Set := string.

Inductive Occupant : Set :=
| Null
| Metamorph (color : Color)
| Piece (color : Color) (type : PieceType) (bornAtTurn : Z)
        (mustReturn : bool) (returnByTurn : option Z).

Record Square : Set := mkSquare {
  id : SquareId;
  file : Z;
  rank : Z;
  blueSymbol : option PieceType;
  occupant : Occupant
}.

Record ChrysalisStock : Set := mkStock {
  cK : Z; cQ : Z; cR : Z; cB : Z; cN : Z; cP : Z
}.

(** An object with one entry per colour, [{ white: a; black: a }]. *)
Record PerColor (A : Type) : Type := mkPerColor { ofWhite : A; ofBlack : A }.

Inductive AiMode : Set := human | cpu.
Inductive AiLevel : Set := Easy | Medium | Hard.
Record AiConfig : Set := mkAi { mode : AiMode; cpuPlays : Color; level : AiLevel }.

Record GameState : Type := mkGame {
  board : list Square;
  turn : Color;
  moveNumber : Z;
  stock : PerColor ChrysalisStock;
  quietus : PerColor ChrysalisStock;
  kingOnBoard : PerColor bool;
  kingProtectedUntil : PerColor (option Z);
  selected : option SquareId;
  promotion : option (SquareId * Color);
  message : option string;
  winner : option Color;
  winReason : option string;
  ai : AiConfig;
  lastMove : option (SquareId * SquareId * Color)
}.

(** Equality tests [===] and [!==] on colours and piece types. *)
Definition color_eqb (a b : Color) : bool :=
  match a, b with white, white | black, black => true | _, _ => false end.

Definition type_eqb (a b : PieceType) : bool :=
  match a, b with
  | K, K | Q, Q | R, R | B, B | N, N | P, P => true
  | _, _ => false
  end.

Definition other (c : Color) : Color :=
  match c with white => black | black => white end.

(** Indexing [x[color]] and [x[color] = v]. *)
Definition getC {A} (x : PerColor A) (c : Color) : A :=
  match c with white => ofWhite x | black => ofBlack x end.

Definition setC {A} (x : PerColor A) (c : Color) (v : A) : PerColor A :=
  match c with
  | white => mkPerColor v (ofBlack x)
  | black => mkPerColor (ofWhite x) v
  end.

(** Indexing [s[type]] and [s[type] = v]. *)
Definition getT (s : ChrysalisStock) (t : PieceType) : Z :=
  match t with
  | K => cK s | Q => cQ s | R => cR s | B => cB s | N => cN s | P => cP s
  end.

Definition setT (s : ChrysalisStock) (t : PieceType) (v : Z) : ChrysalisStock :=
  match t with
  | K => mkStock v (cQ s) (cR s) (cB s) (cN s) (cP s)
  | Q => mkStock (cK s) v (cR s) (cB s) (cN s) (cP s)
  | R => mkStock (cK s) (cQ s) v (cB s) (cN s) (cP s)
  | B => mkStock (cK s) (cQ s) (cR s) v (cN s) (cP s)
  | N => mkStock (cK s) (cQ s) (cR s) (cB s) v (cP s)
  | P => mkStock (cK s) (cQ s) (cR s) (cB s) (cN s) v
  end.

(** [x[color][type]] and its assignment. *)
Definition getCT (x : PerColor ChrysalisStock) (c : Color) (t : PieceType) : Z :=
  getT (getC x c) t.

Definition setCT (x : PerColor ChrysalisStock) (c : Color) (t : PieceType) (v : Z)
  : PerColor ChrysalisStock :=
  setC x c (setT (getC x c) t v).

(** Field updates of a game state ([{...gs, message: m}], [next.turn = ...]). *)
Definition setBoard (gs : GameState) (b : list Square) : GameState :=
  mkGame b (turn gs) (moveNumber gs) (stock gs) (quietus gs) (kingOnBoard gs)
    (kingProtectedUntil gs) (selected gs) (promotion gs) (message gs)
    (winner gs) (winReason gs) (ai gs) (lastMove gs).
Definition setTurn (gs : GameState) (c : Color) : GameState :=
  mkGame (board gs) c (moveNumber gs) (stock gs) (quietus gs) (kingOnBoard gs)
    (kingProtectedUntil gs) (selected gs) (promotion gs) (message gs)
    (winner gs) (winReason gs) (ai gs) (lastMove gs).
Definition setMoveNumber (gs : GameState) (n : Z) : GameState :=
  mkGame (board gs) (turn gs) n (stock gs) (quietus gs) (kingOnBoard gs)
    (kingProtectedUntil gs) (selected gs) (promotion gs) (message gs)
    (winner gs) (winReason gs) (ai gs) (lastMove gs).
Definition setStock (gs : GameState) (s : PerColor ChrysalisStock) : GameState :=
  mkGame (board gs) (turn gs) (moveNumber gs) s (quietus gs) (kingOnBoard gs)
    (kingProtectedUntil gs) (selected gs) (promotion gs) (message gs)
    (winner gs) (winReason gs) (ai gs) (lastMove gs).
Definition setQuietus (gs : GameState) (s : PerColor ChrysalisStock) : GameState :=
  mkGame (board gs) (turn gs) (moveNumber gs) (stock gs) s (kingOnBoard gs)
    (kingProtectedUntil gs) (selected gs) (promotion gs) (message gs)
    (winner gs) (winReason gs) (ai gs) (lastMove gs).
Definition setKingOnBoard (gs : GameState) (k : PerColor bool) : GameState :=
  mkGame (board gs) (turn gs) (moveNumber gs) (stock gs) (quietus gs) k
    (kingProtectedUntil gs) (selected gs) (promotion gs) (message gs)
    (winner gs) (winReason gs) (ai gs) (lastMove gs).
Definition setKingProtectedUntil (gs : GameState) (k : PerColor (option Z)) : GameState :=
  mkGame (board gs) (turn gs) (moveNumber gs) (stock gs) (quietus gs) (kingOnBoard gs)
    k (selected gs) (promotion gs) (message gs)
    (winner gs) (winReason gs) (ai gs) (lastMove gs).
Definition setSelected (gs : GameState) (s : option SquareId) : GameState :=
  mkGame (board gs) (turn gs) (moveNumber gs) (stock gs) (quietus gs) (kingOnBoard gs)
    (kingProtectedUntil gs) s (promotion gs) (message gs)
    (winner gs) (winReason gs) (ai gs) (lastMove gs).
Definition setPromotion (gs : GameState) (p : option (SquareId * Color)) : GameState :=
  mkGame (board gs) (turn gs) (moveNumber gs) (stock gs) (quietus gs) (kingOnBoard gs)
    (kingProtectedUntil gs) (selected gs) p (message gs)
    (winner gs) (winReason gs) (ai gs) (lastMove gs).
Definition setMessage (gs : GameState) (m : option string) : GameState :=
  mkGame (board gs) (turn gs) (moveNumber gs) (stock gs) (quietus gs) (kingOnBoard gs)
    (kingProtectedUntil gs) (selected gs) (promotion gs) m
    (winner gs) (winReason gs) (ai gs) (lastMove gs).
Definition setWinner (gs : GameState) (w : option Color) (why : option string) : GameState :=
  mkGame (board gs) (turn gs) (moveNumber gs) (stock gs) (quietus gs) (kingOnBoard gs)
    (kingProtectedUntil gs) (selected gs) (promotion gs) (message gs)
    w why (ai gs) (lastMove gs).
Definition setLastMove (gs : GameState) (l : option (SquareId * SquareId * Color)) : GameState :=
  mkGame (board gs) (turn gs) (moveNumber gs) (stock gs) (quietus gs) (kingOnBoard gs)
    (kingProtectedUntil gs) (selected gs) (promotion gs) (message gs)
    (winner gs) (winReason gs) (ai gs) l.

(** [`${FILES[file]}${rank}`]: an index outside the array reads [undefined]. *)
Definition idFrom (f r : Z) : SquareId :=
  String.append
    (if f <? 0 then "undefined" else nth (Z.to_nat f) FILES "undefined")
    (NilZero.string_of_int (Z.to_int r)).

Definition emptyStock : ChrysalisStock := mkStock 1 1 2 2 2 8.
Definition zeroStock : ChrysalisStock := mkStock 0 0 0 0 0 0.
Definition INITIAL_COUNTS : ChrysalisStock := mkStock 1 1 2 2 2 8.

(** [deepClone] is a JSON round trip; on the values of this model it is the
    identity, and no function below mutates a value it has returned. *)
Definition deepClone {A} (x : A) : A := x.

Definition color_of (o : Occupant) : option Color :=
  match o with
  | Null => None
  | Metamorph c => Some c
  | Piece c _ _ _ _ => Some c
  end.

(** Writing the [occupant] (or the [blueSymbol]) of a square object. *)
Definition withOccupant (s : Square) (o : Occupant) : Square :=
  mkSquare (id s) (file s) (rank s) (blueSymbol s) o.
Definition withSymbol (s : Square) (t : option PieceType) : Square :=
  mkSquare (id s) (file s) (rank s) t (occupant s).

(** [board.find(p)] followed by a write through the reference found: the
    first square satisfying [p] is replaced, [None] when there is none. *)
Fixpoint updateFirst (p : Square -> bool) (g : Square -> Square) (b : list Square)
  : option (list Square) :=
  match b with
  | [] => None
  | s :: rest =>
      if p s then Some (g s :: rest)
      else rest' <- updateFirst p g rest ;; Some (s :: rest')
  end.

Definition atCoord (f r : Z) (s : Square) : bool := (file s =? f) && (rank s =? r).
Definition hasId (i : SquareId) (s : Square) : bool := String.eqb (id s) i.

Definition inZone (r : Z) : bool := (3 <=? r) && (r <=? 6).

(** ** Initial position (lines 49-104) *)

(** [for (let r of RANKS) for (f = 0; f < 8; f++) board.push(...)]. *)
Definition emptyBoard : list Square :=
  flat_map (fun r => map (fun f => mkSquare (idFrom f r) f r None Null)
                       [0; 1; 2; 3; 4; 5; 6; 7]) RANKS.

(** [Object.entries(pack)] lists the keys in insertion order. *)
Definition entries (s : ChrysalisStock) : list (PieceType * Z) :=
  [(K, cK s); (Q, cQ s); (R, cR s); (B, cB s); (N, cN s); (P, cP s)].

Definition initialBag : list PieceType :=
  flat_map (fun '(t, n) => repeat t (Z.to_nat (n * 2))) (entries emptyStock).

Fixpoint setNth {A} (i : nat) (x : A) (l : list A) : list A :=
  match l, i with
  | [], _ => []
  | _ :: rest, O => x :: rest
  | y :: rest, S i' => y :: setNth i' x rest
  end.

(** [[bag[i], bag[j]] = [bag[j], bag[i]]] on indices inside the array. *)
Definition swap (bag : list PieceType) (i j : nat) : list PieceType :=
  match nth_error bag i, nth_error bag j with
  | Some bi, Some bj => setNth j bi (setNth i bj bag)
  | _, _ => bag
  end.

(** The Fisher-Yates loop [for (i = bag.length - 1; i > 0; i--)].  The
    source draws [j = Math.floor(Math.random() * (i + 1))], an integer of
    [0..i]; [rnd i] is the entropy of the iteration at index [i], reduced
    into that range. *)
Fixpoint shuffleFrom (rnd : nat -> Z) (i : nat) (bag : list PieceType) : list PieceType :=
  match i with
  | O => bag
  | S i' =>
      let j := Z.to_nat (rnd i mod (Z.of_nat i + 1)) in
      shuffleFrom rnd i' (swap bag i j)
  end.

Definition shuffle (rnd : nat -> Z) (bag : list PieceType) : list PieceType :=
  shuffleFrom rnd (List.length bag - 1)%nat bag.

Definition coordsOfRanks (rs : list Z) : list (Z * Z) :=
  flat_map (fun r => map (fun f => (f, r)) [0; 1; 2; 3; 4; 5; 6; 7]) rs.

(** [s.blueSymbol = bag[k++]] over ranks 3..6. *)
Fixpoint assignSymbols (bag : list PieceType) (k : nat) (cs : list (Z * Z))
    (b : list Square) : option (list Square) :=
  match cs with
  | [] => Some b
  | (f, r) :: cs' =>
      b' <- updateFirst (atCoord f r) (fun s => withSymbol s (nth_error bag k)) b ;;
      assignSymbols bag (S k) cs' b'
  end.

Fixpoint fillMetamorphs (c : Color) (cs : list (Z * Z)) (b : list Square)
  : option (list Square) :=
  match cs with
  | [] => Some b
  | (f, r) :: cs' =>
      b' <- updateFirst (atCoord f r) (fun s => withOccupant s (Metamorph c)) b ;;
      fillMetamorphs c cs' b'
  end.

Definition createInitialBoard (rnd : nat -> Z) : option (list Square) :=
  let bag := shuffle rnd initialBag in
  b1 <- assignSymbols bag 0 (coordsOfRanks [3; 4; 5; 6]) emptyBoard ;;
  b2 <- fillMetamorphs black (coordsOfRanks [1; 2]) b1 ;;
  fillMetamorphs white (coordsOfRanks [7; 8]) b2.

Definition initialGame (rnd : nat -> Z) : option GameState :=
  b <- createInitialBoard rnd ;;
  Some (mkGame b white 1
          (mkPerColor emptyStock emptyStock)
          (mkPerColor zeroStock zeroStock)
          (mkPerColor false false)
          (mkPerColor None None)
          None None None None None
          (mkAi human black Medium)
          None).

(** ** Move generation (lines 106-188) *)

Definition inBounds (f r : Z) : bool :=
  (0 <=? f) && (f <? 8) && (1 <=? r) && (r <=? 8).

(** A destination [{f, r}]. *)
Definition Coord : Set := (Z * Z)%type.

Definition sameCoord (f r : Z) (m : Coord) : bool := (fst m =? f) && (snd m =? r).

(** [board.find(s => s.file===nf && s.rank===nr)!.occupant]. *)
Definition occupantAt (b : list Square) (nf nr : Z) : option Occupant :=
  s <- find (atCoord nf nr) b ;; Some (occupant s).

(** [!o || (o.kind==="piece" && o.color!==color)]. *)
Definition landable (color : Color) (o : Occupant) : bool :=
  match o with
  | Null => true
  | Metamorph _ => false
  | Piece c _ _ _ _ => negb (color_eqb c color)
  end.

(** [o && o.kind==="piece" && o.color!==color]. *)
Definition enemyPiece (color : Color) (o : Occupant) : bool :=
  match o with
  | Piece c _ _ _ _ => negb (color_eqb c color)
  | _ => false
  end.

Definition canLand (b : list Square) (color : Color) (limitTo316 : bool) (nf nr : Z)
  : option bool :=
  if negb (inBounds nf nr) then Some false
  else if limitTo316 && negb (inZone nr) then Some false
  else o <- occupantAt b nf nr ;; Some (landable color o).

(** The [while (inBounds(nf, nr))] loop of [pushRays] along one direction.
    [fuel] bounds the number of iterations; lemma [rayLoop_fuel] below shows
    that 8 is never exhausted for the directions the source uses. *)
Fixpoint rayLoop (fuel : nat) (b : list Square) (color : Color) (limitTo316 : bool)
    (df dr nf nr : Z) (moves : list Coord) : option (list Coord) :=
  match fuel with
  | O => Some moves
  | S fuel' =>
      if inBounds nf nr then
        if limitTo316 && negb (inZone nr) then Some moves
        else
          o <- occupantAt b nf nr ;;
          match o with
          | Null =>
              rayLoop fuel' b color limitTo316 df dr (nf + df) (nr + dr)
                (moves ++ [(nf, nr)])
          | _ => Some (if enemyPiece color o then moves ++ [(nf, nr)] else moves)
          end
      else Some moves
  end.

Fixpoint pushRays (b : list Square) (color : Color) (limitTo316 : bool) (f0 r0 : Z)
    (dirs : list (Z * Z)) (moves : list Coord) : option (list Coord) :=
  match dirs with
  | [] => Some moves
  | (df, dr) :: rest =>
      moves' <- rayLoop 8 b color limitTo316 df dr (f0 + df) (r0 + dr) moves ;;
      pushRays b color limitTo316 f0 r0 rest moves'
  end.

(** [for (const [df,dr] of deltas) if (canLand(nf,nr)) moves.push(...)]. *)
Fixpoint pushSteps (b : list Square) (color : Color) (limitTo316 : bool) (f0 r0 : Z)
    (deltas : list (Z * Z)) (moves : list Coord) : option (list Coord) :=
  match deltas with
  | [] => Some moves
  | (df, dr) :: rest =>
      ok <- canLand b color limitTo316 (f0 + df) (r0 + dr) ;;
      pushSteps b color limitTo316 f0 r0 rest
        (if ok then moves ++ [(f0 + df, r0 + dr)] else moves)
  end.

Definition knightDeltas : list (Z * Z) :=
  [(1, 2); (2, 1); (-1, 2); (-2, 1); (1, -2); (2, -1); (-1, -2); (-2, -1)].
Definition bishopDirs : list (Z * Z) := [(1, 1); (1, -1); (-1, 1); (-1, -1)].
Definition rookDirs : list (Z * Z) := [(1, 0); (-1, 0); (0, 1); (0, -1)].
Definition queenDirs : list (Z * Z) :=
  [(1, 0); (-1, 0); (0, 1); (0, -1); (1, 1); (1, -1); (-1, 1); (-1, -1)].
(** [for df in -1..1, for dr in -1..1, skipping (0,0)]. *)
Definition kingDeltas : list (Z * Z) :=
  [(-1, -1); (-1, 0); (-1, 1); (0, -1); (0, 1); (1, -1); (1, 0); (1, 1)].

Definition pawnDir (color : Color) : Z :=
  match color with white => -1 | black => 1 end.

Fixpoint pawnCaptures (b : list Square) (color : Color) (f0 r0 : Z) (dfs : list Z)
    (moves : list Coord) : option (list Coord) :=
  match dfs with
  | [] => Some moves
  | df :: rest =>
      let nf := f0 + df in
      let nr := r0 + pawnDir color in
      if negb (inBounds nf nr) then pawnCaptures b color f0 r0 rest moves
      else
        o <- occupantAt b nf nr ;;
        pawnCaptures b color f0 r0 rest
          (if enemyPiece color o then moves ++ [(nf, nr)] else moves)
  end.

Definition pawnMoves (b : list Square) (color : Color) (f0 r0 : Z) : option (list Coord) :=
  let oneR := r0 + pawnDir color in
  moves <- (if inBounds f0 oneR then
              front <- find (atCoord f0 oneR) b ;;
              Some (match occupant front with Null => [(f0, oneR)] | _ => [] end)
            else Some []) ;;
  pawnCaptures b color f0 r0 [-1; 1] moves.

Definition legalMovesForPiece (gs : GameState) (from : Square) : option (list Coord) :=
  match occupant from with
  | Null => None
  | Metamorph _ => Some []
  | Piece color type _ mustReturn _ =>
      let b := board gs in
      let f0 := file from in
      let r0 := rank from in
      let limitTo316 := negb mustReturn in
      match type with
      | N => pushSteps b color limitTo316 f0 r0 knightDeltas []
      | B => pushRays b color limitTo316 f0 r0 bishopDirs []
      | R => pushRays b color limitTo316 f0 r0 rookDirs []
      | Q => pushRays b color limitTo316 f0 r0 queenDirs []
      | K => pushSteps b color limitTo316 f0 r0 kingDeltas []
      | P => pawnMoves b color f0 r0
      end
  end.

Definition legalMovesForMetamorph (gs : GameState) (from : Square) : option (list Coord) :=
  match color_of (occupant from) with
  | None => None
  | Some color =>
      let f0 := file from in
      let nr := rank from + pawnDir color in
      if negb (inBounds f0 nr) then Some []
      else
        dest <- find (atCoord f0 nr) (board gs) ;;
        Some (match occupant dest with Null => [(f0, nr)] | _ => [] end)
  end.

(** ** Transformation engine (lines 190-219) *)

(** The body shared by the sweep (lines 197-216) and by the landing square of
    a move (lines 275-296): the two copies differ only in the protection
    window given to a new king, [moveNumber] in the sweep and
    [moveNumber + 1] on landing, passed here as [protUntil]. *)
Definition transformOccupant (g : GameState) (protUntil : Z) (needed : PieceType)
    (o : Occupant) : GameState * Occupant :=
  match o with
  | Null => (g, o)
  | Metamorph color =>
      if getCT (stock g) color needed >? 0 then
        let g1 := setStock g (setCT (stock g) color needed (getCT (stock g) color needed - 1)) in
        let g2 :=
          if type_eqb needed K then
            setKingProtectedUntil (setKingOnBoard g1 (setC (kingOnBoard g1) color true))
              (setC (kingProtectedUntil g1) color (Some protUntil))
          else g1 in
        (g2, Piece color needed (moveNumber g) false None)
      else (g, o)
  | Piece color current _ _ _ =>
      if negb (type_eqb current needed) && (getCT (stock g) color needed >? 0) then
        let g1 := setStock g (setCT (stock g) color current
                    (Z.min (getT INITIAL_COUNTS current) (getCT (stock g) color current + 1))) in
        let g2 := setStock g1 (setCT (stock g1) color needed (getCT (stock g1) color needed - 1)) in
        let g3 :=
          if type_eqb current K && negb (type_eqb needed K) then
            setKingOnBoard g2 (setC (kingOnBoard g2) color false)
          else g2 in
        let g4 :=
          if type_eqb needed K then
            setKingProtectedUntil (setKingOnBoard g3 (setC (kingOnBoard g3) color true))
              (setC (kingProtectedUntil g3) color (Some protUntil))
          else g3 in
        (g4, Piece color needed (moveNumber g) false None)
      else (g, o)
  end.

(** One iteration of [for (const sq of newGs.board)]. *)
Definition transformSquare (g : GameState) (sq : Square) : GameState * Square :=
  if negb (inZone (rank sq)) then (g, sq)
  else match blueSymbol sq with
       | None => (g, sq)
       | Some needed =>
           let '(g', o') := transformOccupant g (moveNumber g) needed (occupant sq) in
           (g', withOccupant sq o')
       end.

(** The loop itself: the counters live in [g], the squares already visited
    are returned in order. *)
Fixpoint sweepSquares (g : GameState) (sqs : list Square) : GameState * list Square :=
  match sqs with
  | [] => (g, [])
  | sq :: rest =>
      let '(g1, sq') := transformSquare g sq in
      let '(g2, rest') := sweepSquares g1 rest in
      (g2, sq' :: rest')
  end.

Definition applyAutoTransforms (gs : GameState) : GameState :=
  let newGs := deepClone gs in
  let '(g, b) := sweepSquares newGs (board newGs) in
  setBoard g b.

(** ** Win detection (lines 362-444) *)

Definition isPieceOf (color : Color) (o : Occupant) : bool :=
  match o with Piece c _ _ _ _ => color_eqb c color | _ => false end.

Definition isKingOf (color : Color) (o : Occupant) : bool :=
  match o with Piece c K _ _ _ => color_eqb c color | _ => false end.

Definition isPawnOf (color : Color) (o : Occupant) : bool :=
  match o with Piece c P _ _ _ => color_eqb c color | _ => false end.

Definition isMetamorphOf (color : Color) (o : Occupant) : bool :=
  match o with Metamorph c => color_eqb c color | _ => false end.

(** The loop of [isSquareAttacked], with its early [return true]. *)
Fixpoint attackedFrom (gs : GameState) (f r : Z) (by_ : Color) (sqs : list Square)
  : option bool :=
  match sqs with
  | [] => Some false
  | sq :: rest =>
      if isPieceOf by_ (occupant sq) then
        moves <- legalMovesForPiece gs sq ;;
        if existsb (sameCoord f r) moves then Some true
        else attackedFrom gs f r by_ rest
      else attackedFrom gs f r by_ rest
  end.

Definition isSquareAttacked (gs : GameState) (f r : Z) (by_ : Color) : option bool :=
  attackedFrom gs f r by_ (board gs).

Definition findKingSquare (gs : GameState) (color : Color) : option Square :=
  find (fun sq => isKingOf color (occupant sq)) (board gs).

Fixpoint pawnCanMoveIn (gs : GameState) (color : Color) (sqs : list Square) : option bool :=
  match sqs with
  | [] => Some false
  | sq :: rest =>
      if isPawnOf color (occupant sq) then
        ms <- legalMovesForPiece gs sq ;;
        match ms with
        | _ :: _ => Some true
        | [] => pawnCanMoveIn gs color rest
        end
      else pawnCanMoveIn gs color rest
  end.

Definition anyPawnCanMove (gs : GameState) (color : Color) : option bool :=
  pawnCanMoveIn gs color (board gs).

Fixpoint metamorphCanMoveIn (gs : GameState) (color : Color) (sqs : list Square)
  : option bool :=
  match sqs with
  | [] => Some false
  | sq :: rest =>
      if isMetamorphOf color (occupant sq) then
        ms <- legalMovesForMetamorph gs sq ;;
        match ms with
        | _ :: _ => Some true
        | [] => metamorphCanMoveIn gs color rest
        end
      else metamorphCanMoveIn gs color rest
  end.

Definition anyMetamorphCanMove (gs : GameState) (color : Color) : option bool :=
  metamorphCanMoveIn gs color (board gs).

Definition hasAnyMetamorph (gs : GameState) (color : Color) : bool :=
  existsb (fun s => isMetamorphOf color (occupant s)) (board gs).

Definition hasAnyPawn (gs : GameState) (color : Color) : bool :=
  existsb (fun s => isPawnOf color (occupant s)) (board gs).

(** [kingMoves.filter(m => !isSquareAttacked(gs, m.f, m.r, lastMover))]. *)
Fixpoint safeMoves (gs : GameState) (lastMover : Color) (ms : list Coord)
  : option (list Coord) :=
  match ms with
  | [] => Some []
  | m :: rest =>
      a <- isSquareAttacked gs (fst m) (snd m) lastMover ;;
      rest' <- safeMoves gs lastMover rest ;;
      Some (if a then rest' else m :: rest')
  end.

(** Lines 416-429: [Some true] when the opponent is checkmated. *)
Definition checkmated (gs : GameState) (lastMover opponent : Color) : option bool :=
  if getC (kingOnBoard gs) opponent then
    match findKingSquare gs opponent with
    | None => Some false
    | Some ksq =>
        inCheck <- isSquareAttacked gs (file ksq) (rank ksq) lastMover ;;
        if inCheck then
          kingMoves <- legalMovesForPiece gs ksq ;;
          safeKingMoves <- safeMoves gs lastMover kingMoves ;;
          Some (match safeKingMoves with [] => true | _ :: _ => false end)
        else Some false
    end
  else Some false.

(** Lines 432-441 for one colour: [Some true] when [color] is immobilised. *)
Definition immobile (gs : GameState) (color : Color) : option bool :=
  if negb (getC (kingOnBoard gs) color) then
    let noPawns := negb (hasAnyPawn gs color) in
    pawnsStuck <- (if negb noPawns then
                     a <- anyPawnCanMove gs color ;; Some (negb a)
                   else Some false) ;;
    let noMorphs := negb (hasAnyMetamorph gs color) in
    morphsStuck <- (if negb noMorphs then
                      a <- anyMetamorphCanMove gs color ;; Some (negb a)
                    else Some false) ;;
    Some ((noPawns || pawnsStuck) && (noMorphs || morphsStuck))
  else Some false.

Definition immobilityReason : string := "no king + no mobile pawns/metamorphs".

Definition detectWin (gs : GameState) (lastMover : Color) (capturedKing : option Color)
  : option (option (Color * string)) :=
  let opponent := turn gs in
  match capturedKing with
  | Some _ => Some (Some (lastMover, "king captured"))
  | None =>
      mate <- checkmated gs lastMover opponent ;;
      if mate then Some (Some (lastMover, "checkmate"))
      else
        w <- immobile gs white ;;
        if w then Some (Some (black, immobilityReason))
        else
          bl <- immobile gs black ;;
          if bl then Some (Some (white, immobilityReason))
          else Some None
  end.

(** ** Move application (lines 221-330) *)

(** A write [sq.occupant = o] through a reference obtained by
    [board.find(s => s.id === i)]: the first square of that id is updated. *)
Fixpoint setOccupantAt (i : SquareId) (o : Occupant) (b : list Square) : list Square :=
  match b with
  | [] => []
  | s :: rest =>
      if hasId i s then withOccupant s o :: rest
      else s :: setOccupantAt i o rest
  end.

(** A read [sq.occupant] through such a reference. *)
Definition occupantOf (b : list Square) (i : SquareId) : Occupant :=
  match find (hasId i) b with
  | Some s => occupant s
  | None => Null
  end.

(** Lines 243-256: the message refusing the capture of a king, if any. *)
Definition kingCaptureRefusal (gs : GameState) (attackerColor : Color) (target : Occupant)
  : option string :=
  match target with
  | Piece tc K _ _ _ =>
      if negb (getC (kingOnBoard gs) attackerColor) then
        Some "You cannot take the king without your own king on the board."
      else
        match getC (kingProtectedUntil gs) tc with
        | Some prot =>
            if moveNumber gs =? prot then Some "That king is protected this turn."
            else None
        | None => None
        end
  | _ => None
  end.

(** Lines 258-261. *)
Definition recordCapture (next : GameState) (target : Occupant)
  : GameState * option Color :=
  match target with
  | Piece tc ty _ _ _ =>
      let n1 := setQuietus next (setCT (quietus next) tc ty (getCT (quietus next) tc ty + 1)) in
      if type_eqb ty K then
        (setKingOnBoard n1 (setC (kingOnBoard n1) tc false), Some tc)
      else (n1, None)
  | _ => (next, None)
  end.

(** Lines 263-266. *)
Definition moveOccupant (next : GameState) (fromId toId : SquareId) (by_ : Color)
  : GameState :=
  let b1 := setOccupantAt toId (occupantOf (board next) fromId) (board next) in
  let b2 := setOccupantAt fromId Null b1 in
  setLastMove (setBoard next b2) (Some (fromId, toId, by_)).

(** Lines 268-273: a loan piece landing in ranks 3..6 keeps its place. *)
Definition landLoan (next : GameState) (to : Square) : GameState :=
  match occupantOf (board next) (id to) with
  | Piece c t born true _ =>
      if inZone (rank to) then
        setBoard next (setOccupantAt (id to) (Piece c t born false None) (board next))
      else next
  | _ => next
  end.

(** Lines 275-296: the transformation on the landing square. *)
Definition landTransform (next : GameState) (to : Square) : GameState :=
  match blueSymbol to with
  | Some needed =>
      if inZone (rank to) then
        let '(g, o') := transformOccupant next (moveNumber next + 1) needed
                          (occupantOf (board next) (id to)) in
        setBoard g (setOccupantAt (id to) o' (board g))
      else next
  | None => next
  end.

(** Lines 298-302. *)
Definition markPromotion (next : GameState) (to : Square) : GameState :=
  match occupantOf (board next) (id to) with
  | Piece c P _ _ _ =>
      if (color_eqb c white && (rank to =? 1)) || (color_eqb c black && (rank to =? 8))
      then setPromotion next (Some (id to, c))
      else next
  | _ => next
  end.

(** Lines 304-305. *)
Definition advanceTurn (next : GameState) : GameState :=
  setMoveNumber (setTurn next (other (turn next))) (moveNumber next + 1).

(** One iteration of the loop of lines 307-320. *)
Definition expireSquare (g : GameState) (sq : Square) : GameState * Square :=
  match occupant sq with
  | Piece c t born true (Some returnBy) =>
      let justMoved := other (turn g) in
      if color_eqb c justMoved && (moveNumber g >=? returnBy) then
        if negb (inZone (rank sq)) then
          ((if type_eqb t K then setKingOnBoard g (setC (kingOnBoard g) c false) else g),
           withOccupant sq Null)
        else (g, withOccupant sq (Piece c t born false None))
      else (g, sq)
  | _ => (g, sq)
  end.

Fixpoint expireSquares (g : GameState) (sqs : list Square) : GameState * list Square :=
  match sqs with
  | [] => (g, [])
  | sq :: rest =>
      let '(g1, sq') := expireSquare g sq in
      let '(g2, rest') := expireSquares g1 rest in
      (g2, sq' :: rest')
  end.

Definition expireLoans (next : GameState) : GameState :=
  let '(g, b) := expireSquares next (board next) in
  setBoard g b.

Definition colorName (c : Color) : string :=
  match c with white => "white" | black => "black" end.

(** [`Winner: ${win.winner} (${win.reason})`]. *)
Definition winnerMessage (w : Color) (reason : string) : string :=
  String.append "Winner: "
    (String.append (colorName w) (String.append " (" (String.append reason ")"))).

(** Lines 322-329. *)
Definition concludeMove (next : GameState) (capturedKing : option Color)
  : option GameState :=
  let newGs := setMessage (setSelected (applyAutoTransforms next) None) None in
  let lastMover := other (turn newGs) in
  win <- detectWin newGs lastMover capturedKing ;;
  match win with
  | Some (w, reason) =>
      Some (setMessage (setWinner newGs (Some w) (Some reason))
              (Some (winnerMessage w reason)))
  | None => Some newGs
  end.

(** Lines 258-329: the move once accepted. *)
Definition applyMove (gs : GameState) (fromId : SquareId) (to : Square) (by_ : Color)
  : option GameState :=
  let next := deepClone gs in
  let '(n1, capturedKing) := recordCapture next (occupant to) in
  let n2 := moveOccupant n1 fromId (id to) by_ in
  let n3 := landLoan n2 to in
  let n4 := landTransform n3 to in
  let n5 := markPromotion n4 to in
  let n6 := advanceTurn n5 in
  let n7 := expireLoans n6 in
  concludeMove n7 capturedKing.

(** [legal.some(m => m.f===to.file && m.r===to.rank)], where [to] may be
    [undefined]: the callback only runs on a non-empty [legal]. *)
Definition isLegalDestination (legal : list Coord) (sTo : option Square) : option bool :=
  match legal, sTo with
  | [], _ => Some false
  | _ :: _, None => None
  | _ :: _, Some to => Some (existsb (sameCoord (file to) (rank to)) legal)
  end.

Definition legalMovesFor (gs : GameState) (from : Square) : option (list Coord) :=
  match occupant from with
  | Metamorph _ => legalMovesForMetamorph gs from
  | _ => legalMovesForPiece gs from
  end.

Definition performMove (gs : GameState) (fromId toId : SquareId) : option GameState :=
  match winner gs with
  | Some _ => Some gs
  | None =>
      sFrom <- find (hasId fromId) (board gs) ;;
      let sTo := find (hasId toId) (board gs) in
      match color_of (occupant sFrom) with
      | None => Some gs
      | Some moverColor =>
          if negb (color_eqb moverColor (turn gs)) then Some gs
          else
            legal <- legalMovesFor gs sFrom ;;
            isLegal <- isLegalDestination legal sTo ;;
            if negb isLegal then Some (setMessage gs (Some "Illegal move."))
            else
              to <- sTo ;;
              match kingCaptureRefusal gs moverColor (occupant to) with
              | Some msg => Some (setMessage gs (Some msg))
              | None => applyMove gs fromId to moverColor
              end
      end
  end.

(** ** Promotion (lines 332-360) *)

(** [activeCounts(gs, color)[t]]: every piece counts, loan or not. *)
Definition activeCount (gs : GameState) (color : Color) (t : PieceType) : Z :=
  fold_left
    (fun c sq =>
       match occupant sq with
       | Piece pc pt _ _ _ => if color_eqb pc color && type_eqb pt t then c + 1 else c
       | _ => c
       end)
    (board gs) 0.

Definition promotionAvailable (gs : GameState) (color : Color) (t : PieceType) : bool :=
  activeCount gs color t <? getT INITIAL_COUNTS t.

Definition applyPromotionChoice (state : GameState) (type : PieceType) : option GameState :=
  match promotion state with
  | None => Some state
  | Some (square, color) =>
      let next := deepClone state in
      if negb (promotionAvailable next color type) then Some state
      else
        let n1 :=
          if getCT (quietus next) color type >? 0 then
            setQuietus next (setCT (quietus next) color type (getCT (quietus next) color type - 1))
          else next in
        let deadline := moveNumber n1 + 1 in
        b <- updateFirst (hasId square)
               (fun sq => withOccupant sq (Piece color type (moveNumber n1) true (Some deadline)))
               (board n1) ;;
        let n2 := setBoard n1 b in
        let n3 :=
          if type_eqb type K then
            setKingProtectedUntil (setKingOnBoard n2 (setC (kingOnBoard n2) color true))
              (setC (kingProtectedUntil n2) color (Some (moveNumber n2 + 1)))
          else n2 in
        Some (applyAutoTransforms (setPromotion n3 None))
  end.

(** ** Move enumeration for the computer opponent (lines 788-835, 855-859) *)

Definition kingInCheck (gs : GameState) (color : Color) : option bool :=
  if negb (getC (kingOnBoard gs) color) then Some false
  else
    match findKingSquare gs color with
    | None => Some false
    | Some ksq => isSquareAttacked gs (file ksq) (rank ksq) (other color)
    end.

Fixpoint resolveWith (state : GameState) (color : Color) (pref : list PieceType)
  : option GameState :=
  match pref with
  | [] => Some state
  | t :: rest =>
      if promotionAvailable state color t then applyPromotionChoice state t
      else resolveWith state color rest
  end.

Definition aiResolvePromotion (state : GameState) (color : Color) : option GameState :=
  resolveWith state color [Q; R; B; N; K].

Record Candidate : Type := mkCandidate {
  cand_from : SquareId;
  cand_to : SquareId;
  cand_next : GameState
}.

(** Truthiness of [gs.message]: [null] and the empty string are falsy. *)
Definition truthy (m : option string) : bool :=
  match m with
  | Some s => negb (String.eqb s "")
  | None => false
  end.

(** [(n.promotion && n.promotion.color===color) ? aiResolvePromotion(n, color) : n]. *)
Definition resolveForAi (n : GameState) (color : Color) : option GameState :=
  match promotion n with
  | Some (_, pc) => if color_eqb pc color then aiResolvePromotion n color else Some n
  | None => Some n
  end.

(** The inner loop [for (const m of ms)]. *)
Fixpoint tryMoves (base : GameState) (color : Color) (fromId : SquareId)
    (ms : list Coord) (candidates : list Candidate) : option (list Candidate) :=
  match ms with
  | [] => Some candidates
  | m :: rest =>
      let toId := idFrom (fst m) (snd m) in
      n <- performMove base fromId toId ;;
      n2 <- resolveForAi n color ;;
      tryMoves base color fromId rest
        (if truthy (message n2) then candidates
         else candidates ++ [mkCandidate fromId toId n2])
  end.

(** The outer loop [for (const sq of base.board)]. *)
Fixpoint collectCandidates (base : GameState) (color : Color) (sqs : list Square)
    (candidates : list Candidate) : option (list Candidate) :=
  match sqs with
  | [] => Some candidates
  | sq :: rest =>
      match occupant sq with
      | Null => collectCandidates base color rest candidates
      | Metamorph c =>
          if color_eqb c color then
            ms <- legalMovesForMetamorph base sq ;;
            candidates' <- tryMoves base color (id sq) ms candidates ;;
            collectCandidates base color rest candidates'
          else collectCandidates base color rest candidates
      | Piece c _ _ _ _ =>
          if color_eqb c color then
            ms <- legalMovesForPiece base sq ;;
            candidates' <- tryMoves base color (id sq) ms candidates ;;
            collectCandidates base color rest candidates'
          else collectCandidates base color rest candidates
      end
  end.

(** [candidates.filter(mv => !kingInCheck(mv.next, color))]. *)
Fixpoint filterSafe (color : Color) (candidates : list Candidate)
  : option (list Candidate) :=
  match candidates with
  | [] => Some []
  | mv :: rest =>
      c <- kingInCheck (cand_next mv) color ;;
      rest' <- filterSafe color rest ;;
      Some (if c then rest' else mv :: rest')
  end.

Definition generateMoves (gs : GameState) (color : Color) : option (list Candidate) :=
  let base := setTurn (deepClone gs) color in
  candidates <- collectCandidates base color (board base) [] ;;
  safe <- filterSafe color candidates ;;
  inCheck <- kingInCheck gs color ;;
  if inCheck then Some safe
  else Some (match safe with [] => candidates | _ :: _ => safe end).

Section PickAiMove.

(** The choice among a non-empty candidate list (lines 861-901: a random
    one at [Easy], the best evaluation at [Medium], minimax at [Hard]).
    No property below depends on which candidate is chosen, so the choice
    is abstracted. *)
Variable choose : AiLevel -> Color -> Candidate -> list Candidate -> GameState.


End PickAiMove.

(** ** Evaluation and search of the computer opponent (lines 837-904) *)

(** [val] of line 839. *)
Definition pieceValue (t : PieceType) : Z :=
  match t with
  | K => 5000 | Q => 900 | R => 500 | B => 330 | N => 320 | P => 100
  end.

(** One iteration of the loop of lines 841-848. *)
Definition squareScore (forColor : Color) (score : Z) (sq : Square) : Z :=
  match occupant sq with
  | Piece c t _ _ _ =>
      let s := pieceValue t in
      let score1 := score + (if color_eqb c forColor then s else - s) in
      if inZone (rank sq) then score1 + (if color_eqb c forColor then 4 else -4)
      else score1
  | _ => score
  end.

(** [1e9]. *)
Definition wonScore : QArith_base.Q := inject_Z 1000000000.

Definition evaluate (gs : GameState) (forColor : Color) : option QArith_base.Q :=
  match winner gs with
  | Some w => Some (if color_eqb w forColor then wonScore else - wonScore)%Q
  | None =>
      let score := fold_left (squareScore forColor) (board gs) 0 in
      my <- generateMoves gs forColor ;;
      opp <- generateMoves gs (other forColor) ;;
      let myMoves := Z.of_nat (List.length my) in
      let oppMoves := Z.of_nat (List.length opp) in
      Some (inject_Z score + inject_Z (myMoves - oppMoves) * (1 # 2))%Q
  end.

(** A JavaScript number of the search: a score, [-Infinity] or [Infinity]. *)
Inductive Num : Set := NegInf | Fin (q : QArith_base.Q) | PosInf.

(** [a <= b]. *)
Definition num_leb (a b : Num) : bool :=
  match a, b with
  | NegInf, _ => true
  | _, PosInf => true
  | Fin x, Fin y => Qle_bool x y
  | _, _ => false
  end.

(** [a > b]. *)
Definition num_gtb (a b : Num) : bool := negb (num_leb a b).

(** [Math.max(a, b)] and [Math.min(a, b)]. *)
Definition num_max (a b : Num) : Num := if num_leb a b then b else a.
Definition num_min (a b : Num) : Num := if num_leb a b then a else b.

(** The loop of a maximizing node (lines 881-884); [child] is the recursive
    call on a candidate's state, with the window it receives. *)
Fixpoint maxLoop (child : GameState -> Num -> Num -> option Num) (list : list Candidate)
    (val alpha beta : Num) : option Num :=
  match list with
  | [] => Some val
  | mv :: rest =>
      v <- child (cand_next mv) alpha beta ;;
      let val' := num_max val v in
      let alpha' := num_max alpha val' in
      if num_leb beta alpha' then Some val'
      else maxLoop child rest val' alpha' beta
  end.

(** The loop of a minimizing node (lines 888-891). *)
Fixpoint minLoop (child : GameState -> Num -> Num -> option Num) (list : list Candidate)
    (val alpha beta : Num) : option Num :=
  match list with
  | [] => Some val
  | mv :: rest =>
      v <- child (cand_next mv) alpha beta ;;
      let val' := num_min val v in
      let beta' := num_min beta val' in
      if num_leb beta' alpha then Some val'
      else minLoop child rest val' alpha beta'
  end.

(** Lines 875-894; [depth] is a natural number, as at its only call. *)
Fixpoint minimax (depth : nat) (state : GameState) (alpha beta : Num) (maximizing : bool)
    (maximizingColor : Color) : option Num :=
  match depth with
  | O => v <- evaluate state maximizingColor ;; Some (Fin v)
  | S depth' =>
      match winner state with
      | Some _ => v <- evaluate state maximizingColor ;; Some (Fin v)
      | None =>
          let side := if maximizing then maximizingColor else other maximizingColor in
          list <- generateMoves state side ;;
          match list with
          | [] => v <- evaluate state maximizingColor ;; Some (Fin v)
          | _ :: _ =>
              if maximizing then
                maxLoop (fun s a b => minimax depth' s a b false maximizingColor)
                  list NegInf alpha beta
              else
                minLoop (fun s a b => minimax depth' s a b true maximizingColor)
                  list PosInf alpha beta
          end
      end
  end.

(** The selection loops of lines 867-871 and 896-900: the first candidate
    whose score is greater than every score before it. *)
Fixpoint bestNext (score : GameState -> option Num) (moves : list Candidate)
    (best : Num) (bestN : GameState) : option GameState :=
  match moves with
  | [] => Some bestN
  | m :: rest =>
      s <- score (cand_next m) ;;
      if num_gtb s best then bestNext score rest s (cand_next m)
      else bestNext score rest best bestN
  end.

Section Levels.

(** [moves.slice().sort(() => Math.random() - 0.5)] of line 862: the order
    produced by a comparator that answers at random is left open. *)
Variable sortRandomly : list Candidate -> list Candidate.

(** [pickAiMove] with its three levels (lines 855-902); reading [sorted[0]]
    of an empty array raises. *)
Definition pickAiMoveAtLevel (gs : GameState) : option GameState :=
  let color := cpuPlays (ai gs) in
  moves <- generateMoves gs color ;;
  match moves with
  | [] => Some gs
  | first :: _ =>
      match level (ai gs) with
      | Easy =>
          match sortRandomly moves with
          | s0 :: _ => Some (cand_next s0)
          | [] => None
          end
      | Medium =>
          bestNext (fun s => v <- evaluate s color ;; Some (Fin v))
            moves NegInf (cand_next first)
      | Hard =>
          bestNext (fun s => minimax 1 s NegInf PosInf false color)
            moves NegInf (cand_next first)
      end
  end.

End Levels.

(** ** The handlers of the interface (lines 526-530, 588-615) *)

(** Board colours (lines 488-493); [%] is the truncated remainder. *)
Definition beech : string := "#E6CBA8".
Definition oak : string := "#8C6B3E".
Definition woodColor (file rank : Z) : string :=
  if Z.rem (file + rank) 2 =? 1 then oak else beech.

(** The loop of [aiBestPromotion]. *)
Fixpoint firstAvailable (state : GameState) (color : Color) (order : list PieceType)
  : option PieceType :=
  match order with
  | [] => None
  | t :: rest =>
      if promotionAvailable state color t then Some t
      else firstAvailable state color rest
  end.

Definition aiBestPromotion (state : GameState) (color : Color) : PieceType :=
  match firstAvailable state color [Q; R; B; N; K] with
  | Some t => t
  | None => Q
  end.

(** [handlePromotion], as the state it passes to [setGs]; the state itself
    when it returns without calling [setGs]. *)
Definition handlePromotion (gs : GameState) (type : PieceType) : option GameState :=
  match promotion gs with
  | None => Some gs
  | Some (square, color) =>
      let next := deepClone gs in
      if negb (promotionAvailable next color type) then
        Some (setMessage next (Some "You can't promote to that piece right now."))
      else
        let n1 :=
          if getCT (quietus next) color type >? 0 then
            setQuietus next (setCT (quietus next) color type (getCT (quietus next) color type - 1))
          else next in
        let deadline := moveNumber n1 + 1 in
        b <- updateFirst (hasId square)
               (fun sq => withOccupant sq (Piece color type (moveNumber n1) true (Some deadline)))
               (board n1) ;;
        let n2 := setBoard n1 b in
        let n3 :=
          if type_eqb type K then
            setKingProtectedUntil (setKingOnBoard n2 (setC (kingOnBoard n2) color true))
              (setC (kingProtectedUntil n2) color (Some (moveNumber n2 + 1)))
          else n2 in
        Some (applyAutoTransforms (setPromotion n3 None))
  end.

(** The settings of the opponent (lines 635, 643 and 651):
    [{...gs, ai: {...}}]. *)
Definition setAi (gs : GameState) (a : AiConfig) : GameState :=
  mkGame (board gs) (turn gs) (moveNumber gs) (stock gs) (quietus gs) (kingOnBoard gs)
    (kingProtectedUntil gs) (selected gs) (promotion gs) (message gs)
    (winner gs) (winReason gs) a (lastMove gs).

(** [gs.ai.mode==='cpu' && gs.turn===gs.ai.cpuPlays]. *)
Definition cpuToMove (gs : GameState) : bool :=
  match mode (ai gs) with
  | cpu => color_eqb (turn gs) (cpuPlays (ai gs))
  | human => false
  end.

(** [clickMove], as the state it passes to [setGs]; the state itself when it
    returns without calling [setGs]. *)
Definition clickMove (gs : GameState) (target : Square) : option GameState :=
  match winner gs with
  | Some _ => Some gs
  | None =>
      if cpuToMove gs then Some gs
      else
        match selected gs with
        | Some s =>
            if String.eqb s "" then
              match color_of (occupant target) with
              | None => Some gs
              | Some color =>
                  if negb (color_eqb color (turn gs)) then Some gs
                  else Some (setSelected gs (Some (id target)))
              end
            else performMove gs s (id target)
        | None =>
            match color_of (occupant target) with
            | None => Some gs
            | Some color =>
                if negb (color_eqb color (turn gs)) then Some gs
                else Some (setSelected gs (Some (id target)))
            end
        end
  end.

(** ** Vocabulary of the specification *)

Definition PieceType_eq_dec (a b : PieceType) : {a = b} + {a <> b}.
Proof. decide equality. Defined.

(** The blue symbols of a board, in board order. *)
Definition symbolsOf (b : list Square) : list PieceType :=
  flat_map (fun s => match blueSymbol s with Some t => [t] | None => [] end) b.

(** Number of squares whose occupant satisfies [p]. *)
Definition countOccupants (p : Occupant -> bool) (b : list Square) : Z :=
  Z.of_nat (List.length (filter (fun s => p (occupant s)) b)).

(** The squares of the given ranks. *)
Definition onRanks (lo hi : Z) (b : list Square) : list Square :=
  filter (fun s => (lo <=? rank s) && (rank s <=? hi)) b.

(** The fixed part of a square: everything but its occupant. *)
Definition frame (s : Square) : SquareId * Z * Z * option PieceType :=
  (id s, file s, rank s, blueSymbol s).

(** The topology of a square: its identifier and its coordinates. *)
Definition place (s : Square) : SquareId * Z * Z := (id s, file s, rank s).

(** A board has the 64-square topology built by [createInitialBoard]. *)
Definition wfBoard (b : list Square) : Prop := map place b = map place emptyBoard.

(** The 64 square identifiers [a1 .. h8]. *)
Definition validId (i : SquareId) : Prop := In i (map id emptyBoard).

(** Two full copies of the per-colour counts K1 Q1 R2 B2 N2 P8. *)
Definition twoArmies (l : list PieceType) : Prop :=
  forall t, Z.of_nat (count_occ PieceType_eq_dec l t) = 2 * getT INITIAL_COUNTS t.

Definition isMetamorph (o : Occupant) : bool :=
  match o with Metamorph _ => true | _ => false end.

Definition fullStock : PerColor ChrysalisStock := mkPerColor INITIAL_COUNTS INITIAL_COUNTS.
Definition noCaptures : PerColor ChrysalisStock := mkPerColor zeroStock zeroStock.

(** [hit y t] is 1 when [y] is the type [t], for counting arguments. *)
Definition hit (y t : PieceType) : nat :=
  if PieceType_eq_dec y t then 1%nat else 0%nat.

(** *** Standard chess geometry, in the words of section 4.1

    These predicates do not follow the code: they say which destinations a
    piece has on a board, to be compared with [legalMovesForPiece]. *)

Definition knightOffset (df dr : Z) : Prop :=
  (Z.abs df = 1 /\ Z.abs dr = 2) \/ (Z.abs df = 2 /\ Z.abs dr = 1).

Definition adjacentOffset (df dr : Z) : Prop :=
  Z.abs df <= 1 /\ Z.abs dr <= 1 /\ (df <> 0 \/ dr <> 0).

Definition straightDir (df dr : Z) : Prop :=
  (Z.abs df = 1 /\ dr = 0) \/ (df = 0 /\ Z.abs dr = 1).

Definition diagonalDir (df dr : Z) : Prop :=
  Z.abs df = 1 /\ Z.abs dr = 1.

(** The square [(f, r)] is on the board and a piece of [color] may stop on
    it: it is empty or holds an opposing differentiated piece. *)
Definition mayStop (b : list Square) (color : Color) (f r : Z) : Prop :=
  inBounds f r = true /\
  exists o, occupantAt b f r = Some o /\ landable color o = true.

(** A single step by an offset satisfying [offset]; when [zoneOnly], the
    destination must lie in ranks 3-6. *)
Definition stepDest (offset : Z -> Z -> Prop) (zoneOnly : bool)
    (b : list Square) (color : Color) (f0 r0 : Z) (m : Coord) : Prop :=
  exists df dr,
    offset df dr /\ m = (f0 + df, r0 + dr) /\
    mayStop b color (fst m) (snd m) /\
    (zoneOnly = true -> inZone (snd m) = true).

(** A slide of [k] steps along a direction satisfying [dir]: the squares
    passed over are empty; when [zoneOnly], every square of the path, the
    destination included, lies in ranks 3-6. *)
Definition slideDest (dir : Z -> Z -> Prop) (zoneOnly : bool)
    (b : list Square) (color : Color) (f0 r0 : Z) (m : Coord) : Prop :=
  exists df dr k,
    dir df dr /\ 1 <= k /\ m = (f0 + k * df, r0 + k * dr) /\
    mayStop b color (fst m) (snd m) /\
    (forall j, 1 <= j < k -> occupantAt b (f0 + j * df) (r0 + j * dr) = Some Null) /\
    (zoneOnly = true -> forall j, 1 <= j <= k -> inZone (r0 + j * dr) = true).

(** A pawn: one step forward onto an empty square, or one step diagonally
    forward onto an opposing piece. *)
Definition pawnDest (b : list Square) (color : Color) (f0 r0 : Z) (m : Coord) : Prop :=
  inBounds (fst m) (snd m) = true /\ snd m = r0 + pawnDir color /\
  ((fst m = f0 /\ occupantAt b (fst m) (snd m) = Some Null) \/
   (Z.abs (fst m - f0) = 1 /\
    exists o, occupantAt b (fst m) (snd m) = Some o /\ enemyPiece color o = true)).

Definition geometryDest (zoneOnly : bool) (b : list Square) (color : Color)
    (type : PieceType) (f0 r0 : Z) (m : Coord) : Prop :=
  match type with
  | N => stepDest knightOffset zoneOnly b color f0 r0 m
  | K => stepDest adjacentOffset zoneOnly b color f0 r0 m
  | R => slideDest straightDir zoneOnly b color f0 r0 m
  | B => slideDest diagonalDir zoneOnly b color f0 r0 m
  | Q => slideDest (fun df dr => straightDir df dr \/ diagonalDir df dr) zoneOnly b color f0 r0 m
  | P => pawnDest b color f0 r0 m
  end.

(** The lookups [atCoord] and [hasId], read on the topology of a square. *)
Definition coordKey (f r : Z) (pl : SquareId * Z * Z) : bool :=
  (snd (fst pl) =? f) && (snd pl =? r).
Definition idKey (i : SquareId) (pl : SquareId * Z * Z) : bool :=
  String.eqb (fst (fst pl)) i.

(** ** Positions used as examples *)

(** The empty grid with the given occupants and blue symbols put on it. *)
Definition boardWith (occupants : list (SquareId * Occupant))
    (symbols : list (SquareId * PieceType)) : list Square :=
  let withSymbolAt i t b :=
    map (fun s => if hasId i s then withSymbol s (Some t) else s) b in
  fold_left (fun b '(i, o) => setOccupantAt i o b) occupants
    (fold_left (fun b '(i, t) => withSymbolAt i t b) symbols emptyBoard).

(** A game in progress on board [b], nothing captured, no message. *)
Definition gameOn (b : list Square) (toMove : Color) (n : Z)
    (st : PerColor ChrysalisStock) (kings : PerColor bool)
    (prot : PerColor (option Z)) : GameState :=
  mkGame b toMove n st noCaptures kings prot None None None None None
    (mkAi human black Medium) None.

(** A white pawn, not on loan, alone on a3. *)
Definition pawnOnA3 : GameState :=
  gameOn (boardWith [("a3", Piece white P 1 false None)] []) white 5
    fullStock (mkPerColor false false) (mkPerColor None None).

(** A white rook, not on loan, alone on a3. *)
Definition rookOnA3 : GameState :=
  gameOn (boardWith [("a3", Piece white R 1 false None)] []) white 5
    fullStock (mkPerColor false false) (mkPerColor None None).

(** *** Rejected moves, in the words of section 4.3 *)

(** The occupant that [apply(state, from, to)] would move. *)
Definition moverAt (gs : GameState) (fromId : SquareId) (o : Occupant) : Prop :=
  exists s, find (hasId fromId) (board gs) = Some s /\ occupant s = o.

(** The king of colour [tc] stands on the destination. *)
Definition kingAt (gs : GameState) (toId : SquareId) (tc : Color) : Prop :=
  exists t born loan ret,
    find (hasId toId) (board gs) = Some t /\ occupant t = Piece tc K born loan ret.

Definition gameOver (gs : GameState) : Prop := winner gs <> None.

Definition noOccupant (gs : GameState) (fromId : SquareId) : Prop :=
  moverAt gs fromId Null.

Definition outOfTurn (gs : GameState) (fromId : SquareId) : Prop :=
  exists o c, moverAt gs fromId o /\ color_of o = Some c /\ c <> turn gs.

Definition notLegal (gs : GameState) (fromId toId : SquareId) : Prop :=
  exists s legal,
    find (hasId fromId) (board gs) = Some s
    /\ legalMovesFor gs s = Some legal
    /\ forall t, find (hasId toId) (board gs) = Some t -> ~ In (file t, rank t) legal.

Definition kingWithoutOwnKing (gs : GameState) (fromId toId : SquareId) : Prop :=
  exists o c tc,
    moverAt gs fromId o /\ color_of o = Some c /\ kingAt gs toId tc
    /\ getC (kingOnBoard gs) c = false.

Definition kingProtected (gs : GameState) (toId : SquareId) : Prop :=
  exists tc, kingAt gs toId tc /\ getC (kingProtectedUntil gs) tc = Some (moveNumber gs).

(** The three cases the source answers with the state itself. *)
Definition silentCase (gs : GameState) (fromId : SquareId) : Prop :=
  gameOver gs \/ noOccupant gs fromId \/ outOfTurn gs fromId.

(** The six cases of section 4.3. *)
Definition rejected (gs : GameState) (fromId toId : SquareId) : Prop :=
  silentCase gs fromId \/ notLegal gs fromId toId
  \/ kingWithoutOwnKing gs fromId toId \/ kingProtected gs toId.

(** The fields named by the atomicity requirement, and the others a
    rejection leaves alone (all but [message]). *)
Definition untouched (gs gs' : GameState) : Prop :=
  board gs' = board gs /\ stock gs' = stock gs /\ quietus gs' = quietus gs
  /\ turn gs' = turn gs /\ moveNumber gs' = moveNumber gs
  /\ kingOnBoard gs' = kingOnBoard gs /\ promotion gs' = promotion gs
  /\ kingProtectedUntil gs' = kingProtectedUntil gs
  /\ winner gs' = winner gs /\ winReason gs' = winReason gs.

Definition refusalTexts : list string :=
  ["Illegal move.";
   "You cannot take the king without your own king on the board.";
   "That king is protected this turn."].

(** The outcome of a move that passed every test of lines 222-256. *)
Definition accepted (gs : GameState) (fromId toId : SquareId) (gs' : GameState) : Prop :=
  exists sFrom to c legal,
    winner gs = None
    /\ find (hasId fromId) (board gs) = Some sFrom
    /\ find (hasId toId) (board gs) = Some to
    /\ color_of (occupant sFrom) = Some c /\ c = turn gs
    /\ legalMovesFor gs sFrom = Some legal
    /\ existsb (sameCoord (file to) (rank to)) legal = true
    /\ kingCaptureRefusal gs c (occupant to) = None
    /\ applyMove gs fromId to c = Some gs'.

(** The fields no transformation or expiry touches. *)
Definition rulesOf (g : GameState) :=
  (turn g, moveNumber g, promotion g, winner g, winReason g, message g,
   quietus g, selected g, lastMove g, ai g).

(** *** Intermediate states of an accepted move *)

(** The state after lines 258-302: capture recorded, occupant moved and
    transformed on its landing square, promotion requested. *)
Definition landed (gs : GameState) (fromId : SquareId) (to : Square) (by_ : Color)
  : GameState :=
  markPromotion
    (landTransform
       (landLoan (moveOccupant (fst (recordCapture gs (occupant to))) fromId (id to) by_) to)
       to)
    to.

(** The state handed to [detectWin] (line 327). *)
Definition settled (gs : GameState) (fromId : SquareId) (to : Square) (by_ : Color)
  : GameState :=
  setMessage
    (setSelected
       (applyAutoTransforms (expireLoans (advanceTurn (landed gs fromId to by_))))
       None)
    None.

(** Line 328. *)
Definition withWin (g : GameState) (win : option (Color * string)) : GameState :=
  match win with
  | Some (w, reason) =>
      setMessage (setWinner g (Some w) (Some reason)) (Some (winnerMessage w reason))
  | None => g
  end.

(** *** Candidate moves, in the words of section 4.5 *)

(** A well-formed game: the 64-square board, and a pending promotion, if
    any, on a square of the grid. *)
Definition wfGame (gs : GameState) : Prop :=
  wfBoard (board gs)
  /\ forall sq c, promotion gs = Some (sq, c) -> validId sq.

(** [c] is a tentative move of [color]: a legal destination of one of its
    occupants, applied on the state with [color] to move, its promotion
    resolved, and carrying no message. *)
Definition isCandidate (gs : GameState) (color : Color) (c : Candidate) : Prop :=
  let base := setTurn gs color in
  exists sq ms m n n2,
    In sq (board base)
    /\ color_of (occupant sq) = Some color
    /\ legalMovesFor base sq = Some ms
    /\ In m ms
    /\ performMove base (id sq) (idFrom (fst m) (snd m)) = Some n
    /\ resolveForAi n color = Some n2
    /\ truthy (message n2) = false
    /\ c = mkCandidate (id sq) (idFrom (fst m) (snd m)) n2.

(** The move does not leave the mover's king attacked. *)
Definition isSafe (color : Color) (c : Candidate) : Prop :=
  kingInCheck (cand_next c) color = Some false.



(** What one tentative move from [fromId] to [m] contributes to the
    candidates. *)
Definition tried (base : GameState) (color : Color) (fromId : SquareId) (m : Coord)
    (c : Candidate) : Prop :=
  exists n n2,
    performMove base fromId (idFrom (fst m) (snd m)) = Some n
    /\ resolveForAi n color = Some n2
    /\ truthy (message n2) = false
    /\ c = mkCandidate fromId (idFrom (fst m) (snd m)) n2.

(** The position [pawnOnA3] declared won by black, with no message. *)
Definition wonWithoutMessage : GameState :=
  setWinner pawnOnA3 (Some black) (Some "king captured").

(** *** Applied moves, attacks and checkmate, in the words of section 4.4 *)

(** [apply(state, from, to)] returned [gs'] and the move was applied: the
    move number advanced. *)
Definition applied (gs : GameState) (fromId toId : SquareId) (gs' : GameState) : Prop :=
  performMove gs fromId toId = Some gs' /\ moveNumber gs' = moveNumber gs + 1.

(** Some differentiated piece of colour [c] has [(f, r)] as a legal
    destination. *)
Definition attackedBy (gs : GameState) (f r : Z) (c : Color) : Prop :=
  exists sq ms,
    In sq (board gs) /\ isPieceOf c (occupant sq) = true
    /\ legalMovesForPiece gs sq = Some ms /\ In (f, r) ms.

(** Every destination of the piece on [ksq] is attacked by [c]. *)
Definition noEscape (gs : GameState) (ksq : Square) (c : Color) : Prop :=
  forall ms m, legalMovesForPiece gs ksq = Some ms -> In m ms ->
    attackedBy gs (fst m) (snd m) c.

(** White takes the black king on e4 with the queen; the sweep that
    follows turns the black metamorph on a3, a square of symbol K, into a
    new black king, which the white rooks on a6 and b6 leave no square. *)
Definition kingTakenKingBorn : GameState :=
  gameOn
    (boardWith
       [("a3", Metamorph black); ("e4", Piece black K 1 false None);
        ("e5", Piece white Q 1 false None); ("a6", Piece white R 1 false None);
        ("b6", Piece white R 1 false None); ("h6", Piece white K 1 false None)]
       [("a3", K)])
    white 9 fullStock (mkPerColor true true) (mkPerColor None None).

(** White mates by bringing the rook from h5 to a5: the black king on a3
    is attacked on the file, and a4, b3 and b4 are covered by the rooks. *)
Definition mateInOne : GameState :=
  gameOn
    (boardWith
       [("a3", Piece black K 1 false None); ("b6", Piece white R 1 false None);
        ("h5", Piece white R 1 false None)]
       [])
    white 9 fullStock (mkPerColor false true) (mkPerColor None None).



(** White is about to step on e6, a square of symbol K, within reach of the
    black queen on e3. *)
Definition kingInTheMaking : GameState :=
  gameOn
    (boardWith
       [("e7", Metamorph white); ("h8", Metamorph white);
        ("e3", Piece black Q 1 false None); ("h3", Piece black K 1 false None);
        ("a2", Metamorph black)]
       [("e6", K)])
    white 7 (mkPerColor INITIAL_COUNTS (mkStock 0 0 2 2 2 8))
    (mkPerColor false true) (mkPerColor None None).

(** A run of moves, [None] as soon as one raises. *)
Fixpoint playMoves (gs : GameState) (moves : list (SquareId * SquareId))
  : option GameState :=
  match moves with
  | [] => Some gs
  | (a, b) :: rest => gs' <- performMove gs a b ;; playMoves gs' rest
  end.

(** *** Loans *)

(** A white queen on loan stands on a1 (rank 1), to be back by move
    number 6; the move number is 5 and black is to move: the state right
    after a white promotion resolved at move number 5. *)
Definition loanDue : GameState :=
  gameOn
    (boardWith
       [("a1", Piece white Q 5 true (Some 6)); ("h8", Metamorph white);
        ("h2", Metamorph black)]
       [])
    black 5 fullStock (mkPerColor false false) (mkPerColor None None).

(** The loan of a piece of colour [c] due by [n] has run out in [g], a
    state whose turn has just passed to the other colour. *)
Definition loanOver (g : GameState) (c : Color) (n : Z) : Prop :=
  c = other (turn g) /\ n <= moveNumber g.

(** [s1] stands where [s0] stood, and they satisfy [R]. *)
Definition sameFrame (R : Square -> Square -> Prop) (s0 s1 : Square) : Prop :=
  frame s1 = frame s0 /\ R s0 s1.

(** *** Stock conservation, in the words of sections 3 and 8 *)

(** The initial cap of a type: K1 Q1 R2 B2 N2 P8. *)
Definition cap (t : PieceType) : Z := getT INITIAL_COUNTS t.

Definition isLoanPiece (o : Occupant) : bool :=
  match o with Piece _ _ _ true _ => true | _ => false end.

(** 1 for a piece of colour [c] and type [t] that is not on loan, else 0. *)
Definition occCount (c : Color) (t : PieceType) (o : Occupant) : Z :=
  match o with
  | Piece c' t' _ false _ => if color_eqb c' c && type_eqb t' t then 1 else 0
  | _ => 0
  end.

(** Number of non-loan pieces of colour [c] and type [t] on the squares. *)
Fixpoint nonLoanCount (b : list Square) (c : Color) (t : PieceType) : Z :=
  match b with
  | [] => 0
  | s :: rest => occCount c t (occupant s) + nonLoanCount rest c t
  end.

(** [stock[c][t]] plus the non-loan pieces of that colour and type. *)
Definition holding (gs : GameState) (c : Color) (t : PieceType) : Z :=
  getCT (stock gs) c t + nonLoanCount (board gs) c t.

(** No piece of the squares is on loan. *)
Definition noLoans (b : list Square) : Prop :=
  Forall (fun s => isLoanPiece (occupant s) = false) b.


(** States reached from [g0] by moves alone (no promotion choice), captures
    included. *)
Inductive MoveRun (g0 : GameState) : GameState -> Prop :=
| moves_start : MoveRun g0 g0
| moves_step (g g' : GameState) (a b : SquareId) :
    MoveRun g0 g -> performMove g a b = Some g' -> MoveRun g0 g'.


(** States reached from [g0] by any moves and promotion choices. *)
Inductive Run (g0 : GameState) : GameState -> Prop :=
| run_start : Run g0 g0
| run_move (g g' : GameState) (a b : SquareId) :
    Run g0 g -> performMove g a b = Some g' -> Run g0 g'
| run_promote (g g' : GameState) (t : PieceType) :
    Run g0 g -> applyPromotionChoice g t = Some g' -> Run g0 g'.

(** *** Squares before and after a step *)

(** What the sweep run at move number [n0] may make of a square: nothing,
    or, inside ranks 3-6 on a blue symbol [n], a fresh piece of type [n]
    and of the occupant's colour, the occupant not being such a piece
    already. *)
Definition retyped (n0 : Z) (s0 s1 : Square) : Prop :=
  frame s1 = frame s0
  /\ (s1 = s0
      \/ (inZone (rank s0) = true
          /\ exists n c,
               blueSymbol s0 = Some n
               /\ color_of (occupant s0) = Some c
               /\ (forall born loan ret, occupant s0 <> Piece c n born loan ret)
               /\ occupant s1 = Piece c n n0 false None)).

(** *** The computer opponent, in the words of its levels *)

(** The value the [Hard] level gives to a state [s] reached by a move of
    [color]: [minimax(s, 1, -Infinity, Infinity, false, color)], which is
    the evaluation of [s] itself when the game is over or the opponent has
    no move, and otherwise the least evaluation among the states the
    opponent's moves lead to. *)
Definition replyValue (color : Color) (s : GameState) (w : Num) : Prop :=
  minimax 1 s NegInf PosInf false color = Some w
  /\ exists replies,
       generateMoves s (other color) = Some replies
       /\ ((winner s <> None \/ replies = []) ->
           exists v, evaluate s color = Some v /\ w = Fin v)
       /\ (winner s = None -> replies <> [] ->
           (exists r v, In r replies /\ evaluate (cand_next r) color = Some v /\ w = Fin v)
           /\ forall r, In r replies ->
                exists v, evaluate (cand_next r) color = Some v
                          /\ num_leb w (Fin v) = true).

(** *** More positions used as examples *)

(** A white pawn has just reached a1: its promotion is pending and black is
    to move. *)
Definition pawnHome : GameState :=
  setPromotion
    (gameOn (boardWith [("a1", Piece white P 3 false None); ("h2", Metamorph black)] [])
       black 6 fullStock (mkPerColor false false) (mkPerColor None None))
    (Some ("a1", white)).

(** The squares a2, a3 and a4 of [pawnOnA3], as the interface passes them to
    its handlers. *)
Definition squareA2 : Square := mkSquare "a2" 0 2 None Null.
Definition squareA3 : Square := mkSquare "a3" 0 3 None (Piece white P 1 false None).
Definition squareA4 : Square := mkSquare "a4" 0 4 None Null.

(** The position [kingTakenKingBorn] with the computer playing white, at
    the levels [Medium] and [Hard]. *)
Definition cpuMedium : GameState := setAi kingTakenKingBorn (mkAi cpu white Medium).
Definition cpuHard : GameState := setAi kingTakenKingBorn (mkAi cpu white Hard).

(** *** Kings and their flags *)

(** The kings of a game without loans are accounted for: for each colour,
    the king in the stock, the [k c] kings standing elsewhere and the
    [kings c] kings under consideration are at most one in all, and the flag
    [kingOnBoard] says whether that one is on the board. *)
Definition kingsAccounted (g : GameState) (k kings : Color -> Z) : Prop :=
  forall c,
    0 <= getCT (stock g) c K /\ 0 <= k c
    /\ getCT (stock g) c K + k c + kings c <= 1
    /\ (getC (kingOnBoard g) c = true <-> k c + kings c = 1).

(** *** The end of the game, in the words of its reasons *)



(** *** Minimax without a window *)

(** The values of the states a list of candidates leads to. *)
Fixpoint valuesOf (child : GameState -> option Num) (moves : list Candidate)
  : option (list Num) :=
  match moves with
  | [] => Some []
  | mv :: rest =>
      v <- child (cand_next mv) ;;
      vs <- valuesOf child rest ;;
      Some (v :: vs)
  end.

(** The value the search of lines 875-894 is after: the evaluation at depth
    0, when the game is over or when the side to play has no candidate;
    otherwise the greatest (for the maximizing side) or the least (for the
    other side) of the values of the candidates' states, one ply deeper. *)
Fixpoint plainMinimax (depth : nat) (state : GameState) (maximizing : bool)
    (maximizingColor : Color) : option Num :=
  match depth with
  | O => v <- evaluate state maximizingColor ;; Some (Fin v)
  | S depth' =>
      match winner state with
      | Some _ => v <- evaluate state maximizingColor ;; Some (Fin v)
      | None =>
          let side := if maximizing then maximizingColor else other maximizingColor in
          list <- generateMoves state side ;;
          match list with
          | [] => v <- evaluate state maximizingColor ;; Some (Fin v)
          | _ :: _ =>
              vs <- valuesOf (fun s => plainMinimax depth' s (negb maximizing) maximizingColor)
                      list ;;
              Some (if maximizing then fold_left num_max vs NegInf
                    else fold_left num_min vs PosInf)
          end
      end
  end.

(** Two numbers of the search have the same value. *)
Definition num_eqv (a b : Num) : Prop := num_leb a b = true /\ num_leb b a = true.

(** A value seen through the window [(alpha, beta)]: what is at most
    [alpha] reads [alpha], what is at least [beta] reads [beta]. *)
Definition clamp (alpha beta x : Num) : Num := num_max alpha (num_min beta x).

(** What a loop of the search needs of its recursive calls, [child], against
    the plain search, [ref]: the plain value exists, and within any
    non-empty window the call returns a number that reads the same through
    the window. *)
Definition agrees (child : GameState -> Num -> Num -> option Num)
    (ref : GameState -> option Num) (s : GameState) : Prop :=
  exists m, ref s = Some m
            /\ forall a b, num_leb b a = false ->
                 exists v, child s a b = Some v /\ num_eqv (clamp a b v) (clamp a b m).

Unset Implicit Arguments.

(** * Theorems *)

(** ** The initial position *)

Section Shuffle.

Lemma setNth_length {A} (i : nat) (x : A) (l : list A) :
  List.length (setNth i x l) = List.length l.
Proof.
  revert i; induction l as [|y l IH]; intros [|i]; simpl; auto.
Qed.

Lemma nth_error_setNth_same {A} (i : nat) (x y : A) (l : list A) :
  nth_error l i = Some y -> nth_error (setNth i x l) i = Some x.
Proof.
  revert i; induction l as [|z l IH]; intros [|i]; simpl; try discriminate; auto.
Qed.

Lemma nth_error_setNth_other {A} (i j : nat) (x : A) (l : list A) :
  i <> j -> nth_error (setNth i x l) j = nth_error l j.
Proof.
  revert i j; induction l as [|z l IH]; intros [|i] [|j] Hij; simpl; auto.
  congruence.
Qed.

Lemma count_setNth (i : nat) (x y t : PieceType) (l : list PieceType) :
  nth_error l i = Some y ->
  (count_occ PieceType_eq_dec (setNth i x l) t + hit y t
   = count_occ PieceType_eq_dec l t + hit x t)%nat.
Proof.
  unfold hit.
  revert i; induction l as [|z l IH]; intros [|i] H; simpl in *; try discriminate.
  - injection H as ->.
    destruct (PieceType_eq_dec x t), (PieceType_eq_dec y t); lia.
  - specialize (IH i H).
    destruct (PieceType_eq_dec z t); lia.
Qed.

Lemma swap_count (l : list PieceType) (i j : nat) (t : PieceType) :
  count_occ PieceType_eq_dec (swap l i j) t = count_occ PieceType_eq_dec l t.
Proof.
  unfold swap.
  destruct (nth_error l i) as [bi|] eqn:Hi; auto.
  destruct (nth_error l j) as [bj|] eqn:Hj; auto.
  pose proof (count_setNth i bj bi t l Hi) as H1.
  assert (Hj' : nth_error (setNth i bj l) j = Some bj).
  { destruct (Nat.eq_dec i j) as [->|Hne].
    - eapply nth_error_setNth_same; eauto.
    - rewrite nth_error_setNth_other; auto. }
  pose proof (count_setNth j bi bj t (setNth i bj l) Hj') as H2.
  lia.
Qed.

Lemma swap_length (l : list PieceType) (i j : nat) :
  List.length (swap l i j) = List.length l.
Proof.
  unfold swap.
  destruct (nth_error l i); auto. destruct (nth_error l j); auto.
  now rewrite !setNth_length.
Qed.

Variable rnd : nat -> Z.

Lemma shuffleFrom_count (i : nat) (l : list PieceType) (t : PieceType) :
  count_occ PieceType_eq_dec (shuffleFrom rnd i l) t = count_occ PieceType_eq_dec l t.
Proof.
  revert l; induction i as [|i IH]; intros l; simpl; auto.
  rewrite IH. apply swap_count.
Qed.

Lemma shuffleFrom_length (i : nat) (l : list PieceType) :
  List.length (shuffleFrom rnd i l) = List.length l.
Proof.
  revert l; induction i as [|i IH]; intros l; simpl; auto.
  rewrite IH. apply swap_length.
Qed.

Lemma shuffle_Permutation (l : list PieceType) : Permutation (shuffle rnd l) l.
Proof.
  apply (Permutation_count_occ PieceType_eq_dec). intro t.
  apply shuffleFrom_count.
Qed.

Lemma shuffle_length (l : list PieceType) :
  List.length (shuffle rnd l) = List.length l.
Proof. apply shuffleFrom_length. Qed.

End Shuffle.

Ltac list_of_length H :=
  repeat match type of H with
  | List.length ?l = S _ =>
      let x := fresh "x" in
      destruct l as [|x l]; [discriminate H|]; simpl in H; apply eq_add_S in H
  | List.length ?l = O => destruct l; [|discriminate H]
  end.

Lemma initialBag_twoArmies : twoArmies initialBag.
Proof. intros []; reflexivity. Qed.



(** Every draw of the shuffle gives the same board up to the order of the
    32 symbols: the board is computed for a bag [x0 .. x31] of unknowns. *)
Lemma createInitialBoard_shape (rnd : nat -> Z) :
  exists b,
    createInitialBoard rnd = Some b
    /\ map place b = map place emptyBoard
    /\ symbolsOf (onRanks 3 6 b) = shuffle rnd initialBag
    /\ map occupant (onRanks 1 2 b) = repeat (Metamorph black) 16
    /\ map occupant (onRanks 7 8 b) = repeat (Metamorph white) 16
    /\ map occupant (onRanks 3 6 b) = repeat Null 32
    /\ Forall (fun s => blueSymbol s <> None) (onRanks 3 6 b)
    /\ symbolsOf (onRanks 1 2 b) = []
    /\ symbolsOf (onRanks 7 8 b) = []
    /\ countOccupants isMetamorph b = 32.
Proof.
  unfold createInitialBoard.
  pose proof (shuffle_length rnd initialBag) as Hlen.
  remember (shuffle rnd initialBag) as bag eqn:Hbag. clear Hbag.
  change (List.length initialBag) with 32%nat in Hlen.
  list_of_length Hlen.
  eexists; split; [vm_compute; reflexivity|].
  repeat split; try (vm_compute; reflexivity).
  vm_compute; repeat (constructor; [discriminate|]); constructor.
Qed.

(** C9. [newGame()] (that is, [initialGame()]) always succeeds, whatever the
    shuffle draws, and yields: the 64-square topology; exactly 32 metamorphs,
    16 black ones filling ranks 1-2 and 16 white ones filling ranks 7-8;
    ranks 3-6 empty, each of their 32 squares carrying a blue symbol, the
    symbols being a permutation of the bag holding two full copies of
    K1 Q1 R2 B2 N2 P8; no blue symbol on the other ranks; white to move,
    move number 1, full stock and empty quietus for both colours. *)
Theorem newGame_setup (rnd : nat -> Z) :
  exists gs,
    initialGame rnd = Some gs
    /\ wfBoard (board gs)
    /\ countOccupants isMetamorph (board gs) = 32
    /\ map occupant (onRanks 1 2 (board gs)) = repeat (Metamorph black) 16
    /\ map occupant (onRanks 7 8 (board gs)) = repeat (Metamorph white) 16
    /\ map occupant (onRanks 3 6 (board gs)) = repeat Null 32
    /\ Forall (fun s => blueSymbol s <> None) (onRanks 3 6 (board gs))
    /\ Permutation (symbolsOf (onRanks 3 6 (board gs))) initialBag
    /\ twoArmies (symbolsOf (onRanks 3 6 (board gs)))
    /\ symbolsOf (onRanks 1 2 (board gs)) = []
    /\ symbolsOf (onRanks 7 8 (board gs)) = []
    /\ turn gs = white
    /\ moveNumber gs = 1
    /\ stock gs = fullStock
    /\ quietus gs = noCaptures.
Proof.
  destruct (createInitialBoard_shape rnd)
    as (b & Hb & Hpl & Hsym & H12 & H78 & H36 & Hall & Hs12 & Hs78 & Hcnt).
  unfold initialGame. rewrite Hb.
  eexists; split; [reflexivity|]. simpl.
  repeat split; auto.
  - rewrite Hsym. apply shuffle_Permutation.
  - intro t. rewrite Hsym.
    rewrite (proj1 (Permutation_count_occ PieceType_eq_dec _ _)
               (shuffle_Permutation rnd initialBag) t).
    apply initialBag_twoArmies.
Qed.


(** ** Lookups on a well-formed board *)

Lemma inBounds_iff (f r : Z) :
  inBounds f r = true <-> 0 <= f < 8 /\ 1 <= r <= 8.
Proof. unfold inBounds. rewrite !andb_true_iff. lia. Qed.

Lemma inZone_iff (r : Z) : inZone r = true <-> 3 <= r <= 6.
Proof. unfold inZone. rewrite andb_true_iff. lia. Qed.

Ltac each_square f r H :=
  apply inBounds_iff in H;
  let Hf := fresh in let Hr := fresh in
  assert (Hf : f = 0 \/ f = 1 \/ f = 2 \/ f = 3 \/ f = 4 \/ f = 5 \/ f = 6 \/ f = 7) by lia;
  assert (Hr : r = 1 \/ r = 2 \/ r = 3 \/ r = 4 \/ r = 5 \/ r = 6 \/ r = 7 \/ r = 8) by lia;
  clear H;
  destruct Hf as [->|[->|[->|[->|[->|[->|[->| ->]]]]]]];
  destruct Hr as [->|[->|[->|[->|[->|[->|[->| ->]]]]]]].

Lemma find_ext {A} (p q : A -> bool) (l : list A) :
  (forall x, In x l -> p x = q x) -> find p l = find q l.
Proof.
  induction l as [|x l IH]; intros H; simpl; auto.
  rewrite (H x (or_introl eq_refl)).
  destruct (q x); auto. apply IH. intros y Hy. apply H. now right.
Qed.

Lemma find_place (q : SquareId * Z * Z -> bool) (b : list Square) :
  option_map place (find (fun s => q (place s)) b) = find q (map place b).
Proof.
  induction b as [|s b IH]; simpl; auto.
  destruct (q (place s)); auto.
Qed.

Lemma grid_coord (f r : Z) :
  inBounds f r = true ->
  find (coordKey f r) (map place emptyBoard) = Some (idFrom f r, f, r).
Proof. intro H. each_square f r H; reflexivity. Qed.

Lemma grid_keys_agree (f r : Z) :
  inBounds f r = true ->
  forallb (fun pl => Bool.eqb (idKey (idFrom f r) pl) (coordKey f r pl))
    (map place emptyBoard) = true.
Proof. intro H. each_square f r H; vm_compute; reflexivity. Qed.

Lemma grid_places :
  forallb (fun pl => inBounds (snd (fst pl)) (snd pl)
                     && String.eqb (idFrom (snd (fst pl)) (snd pl)) (fst (fst pl)))
    (map place emptyBoard) = true.
Proof. vm_compute; reflexivity. Qed.

Section WellFormed.

Variable b : list Square.
Hypothesis Hwf : wfBoard b.

Lemma wf_place (s : Square) :
  In s b -> inBounds (file s) (rank s) = true /\ idFrom (file s) (rank s) = id s.
Proof.
  intro Hin.
  assert (Hp : In (place s) (map place emptyBoard)).
  { rewrite <- Hwf. now apply in_map. }
  pose proof grid_places as H. rewrite forallb_forall in H.
  specialize (H _ Hp). simpl in H.
  apply andb_true_iff in H as [H1 H2]. apply String.eqb_eq in H2. auto.
Qed.

Lemma find_coord_wf (f r : Z) :
  inBounds f r = true ->
  exists s, find (atCoord f r) b = Some s /\ In s b
            /\ file s = f /\ rank s = r /\ id s = idFrom f r.
Proof.
  intro H.
  pose proof (find_place (coordKey f r) b) as E.
  rewrite Hwf, (grid_coord f r H) in E.
  change (fun s => coordKey f r (place s)) with (atCoord f r) in E.
  destruct (find (atCoord f r) b) as [s|] eqn:Hs; [|discriminate].
  exists s. simpl in E. injection E as E1 E2 E3.
  repeat split; auto. eapply find_some; eauto.
Qed.

Lemma find_id_coord (f r : Z) :
  inBounds f r = true -> find (hasId (idFrom f r)) b = find (atCoord f r) b.
Proof.
  intro H. apply find_ext. intros s Hs.
  pose proof (grid_keys_agree f r H) as A. rewrite forallb_forall in A.
  assert (Hp : In (place s) (map place emptyBoard)).
  { rewrite <- Hwf. now apply in_map. }
  specialize (A _ Hp). apply Bool.eqb_prop in A. exact A.
Qed.

Lemma find_id_wf (i : SquareId) :
  validId i ->
  exists s, find (hasId i) b = Some s /\ In s b /\ id s = i
            /\ inBounds (file s) (rank s) = true.
Proof.
  intro Hv. unfold validId in Hv.
  assert (Hex : exists s, In s b /\ id s = i).
  { assert (Hm : In i (map (fun pl => fst (fst pl)) (map place b))).
    { rewrite Hwf, map_map. exact Hv. }
    rewrite map_map in Hm. apply in_map_iff in Hm as (s & Hs & Hin). eauto. }
  destruct Hex as (s0 & Hin0 & Hid0).
  destruct (find (hasId i) b) as [s|] eqn:Hs.
  - exists s. pose proof (find_some _ _ Hs) as [Hin Hid].
    apply String.eqb_eq in Hid.
    repeat split; auto. now apply wf_place.
  - exfalso. pose proof (find_none _ _ Hs _ Hin0) as Hn.
    unfold hasId in Hn. rewrite Hid0, String.eqb_refl in Hn. discriminate.
Qed.

Lemma wf_validId (s : Square) : In s b -> validId (id s).
Proof.
  intro Hin. unfold validId.
  change (map id emptyBoard) with (map (fun pl => fst (fst pl)) (map place emptyBoard)).
  rewrite <- Hwf, map_map. now apply (in_map (fun x => fst (fst (place x)))).
Qed.

Lemma occupantAt_wf (f r : Z) :
  inBounds f r = true -> exists o, occupantAt b f r = Some o.
Proof.
  intro H. destruct (find_coord_wf f r H) as (s & Hs & _).
  unfold occupantAt. rewrite Hs. eauto.
Qed.

End WellFormed.

Lemma validId_idFrom (f r : Z) : inBounds f r = true -> validId (idFrom f r).
Proof. intro H. unfold validId. each_square f r H; vm_compute; tauto. Qed.


(** ** Move generation against chess geometry *)

Lemma landable_not_null (color : Color) (o : Occupant) :
  o <> Null -> landable color o = enemyPiece color o.
Proof. destruct o; simpl; congruence. Qed.

Lemma enemyPiece_landable (color : Color) (o : Occupant) :
  enemyPiece color o = true -> landable color o = true.
Proof. destruct o; simpl; congruence. Qed.

(** The fuel of [rayLoop] is never the reason why a ray stops. *)
Lemma rayLoop_more_fuel (b : list Square) (color : Color) (limit : bool)
    (df dr : Z) (n extra : nat) :
  forall nf nr moves,
    (forall k, Z.of_nat n <= k -> inBounds (nf + k * df) (nr + k * dr) = false) ->
    rayLoop (n + extra) b color limit df dr nf nr moves
    = rayLoop n b color limit df dr nf nr moves.
Proof.
  induction n as [|n IH]; intros nf nr moves Hout.
  - specialize (Hout 0 ltac:(simpl; lia)).
    replace (nf + 0 * df) with nf in Hout by lia.
    replace (nr + 0 * dr) with nr in Hout by lia.
    destruct extra; simpl; auto. now rewrite Hout.
  - simpl. destruct (inBounds nf nr); auto.
    destruct (limit && negb (inZone nr)); auto.
    destruct (occupantAt b nf nr) as [[| |]|]; auto.
    apply IH. intros k Hk.
    replace (nf + df + k * df) with (nf + (k + 1) * df) by lia.
    replace (nr + dr + k * dr) with (nr + (k + 1) * dr) by lia.
    apply Hout. lia.
Qed.

Lemma queenDirs_cases (df dr : Z) :
  In (df, dr) queenDirs <-> straightDir df dr \/ diagonalDir df dr.
Proof.
  unfold queenDirs, straightDir, diagonalDir; simpl. split.
  - intros H; repeat (destruct H as [H|H]; [injection H as <- <-; lia|]); tauto.
  - intros H.
    assert (Hc : (df = 1 \/ df = 0 \/ df = -1) /\ (dr = 1 \/ dr = 0 \/ dr = -1)) by lia.
    destruct Hc as [[->|[->| ->]] [->|[->| ->]]]; try lia; tauto.
Qed.

Lemma rookDirs_cases (df dr : Z) : In (df, dr) rookDirs <-> straightDir df dr.
Proof.
  unfold rookDirs, straightDir; simpl. split.
  - intros H; repeat (destruct H as [H|H]; [injection H as <- <-; lia|]); tauto.
  - intros H.
    assert (Hc : (df = 1 \/ df = 0 \/ df = -1) /\ (dr = 1 \/ dr = 0 \/ dr = -1)) by lia.
    destruct Hc as [[->|[->| ->]] [->|[->| ->]]]; try lia; tauto.
Qed.

Lemma bishopDirs_cases (df dr : Z) : In (df, dr) bishopDirs <-> diagonalDir df dr.
Proof.
  unfold bishopDirs, diagonalDir; simpl. split.
  - intros H; repeat (destruct H as [H|H]; [injection H as <- <-; lia|]); tauto.
  - intros H.
    assert (Hc : (df = 1 \/ df = -1) /\ (dr = 1 \/ dr = -1)) by lia.
    destruct Hc as [[->| ->] [->| ->]]; tauto.
Qed.

Lemma knightDeltas_cases (df dr : Z) : In (df, dr) knightDeltas <-> knightOffset df dr.
Proof.
  unfold knightDeltas, knightOffset; simpl. split.
  - intros H; repeat (destruct H as [H|H]; [injection H as <- <-; lia|]); tauto.
  - intros H.
    assert (Hc : (df = 1 \/ df = -1 \/ df = 2 \/ df = -2)
                 /\ (dr = 1 \/ dr = -1 \/ dr = 2 \/ dr = -2)) by lia.
    destruct Hc as [[->|[->|[->| ->]]] [->|[->|[->| ->]]]]; try lia; tauto.
Qed.

Lemma kingDeltas_cases (df dr : Z) : In (df, dr) kingDeltas <-> adjacentOffset df dr.
Proof.
  unfold kingDeltas, adjacentOffset; simpl. split.
  - intros H; repeat (destruct H as [H|H]; [injection H as <- <-; lia|]); tauto.
  - intros H.
    assert (Hc : (df = 1 \/ df = 0 \/ df = -1) /\ (dr = 1 \/ dr = 0 \/ dr = -1)) by lia.
    destruct Hc as [[->|[->| ->]] [->|[->| ->]]]; try lia; tauto.
Qed.

Section Generation.

Variable b : list Square.
Hypothesis Hwf : wfBoard b.
Variable color : Color.
Variable limit : bool.

Lemma canLand_spec (nf nr : Z) :
  exists v, canLand b color limit nf nr = Some v
    /\ (v = true <-> mayStop b color nf nr /\ (limit = true -> inZone nr = true)).
Proof.
  unfold canLand, mayStop.
  destruct (inBounds nf nr) eqn:Hb; simpl.
  2:{ exists false. split; auto. split; [discriminate|]. intros [[H _] _]. discriminate. }
  destruct (limit && negb (inZone nr)) eqn:Hz.
  - exists false. split; auto. split; [discriminate|].
    intros [_ H]. apply andb_true_iff in Hz as [-> Hz].
    rewrite H in Hz by auto. discriminate.
  - destruct (occupantAt_wf b Hwf nf nr Hb) as [o Ho]. rewrite Ho.
    exists (landable color o). split; auto. split.
    + intro Hl. split; [split; eauto|].
      intros ->. simpl in Hz. now destruct (inZone nr).
    + intros [[_ (o' & Ho' & Hl)] _]. congruence.
Qed.

Lemma pushSteps_spec (f0 r0 : Z) (deltas : list (Z * Z)) :
  forall acc, exists res,
    pushSteps b color limit f0 r0 deltas acc = Some res
    /\ forall m, In m res <->
         In m acc \/
         exists df dr, In (df, dr) deltas /\ m = (f0 + df, r0 + dr)
           /\ mayStop b color (fst m) (snd m)
           /\ (limit = true -> inZone (snd m) = true).
Proof.
  induction deltas as [|[df dr] rest IH]; intros acc; simpl.
  - exists acc. split; auto. intro m. split; auto.
    intros [H|(df & dr & [] & _)]; auto.
  - destruct (canLand_spec (f0 + df) (r0 + dr)) as (v & Hv & Hspec). rewrite Hv.
    destruct (IH (if v then acc ++ [(f0 + df, r0 + dr)] else acc)) as (res & Hres & Hin).
    exists res. split; auto. intro m. rewrite Hin. split.
    + intros [H|(df' & dr' & Hd & Hm & Hs)].
      * destruct v; auto. apply in_app_iff in H as [H|[<-|[]]]; auto.
        right. exists df, dr. simpl. destruct Hspec as [Hspec _].
        destruct (Hspec eq_refl). auto.
      * right. exists df', dr'. auto.
    + intros [H|(df' & dr' & [Hd|Hd] & Hm & Hs & Hz)].
      * left. destruct v; auto. apply in_app_iff; auto.
      * injection Hd as <- <-. left. subst m. simpl in *.
        assert (v = true) as -> by (apply Hspec; auto).
        apply in_app_iff. right. now left.
      * right. exists df', dr'. auto.
Qed.

Lemma rayLoop_spec (df dr : Z) (fuel : nat) :
  forall nf nr acc, exists res,
    rayLoop fuel b color limit df dr nf nr acc = Some res
    /\ forall m, In m res <->
         In m acc \/
         exists k, 0 <= k < Z.of_nat fuel /\ m = (nf + k * df, nr + k * dr)
           /\ mayStop b color (fst m) (snd m)
           /\ (forall j, 0 <= j < k ->
                 inBounds (nf + j * df) (nr + j * dr) = true
                 /\ occupantAt b (nf + j * df) (nr + j * dr) = Some Null)
           /\ (limit = true -> forall j, 0 <= j <= k -> inZone (nr + j * dr) = true).
Proof.
  induction fuel as [|fuel IH]; intros nf nr acc.
  - exists acc. split; auto. intro m. split; auto.
    intros [H|(k & Hk & _)]; auto. simpl in Hk; lia.
  - cbn [rayLoop].
    assert (E0f : nf + 0 * df = nf) by lia.
    assert (E0r : nr + 0 * dr = nr) by lia.
    destruct (inBounds nf nr) eqn:Hb.
    2:{ exists acc. split; auto. intro m. split; auto.
        intros [H|(k & Hk & Hm & [Hmb _] & Hpath & _)]; auto. exfalso.
        destruct (Z.eq_dec k 0) as [->|Hne].
        - subst m. cbn [fst snd] in Hmb. rewrite E0f, E0r in Hmb. congruence.
        - destruct (Hpath 0 ltac:(lia)) as [H0 _]. rewrite E0f, E0r in H0. congruence. }
    destruct (limit && negb (inZone nr)) eqn:Hz.
    { exists acc. split; auto. intro m. split; auto.
      intros [H|(k & Hk & Hm & _ & _ & Hzone)]; auto. exfalso.
      apply andb_true_iff in Hz as [-> Hz].
      specialize (Hzone eq_refl 0 ltac:(lia)). rewrite E0r in Hzone.
      rewrite Hzone in Hz. discriminate. }
    assert (Hzone0 : limit = true -> inZone nr = true).
    { intros ->. simpl in Hz. now destruct (inZone nr). }
    destruct (occupantAt_wf b Hwf nf nr Hb) as [o Ho]. rewrite Ho.
    destruct (IH (nf + df) (nr + dr) (acc ++ [(nf, nr)])) as (res & Hres & Hin).
    assert (Hshift : forall k, nf + df + k * df = nf + (k + 1) * df
                               /\ nr + dr + k * dr = nr + (k + 1) * dr) by (intro; lia).
    destruct o as [|c|c t born loan ret].
    + (* empty square: pushed, and the ray goes on *)
      exists res. split; auto. intro m. rewrite Hin. split.
      * intros [H|(k & Hk & Hm & Hs & Hpath & Hzone)].
        -- apply in_app_iff in H as [H|[<-|[]]]; auto.
           right. exists 0. rewrite E0f, E0r. cbn [fst snd].
           split; [lia|]. split; [reflexivity|].
           split; [split; [auto|exists Null; auto]|].
           split; [intros j Hj; lia|].
           intros Hl j Hj. replace j with 0 by lia. rewrite E0r. auto.
        -- right. exists (k + 1).
           destruct (Hshift k) as [Ef Er]. rewrite Ef, Er in Hm.
           split; [lia|]. split; [exact Hm|]. split; [exact Hs|].
           split.
           ++ intros j Hj.
              destruct (Z.eq_dec j 0) as [->|Hne]; [now rewrite E0f, E0r|].
              destruct (Hshift (j - 1)) as [Ef' Er'].
              replace (j - 1 + 1) with j in * by lia.
              rewrite <- Ef', <- Er'. apply Hpath. lia.
           ++ intros Hl j Hj.
              destruct (Z.eq_dec j 0) as [->|Hne]; [rewrite E0r; auto|].
              destruct (Hshift (j - 1)) as [_ Er'].
              replace (j - 1 + 1) with j in * by lia.
              rewrite <- Er'. apply Hzone; auto. lia.
      * intros [H|(k & Hk & Hm & Hs & Hpath & Hzone)].
        -- left. apply in_app_iff; auto.
        -- destruct (Z.eq_dec k 0) as [->|Hne].
           ++ left. apply in_app_iff. right. left. subst m. now rewrite E0f, E0r.
           ++ right. exists (k - 1).
              destruct (Hshift (k - 1)) as [Ef Er].
              replace (k - 1 + 1) with k in * by lia.
              rewrite Ef, Er.
              split; [lia|]. split; [exact Hm|]. split; [exact Hs|].
              split.
              ** intros j Hj. destruct (Hshift j) as [Ef' Er']. rewrite Ef', Er'.
                 apply Hpath. lia.
              ** intros Hl j Hj. destruct (Hshift j) as [_ Er']. rewrite Er'.
                 apply Hzone; auto. lia.
    + (* a metamorph blocks the ray *)
      exists acc. split; auto. intro m. split; auto.
      intros [H|(k & Hk & Hm & [_ (o & Ho' & Hl)] & Hpath & _)]; auto. exfalso.
      destruct (Z.eq_dec k 0) as [->|Hne].
      * subst m. cbn [fst snd] in Ho'. rewrite E0f, E0r in Ho'.
        rewrite Ho in Ho'. injection Ho' as <-. discriminate.
      * destruct (Hpath 0 ltac:(lia)) as [_ H0]. rewrite E0f, E0r in H0. congruence.
    + (* a piece: captured if it is an opposing one, and the ray stops *)
      eexists. split; [reflexivity|]. intro m. split.
      * intro H. destruct (enemyPiece color (Piece c t born loan ret)) eqn:He; auto.
        apply in_app_iff in H as [H|[<-|[]]]; auto.
        right. exists 0. rewrite E0f, E0r. cbn [fst snd].
        split; [lia|]. split; [reflexivity|].
        split; [split; [auto|eexists; split; [eauto|now apply enemyPiece_landable]]|].
        split; [intros j Hj; lia|].
        intros Hl j Hj. replace j with 0 by lia. rewrite E0r. auto.
      * intros [H|(k & Hk & Hm & [_ (o & Ho' & Hl)] & Hpath & _)].
        -- destruct (enemyPiece _ _); auto. apply in_app_iff; auto.
        -- destruct (Z.eq_dec k 0) as [->|Hne].
           ++ subst m. cbn [fst snd] in Ho'. rewrite E0f, E0r in Ho'.
              rewrite Ho in Ho'. injection Ho' as <-.
              rewrite landable_not_null in Hl by discriminate.
              rewrite Hl. apply in_app_iff. right. left. now rewrite E0f, E0r.
           ++ destruct (Hpath 0 ltac:(lia)) as [_ H0]. rewrite E0f, E0r in H0. congruence.
Qed.

End Generation.


Section Slides.

Variable b : list Square.
Hypothesis Hwf : wfBoard b.
Variable color : Color.
Variable limit : bool.
Variables f0 r0 : Z.
Hypothesis Hfrom : inBounds f0 r0 = true.

(** A ray started next to an origin on the board, read as a slide from
    the origin. *)
Lemma ray_as_slide (df dr : Z) (m : Coord) :
  In (df, dr) queenDirs ->
  (exists k, 0 <= k < Z.of_nat 8 /\ m = (f0 + df + k * df, r0 + dr + k * dr)
     /\ mayStop b color (fst m) (snd m)
     /\ (forall j, 0 <= j < k ->
           inBounds (f0 + df + j * df) (r0 + dr + j * dr) = true
           /\ occupantAt b (f0 + df + j * df) (r0 + dr + j * dr) = Some Null)
     /\ (limit = true -> forall j, 0 <= j <= k -> inZone (r0 + dr + j * dr) = true))
  <->
  (exists k, 1 <= k /\ m = (f0 + k * df, r0 + k * dr)
     /\ mayStop b color (fst m) (snd m)
     /\ (forall j, 1 <= j < k -> occupantAt b (f0 + j * df) (r0 + j * dr) = Some Null)
     /\ (limit = true -> forall j, 1 <= j <= k -> inZone (r0 + j * dr) = true)).
Proof.
  intro Hd.
  assert (Hshift : forall k, f0 + df + k * df = f0 + (k + 1) * df
                             /\ r0 + dr + k * dr = r0 + (k + 1) * dr) by (intro; lia).
  split.
  - intros (k & Hk & Hm & Hs & Hpath & Hzone).
    exists (k + 1). destruct (Hshift k) as [Ef Er]. rewrite Ef, Er in Hm.
    split; [lia|]. split; [exact Hm|]. split; [exact Hs|]. split.
    + intros j Hj. destruct (Hshift (j - 1)) as [Ef' Er'].
      replace (j - 1 + 1) with j in * by lia.
      rewrite <- Ef', <- Er'. apply Hpath. lia.
    + intros Hl j Hj. destruct (Hshift (j - 1)) as [_ Er'].
      replace (j - 1 + 1) with j in * by lia.
      rewrite <- Er'. apply Hzone; auto. lia.
  - intros (k & Hk & Hm & Hs & Hpath & Hzone).
    exists (k - 1). destruct (Hshift (k - 1)) as [Ef Er].
    replace (k - 1 + 1) with k in * by lia. rewrite Ef, Er.
    pose proof Hs as [Hmb _]. subst m. cbn [fst snd] in Hmb.
    apply inBounds_iff in Hmb. pose proof Hfrom as Hfb. apply inBounds_iff in Hfb.
    assert (Hk8 : k < 8 /\ forall j, 1 <= j < k -> inBounds (f0 + j * df) (r0 + j * dr) = true).
    { unfold queenDirs in Hd. simpl in Hd.
      repeat (destruct Hd as [Hd|Hd];
              [injection Hd as <- <-; split; [lia|intros j Hj; apply inBounds_iff; lia]|]).
      destruct Hd. }
    destruct Hk8 as [Hk8 Hmid].
    split; [simpl; lia|]. split; [reflexivity|]. split; [exact Hs|]. split.
    + intros j Hj. destruct (Hshift j) as [Ef' Er']. rewrite Ef', Er'.
      split; [apply Hmid; lia|apply Hpath; lia].
    + intros Hl j Hj. destruct (Hshift j) as [_ Er']. rewrite Er'.
      apply Hzone; auto. lia.
Qed.

Lemma pushRays_spec (dirs : list (Z * Z)) :
  (forall d, In d dirs -> In d queenDirs) ->
  forall acc, exists res,
    pushRays b color limit f0 r0 dirs acc = Some res
    /\ forall m, In m res <->
         In m acc \/
         exists df dr k, In (df, dr) dirs /\ 1 <= k /\ m = (f0 + k * df, r0 + k * dr)
           /\ mayStop b color (fst m) (snd m)
           /\ (forall j, 1 <= j < k ->
                 occupantAt b (f0 + j * df) (r0 + j * dr) = Some Null)
           /\ (limit = true -> forall j, 1 <= j <= k -> inZone (r0 + j * dr) = true).
Proof.
  induction dirs as [|[df dr] rest IH]; intros Hq acc; cbn [pushRays].
  - exists acc. split; auto. intro m. split; auto.
    intros [H|(df & dr & k & [] & _)]; auto.
  - destruct (rayLoop_spec b Hwf color limit df dr 8 (f0 + df) (r0 + dr) acc)
      as (res1 & Hres1 & Hin1).
    rewrite Hres1.
    destruct (IH (fun d Hd => Hq d (or_intror Hd)) res1) as (res & Hres & Hin).
    exists res. split; auto. intro m. rewrite Hin, Hin1.
    rewrite (ray_as_slide df dr m (Hq _ (or_introl eq_refl))).
    split.
    + intros [[H|(k & H)]|(df' & dr' & k & Hd & H)]; auto.
      * right. exists df, dr, k. split; [now left|tauto].
      * right. exists df', dr', k. split; [now right|tauto].
    + intros [H|(df' & dr' & k & [Hd|Hd] & H)]; auto.
      * injection Hd as <- <-. left. right. exists k. tauto.
      * right. exists df', dr', k. tauto.
Qed.

Lemma pawnCaptures_spec (dfs : list Z) :
  forall acc, exists res,
    pawnCaptures b color f0 r0 dfs acc = Some res
    /\ forall m, In m res <->
         In m acc \/
         exists df, In df dfs /\ m = (f0 + df, r0 + pawnDir color)
           /\ inBounds (fst m) (snd m) = true
           /\ exists o, occupantAt b (fst m) (snd m) = Some o
                        /\ enemyPiece color o = true.
Proof.
  induction dfs as [|df rest IH]; intros acc; cbn [pawnCaptures].
  - exists acc. split; auto. intro m. split; auto.
    intros [H|(df & [] & _)]; auto.
  - destruct (inBounds (f0 + df) (r0 + pawnDir color)) eqn:Hb; cbn [negb].
    + destruct (occupantAt_wf b Hwf _ _ Hb) as [o Ho]. rewrite Ho.
      destruct (IH (if enemyPiece color o
                    then acc ++ [(f0 + df, r0 + pawnDir color)] else acc))
        as (res & Hres & Hin).
      exists res. split; auto. intro m. rewrite Hin. split.
      * intros [H|(df' & Hd & H)].
        -- destruct (enemyPiece color o) eqn:He; auto.
           apply in_app_iff in H as [H|[<-|[]]]; auto.
           right. exists df. cbn [fst snd]. split; [now left|]. eauto.
        -- right. exists df'. split; [now right|auto].
      * intros [H|(df' & [Hd|Hd] & Hm & Hmb & o' & Ho' & He)].
        -- left. destruct (enemyPiece color o); auto. apply in_app_iff; auto.
        -- subst df' m. cbn [fst snd] in *. left.
           rewrite Ho in Ho'. injection Ho' as <-. rewrite He.
           apply in_app_iff. right. now left.
        -- right. exists df'. split; [exact Hd|]. split; [exact Hm|]. split; [exact Hmb|].
           exists o'. auto.
    + destruct (IH acc) as (res & Hres & Hin).
      exists res. split; auto. intro m. rewrite Hin. split.
      * intros [H|(df' & Hd & H)]; auto.
        right. exists df'. split; [now right|auto].
      * intros [H|(df' & [Hd|Hd] & Hm & Hmb & H)]; auto.
        -- subst df' m. cbn [fst snd] in Hmb. congruence.
        -- right. exists df'. auto.
Qed.

Lemma pawnMoves_spec :
  exists ms, pawnMoves b color f0 r0 = Some ms
    /\ forall m, In m ms <-> pawnDest b color f0 r0 m.
Proof.
  unfold pawnMoves, pawnDest.
  set (r1 := r0 + pawnDir color).
  assert (Hfront : exists front,
    (if inBounds f0 r1 then
       front0 <- find (atCoord f0 r1) b ;;
       Some (match occupant front0 with Null => [(f0, r1)] | _ => [] end)
     else Some []) = Some front
    /\ forall m, In m front <->
         (inBounds f0 r1 = true /\ m = (f0, r1) /\ occupantAt b f0 r1 = Some Null)).
  { destruct (inBounds f0 r1) eqn:Hb.
    - destruct (find_coord_wf b Hwf f0 r1 Hb) as (s & Hs & _).
      unfold occupantAt. rewrite Hs.
      destruct (occupant s) eqn:Ho; eexists; (split; [reflexivity|]); intro m; simpl;
        split; try tauto; try (intros (_ & _ & H); discriminate).
      + intros [<-|[]]. auto.
      + intros (_ & -> & _). auto.
    - exists []. split; auto. intro m. simpl. split; [tauto|]. intros (H & _). discriminate. }
  destruct Hfront as (front & Hfr & Hf). rewrite Hfr.
  destruct (pawnCaptures_spec [-1; 1] front) as (res & Hres & Hin).
  exists res. split; auto. intros [mf mr]. rewrite Hin, Hf. cbn [fst snd]. split.
  - intros [(Hb & Hm & Ho)|(df & Hd & Hm & Hb & Ho)].
    + injection Hm as -> ->. auto.
    + injection Hm as -> ->. cbn [fst snd] in *.
      split; auto. split; auto. right. split; auto.
      simpl in Hd. lia.
  - intros (Hb & -> & [[-> Ho]|[Ha Ho]]); auto.
    right. exists (mf - f0). replace (f0 + (mf - f0)) with mf by lia.
    cbn [fst snd]. split; [simpl; lia|auto].
Qed.

End Slides.


Lemma sub_queenDirs_rook : forall d, In d rookDirs -> In d queenDirs.
Proof. intros d H; simpl in *; tauto. Qed.

Lemma sub_queenDirs_bishop : forall d, In d bishopDirs -> In d queenDirs.
Proof. intros d H; simpl in *; tauto. Qed.

(** [legalMovesForPiece] never raises on a well-formed board, and generates
    exactly the destinations of chess geometry, restricted to ranks 3-6 for
    every piece but a pawn unless the piece is on loan. *)
Lemma legalMovesForPiece_spec (gs : GameState) (from : Square)
    (color : Color) (type : PieceType) (born : Z) (loan : bool) (ret : option Z) :
  wfBoard (board gs) ->
  inBounds (file from) (rank from) = true ->
  occupant from = Piece color type born loan ret ->
  exists ms, legalMovesForPiece gs from = Some ms
    /\ forall m, In m ms <->
         geometryDest (negb loan) (board gs) color type (file from) (rank from) m.
Proof.
  intros Hwf Hb Ho. unfold legalMovesForPiece. rewrite Ho.
  destruct type; cbn [geometryDest].
  - (* K *)
    destruct (pushSteps_spec (board gs) Hwf color (negb loan) (file from) (rank from)
                kingDeltas []) as (ms & Hms & Hin).
    exists ms. split; auto. intro m. rewrite Hin. unfold stepDest. split.
    + intros [[]|(df & dr & Hd & H)]. exists df, dr. rewrite <- kingDeltas_cases. tauto.
    + intros (df & dr & Hd & H). right. exists df, dr. rewrite kingDeltas_cases. tauto.
  - (* Q *)
    destruct (pushRays_spec (board gs) Hwf color (negb loan) (file from) (rank from) Hb
                queenDirs (fun d H => H) []) as (ms & Hms & Hin).
    exists ms. split; auto. intro m. rewrite Hin. unfold slideDest. split.
    + intros [[]|(df & dr & k & Hd & H)]. exists df, dr, k.
      rewrite <- queenDirs_cases. tauto.
    + intros (df & dr & k & Hd & H). right. exists df, dr, k.
      rewrite queenDirs_cases. tauto.
  - (* R *)
    destruct (pushRays_spec (board gs) Hwf color (negb loan) (file from) (rank from) Hb
                rookDirs sub_queenDirs_rook []) as (ms & Hms & Hin).
    exists ms. split; auto. intro m. rewrite Hin. unfold slideDest. split.
    + intros [[]|(df & dr & k & Hd & H)]. exists df, dr, k.
      rewrite <- rookDirs_cases. tauto.
    + intros (df & dr & k & Hd & H). right. exists df, dr, k.
      rewrite rookDirs_cases. tauto.
  - (* B *)
    destruct (pushRays_spec (board gs) Hwf color (negb loan) (file from) (rank from) Hb
                bishopDirs sub_queenDirs_bishop []) as (ms & Hms & Hin).
    exists ms. split; auto. intro m. rewrite Hin. unfold slideDest. split.
    + intros [[]|(df & dr & k & Hd & H)]. exists df, dr, k.
      rewrite <- bishopDirs_cases. tauto.
    + intros (df & dr & k & Hd & H). right. exists df, dr, k.
      rewrite bishopDirs_cases. tauto.
  - (* N *)
    destruct (pushSteps_spec (board gs) Hwf color (negb loan) (file from) (rank from)
                knightDeltas []) as (ms & Hms & Hin).
    exists ms. split; auto. intro m. rewrite Hin. unfold stepDest. split.
    + intros [[]|(df & dr & Hd & H)]. exists df, dr. rewrite <- knightDeltas_cases. tauto.
    + intros (df & dr & Hd & H). right. exists df, dr. rewrite knightDeltas_cases. tauto.
  - (* P *)
    apply pawnMoves_spec; auto.
Qed.

Lemma geometryDest_inBounds (z : bool) (b : list Square) (color : Color)
    (type : PieceType) (f0 r0 : Z) (m : Coord) :
  geometryDest z b color type f0 r0 m -> inBounds (fst m) (snd m) = true.
Proof.
  destruct type; cbn [geometryDest]; unfold stepDest, slideDest, pawnDest, mayStop.
  all: try (intros (df & dr & k & _ & _ & _ & [H _] & _); exact H).
  all: try (intros (df & dr & _ & _ & [H _] & _); exact H).
  intros [H _]; exact H.
Qed.

Lemma geometryDest_zone (b : list Square) (color : Color)
    (type : PieceType) (f0 r0 : Z) (m : Coord) :
  type <> P -> geometryDest true b color type f0 r0 m -> inZone (snd m) = true.
Proof.
  intro Hp.
  destruct type; cbn [geometryDest]; unfold stepDest, slideDest; try congruence.
  all: try (intros (df & dr & k & _ & Hk & -> & _ & _ & H); cbn [snd]; apply H; auto; lia).
  all: intros (df & dr & _ & _ & _ & H); auto.
Qed.

(** C2 (amended).  On a well-formed board, for a differentiated piece
    standing on the board:
    - if it is not on loan and is not a pawn, every generated destination
      lies in ranks 3-6;
    - if it is a pawn, on loan or not, the generated destinations are exactly
      the pawn's forward step and diagonal captures, with no test of the
      zone;
    - if it is on loan, the generated destinations are exactly those of
      standard chess geometry, with no rank 3-6 restriction. *)
Theorem zone_restriction (gs : GameState) (from : Square)
    (color : Color) (type : PieceType) (born : Z) (loan : bool) (ret : option Z) :
  wfBoard (board gs) ->
  inBounds (file from) (rank from) = true ->
  occupant from = Piece color type born loan ret ->
  exists ms, legalMovesForPiece gs from = Some ms
    /\ (loan = false -> type <> P -> forall m, In m ms -> inZone (snd m) = true)
    /\ (type = P ->
        forall m, In m ms <-> pawnDest (board gs) color (file from) (rank from) m)
    /\ (loan = true ->
        forall m, In m ms <->
          geometryDest false (board gs) color type (file from) (rank from) m).
Proof.
  intros Hwf Hb Ho.
  destruct (legalMovesForPiece_spec gs from color type born loan ret Hwf Hb Ho)
    as (ms & Hms & Hin).
  exists ms. split; auto. split; [|split].
  - intros -> Hp m Hm. apply Hin in Hm. eapply geometryDest_zone; eauto.
  - intros -> m. apply Hin.
  - intros -> m. apply Hin.
Qed.

Lemma zone_restriction_witness :
  exists ms,
    legalMovesForPiece pawnOnA3
      (mkSquare "a3" 0 3 None (Piece white P 1 false None)) = Some ms
    /\ (false = false -> P <> P -> forall m, In m ms -> inZone (snd m) = true)
    /\ (P = P -> forall m, In m ms <-> pawnDest (board pawnOnA3) white 0 3 m)
    /\ (false = true ->
        forall m, In m ms <-> geometryDest false (board pawnOnA3) white P 0 3 m).
Proof.
  apply (zone_restriction pawnOnA3
           (mkSquare "a3" 0 3 None (Piece white P 1 false None))
           white P 1 false None); reflexivity.
Defined.

(** C2 as stated fails for pawns: the white pawn on a3, not on loan, has
    a2 (rank 2) as a legal destination. *)
Lemma zone_restriction_counterexample :
  wfBoard (board pawnOnA3)
  /\ find (hasId "a3") (board pawnOnA3)
     = Some (mkSquare "a3" 0 3 None (Piece white P 1 false None))
  /\ legalMovesForPiece pawnOnA3
       (mkSquare "a3" 0 3 None (Piece white P 1 false None)) = Some [(0, 2)]
  /\ inZone 2 = false.
Proof. repeat split. Qed.


(** ** Validation of a move *)

Lemma color_eqb_eq (a b : Color) : color_eqb a b = true <-> a = b.
Proof. destruct a, b; simpl; split; congruence. Qed.

Lemma color_eqb_neq (a b : Color) : color_eqb a b = false <-> a <> b.
Proof. destruct a, b; simpl; split; congruence. Qed.

Lemma color_eqb_refl (a : Color) : color_eqb a a = true.
Proof. now destruct a. Qed.

Lemma type_eqb_eq (a b : PieceType) : type_eqb a b = true <-> a = b.
Proof. destruct a, b; simpl; split; congruence. Qed.

Lemma type_eqb_neq (a b : PieceType) : type_eqb a b = false <-> a <> b.
Proof. destruct a, b; simpl; split; congruence. Qed.

Lemma other_neq (c : Color) : other c <> c.
Proof. destruct c; discriminate. Qed.

Lemma sameCoord_In (f r : Z) (ms : list Coord) :
  existsb (sameCoord f r) ms = true <-> In (f, r) ms.
Proof.
  rewrite existsb_exists. unfold sameCoord. split.
  - intros ([mf mr] & Hin & H). simpl in H.
    apply andb_true_iff in H as [H1 H2].
    apply Z.eqb_eq in H1, H2. now subst.
  - intro H. exists (f, r). simpl. now rewrite !Z.eqb_refl.
Qed.

Lemma legalMovesForMetamorph_total (gs : GameState) (from : Square) :
  wfBoard (board gs) -> occupant from <> Null ->
  exists ms, legalMovesForMetamorph gs from = Some ms
    /\ forall m, In m ms -> inBounds (fst m) (snd m) = true.
Proof.
  intros Hwf Ho. unfold legalMovesForMetamorph.
  destruct (color_of (occupant from)) as [c|] eqn:Hc.
  2:{ destruct (occupant from); simpl in Hc; congruence. }
  destruct (inBounds (file from) (rank from + pawnDir c)) eqn:Hb; simpl.
  - destruct (find_coord_wf (board gs) Hwf _ _ Hb) as (s & Hs & _). rewrite Hs.
    eexists; split; [reflexivity|]. intros m Hm.
    destruct (occupant s); simpl in Hm; try tauto.
    destruct Hm as [<-|[]]. exact Hb.
  - exists []. split; [reflexivity|intros m []].
Qed.

Lemma legalMovesFor_total (gs : GameState) (from : Square) :
  wfBoard (board gs) -> inBounds (file from) (rank from) = true ->
  occupant from <> Null ->
  exists ms, legalMovesFor gs from = Some ms
    /\ forall m, In m ms -> inBounds (fst m) (snd m) = true.
Proof.
  intros Hwf Hb Ho. unfold legalMovesFor.
  destruct (occupant from) as [|c|c t born loan ret] eqn:Hocc; [congruence| |].
  - apply legalMovesForMetamorph_total; auto. congruence.
  - destruct (legalMovesForPiece_spec gs from c t born loan ret Hwf Hb Hocc)
      as (ms & Hms & Hin).
    exists ms. split; auto. intros m Hm. apply Hin in Hm.
    eapply geometryDest_inBounds; eauto.
Qed.

Lemma legalMovesForPiece_total (gs : GameState) (from : Square) :
  wfBoard (board gs) -> inBounds (file from) (rank from) = true ->
  occupant from <> Null ->
  exists ms, legalMovesForPiece gs from = Some ms
    /\ forall m, In m ms -> inBounds (fst m) (snd m) = true.
Proof.
  intros Hwf Hb Ho.
  destruct (occupant from) as [|c|c t born loan ret] eqn:Hocc; [congruence| |].
  - unfold legalMovesForPiece. rewrite Hocc. exists []. split; [reflexivity|intros m []].
  - destruct (legalMovesForPiece_spec gs from c t born loan ret Hwf Hb Hocc)
      as (ms & Hms & Hin).
    exists ms. split; auto. intros m Hm. apply Hin in Hm.
    eapply geometryDest_inBounds; eauto.
Qed.

Lemma kingCaptureRefusal_texts (gs : GameState) (c : Color) (o : Occupant) (msg : string) :
  kingCaptureRefusal gs c o = Some msg -> In msg refusalTexts.
Proof.
  unfold kingCaptureRefusal, refusalTexts.
  destruct o as [| |tc [] born loan ret]; try discriminate.
  destruct (negb (getC (kingOnBoard gs) c)).
  - intros [= <-]. simpl; auto.
  - destruct (getC (kingProtectedUntil gs) tc); try discriminate.
    destruct (moveNumber gs =? z); try discriminate.
    intros [= <-]. simpl; auto.
Qed.

(** Every result of [performMove] is the state itself, the state with one
    of the three refusal texts, or the outcome of an accepted move. *)
Lemma performMove_cases (gs : GameState) (fromId toId : SquareId) (gs' : GameState) :
  performMove gs fromId toId = Some gs' ->
  (gs' = gs /\ silentCase gs fromId)
  \/ (exists msg, In msg refusalTexts /\ gs' = setMessage gs (Some msg)
                  /\ winner gs = None)
  \/ accepted gs fromId toId gs'.
Proof.
  unfold performMove.
  destruct (winner gs) as [w|] eqn:Hw.
  { intros [= <-]. left. split; auto. left. unfold gameOver. congruence. }
  destruct (find (hasId fromId) (board gs)) as [sFrom|] eqn:Hfrom; [|discriminate].
  destruct (color_of (occupant sFrom)) as [c|] eqn:Hc.
  2:{ intros [= <-]. left. split; auto. right. left. exists sFrom. split; auto.
      destruct (occupant sFrom); simpl in Hc; congruence. }
  destruct (color_eqb c (turn gs)) eqn:Hturn; simpl.
  2:{ intros [= <-]. left. split; auto. right. right.
      exists (occupant sFrom), c. split; [exists sFrom; auto|].
      split; auto. now apply color_eqb_neq. }
  apply color_eqb_eq in Hturn.
  destruct (legalMovesFor gs sFrom) as [legal|] eqn:Hlegal; [|discriminate].
  destruct (isLegalDestination legal (find (hasId toId) (board gs))) as [isLegal|] eqn:Hil;
    [|discriminate].
  destruct isLegal; simpl.
  2:{ intros [= <-]. right. left. exists "Illegal move.". simpl. auto. }
  destruct (find (hasId toId) (board gs)) as [to|] eqn:Hto.
  2:{ destruct legal; discriminate. }
  destruct (kingCaptureRefusal gs c (occupant to)) as [msg|] eqn:Hk.
  { intros [= <-]. right. left. exists msg. split; auto.
    eapply kingCaptureRefusal_texts; eauto. }
  intro Happ. right. right. exists sFrom, to, c, legal.
  repeat split; auto.
  destruct legal; simpl in Hil; [discriminate|]. now injection Hil.
Qed.

Lemma refusalTexts_nonempty (msg : string) : In msg refusalTexts -> msg <> "".
Proof. simpl. intros [<-|[<-|[<-|[]]]]; discriminate. Qed.

Lemma untouched_refl (gs : GameState) : untouched gs gs.
Proof. unfold untouched. tauto. Qed.

Lemma untouched_setMessage (gs : GameState) (m : option string) :
  untouched gs (setMessage gs m).
Proof. unfold untouched. simpl. tauto. Qed.

(** C1 (amended).  On a well-formed board and for square identifiers of the
    grid, in each of the six cases of section 4.3 [performMove] returns a
    state (it does not raise) whose board, stock, quietus, turn, move
    number, king flags, protection windows, promotion and winner are those
    of the input.  When the game is over, when there is nothing to move, or
    when the mover is out of turn, the result is the input itself, message
    included: no message is attached.  In the three other cases the result
    is the input with one of the three refusal texts as its message. *)
Theorem soft_failures (gs : GameState) (fromId toId : SquareId) :
  wfBoard (board gs) -> validId fromId -> validId toId ->
  rejected gs fromId toId ->
  exists gs',
    performMove gs fromId toId = Some gs'
    /\ untouched gs gs'
    /\ (silentCase gs fromId -> gs' = gs)
    /\ (~ silentCase gs fromId ->
        exists msg, gs' = setMessage gs (Some msg) /\ In msg refusalTexts /\ msg <> "").
Proof.
  intros Hwf Hva Hvb Hrej.
  destruct (find_id_wf (board gs) Hwf fromId Hva) as (sFrom & Hfrom & HinF & _ & HbF).
  destruct (find_id_wf (board gs) Hwf toId Hvb) as (to & Hto & _).
  unfold performMove.
  destruct (winner gs) as [w|] eqn:Hw.
  { exists gs. split; auto. split; [apply untouched_refl|]. split; auto.
    intros Hn. exfalso. apply Hn. left. unfold gameOver. congruence. }
  rewrite Hfrom.
  destruct (color_of (occupant sFrom)) as [c|] eqn:Hc.
  2:{ exists gs. split; auto. split; [apply untouched_refl|]. split; auto.
      intros Hn. exfalso. apply Hn. right. left. exists sFrom. split; auto.
      destruct (occupant sFrom); simpl in Hc; congruence. }
  destruct (color_eqb c (turn gs)) eqn:Hturn; simpl.
  2:{ exists gs. split; auto. split; [apply untouched_refl|]. split; auto.
      intros Hn. exfalso. apply Hn. right. right.
      exists (occupant sFrom), c. split; [exists sFrom; auto|].
      split; auto. now apply color_eqb_neq. }
  apply color_eqb_eq in Hturn.
  assert (Hnot : ~ silentCase gs fromId).
  { intros [Hg|[(s & Hs & Ho)|(o & c' & (s & Hs & Ho) & Hc' & Hne)]].
    - apply Hg. exact Hw.
    - rewrite Hfrom in Hs. injection Hs as <-. rewrite Ho in Hc. discriminate.
    - rewrite Hfrom in Hs. injection Hs as <-. rewrite Ho in Hc. congruence. }
  assert (Hocc : occupant sFrom <> Null).
  { intro E. rewrite E in Hc. discriminate. }
  destruct (legalMovesFor_total gs sFrom Hwf HbF Hocc) as (legal & Hlegal & _).
  rewrite Hlegal, Hto.
  assert (Hil : isLegalDestination legal (Some to)
                = Some (existsb (sameCoord (file to) (rank to)) legal)).
  { destruct legal; reflexivity. }
  rewrite Hil.
  destruct (existsb (sameCoord (file to) (rank to)) legal) eqn:Hex; simpl.
  2:{ eexists. split; [reflexivity|]. split; [apply untouched_setMessage|].
      split; [tauto|]. intros _. eexists. split; [reflexivity|].
      split; [simpl; auto|discriminate]. }
  destruct (kingCaptureRefusal gs c (occupant to)) as [msg|] eqn:Hk.
  { eexists. split; [reflexivity|]. split; [apply untouched_setMessage|].
    split; [tauto|]. intros _. exists msg. split; auto.
    pose proof (kingCaptureRefusal_texts _ _ _ _ Hk) as Ht.
    split; auto. now apply refusalTexts_nonempty. }
  (* an accepted move contradicts each of the six cases *)
  exfalso. destruct Hrej as [Hs|[Hn|[Hk1|Hk2]]].
  - auto.
  - destruct Hn as (s & legal' & Hs & Hl' & Hno).
    rewrite Hfrom in Hs. injection Hs as <-. rewrite Hlegal in Hl'. injection Hl' as <-.
    apply (Hno to Hto). now apply sameCoord_In.
  - destruct Hk1 as (o & c' & tc & (s & Hs & Ho) & Hc' & (t & born & loan & ret & Ht & Hot) & Hking).
    rewrite Hfrom in Hs. injection Hs as <-. rewrite Hto in Ht. injection Ht as <-.
    rewrite Ho in Hc. rewrite Hc in Hc'. injection Hc' as <-.
    unfold kingCaptureRefusal in Hk. rewrite Hot, Hking in Hk. discriminate.
  - destruct Hk2 as (tc & (t & born & loan & ret & Ht & Hot) & Hprot).
    rewrite Hto in Ht. injection Ht as <-.
    unfold kingCaptureRefusal in Hk. rewrite Hot, Hprot, Z.eqb_refl in Hk.
    destruct (negb (getC (kingOnBoard gs) c)); discriminate.
Qed.

(** C1 as stated fails on the message: moving from the empty square a4
    returns the input itself, whose message is still absent. *)
Lemma soft_failures_counterexample :
  noOccupant pawnOnA3 "a4"
  /\ ~ (exists gs' msg,
          performMove pawnOnA3 "a4" "a5" = Some gs' /\ message gs' = Some msg).
Proof.
  split.
  - eexists. split; [vm_compute; reflexivity|reflexivity].
  - intros (gs' & msg & H & Hm).
    change (performMove pawnOnA3 "a4" "a5") with (Some pawnOnA3) in H.
    injection H as <-. discriminate Hm.
Qed.

Lemma soft_failures_witness :
  exists gs',
    performMove pawnOnA3 "a3" "a5" = Some gs'
    /\ untouched pawnOnA3 gs'
    /\ (silentCase pawnOnA3 "a3" -> gs' = pawnOnA3)
    /\ (~ silentCase pawnOnA3 "a3" ->
        exists msg, gs' = setMessage pawnOnA3 (Some msg)
                    /\ In msg refusalTexts /\ msg <> "").
Proof.
  apply (soft_failures pawnOnA3 "a3" "a5").
  - reflexivity.
  - vm_compute; tauto.
  - vm_compute; tauto.
  - right. left. eexists. eexists.
    split; [vm_compute; reflexivity|].
    split; [vm_compute; reflexivity|].
    intros t Ht. vm_compute in Ht. injection Ht as <-. simpl.
    intros [H|[]]. discriminate.
Defined.


(** ** The phases of an accepted move *)

Lemma frame_place (b b' : list Square) :
  map frame b' = map frame b -> map place b' = map place b.
Proof.
  intro H.
  assert (E : forall l, map place l = map (fun x => (fst (fst (fst x)), snd (fst (fst x)), snd (fst x))) (map frame l)).
  { intro l. rewrite map_map. reflexivity. }
  now rewrite !E, H.
Qed.

Lemma frame_wf (b b' : list Square) :
  map frame b' = map frame b -> wfBoard b -> wfBoard b'.
Proof. intros H Hwf. unfold wfBoard. now rewrite (frame_place _ _ H). Qed.

Lemma setOccupantAt_frame (i : SquareId) (o : Occupant) (b : list Square) :
  map frame (setOccupantAt i o b) = map frame b.
Proof.
  induction b as [|s b IH]; simpl; auto.
  destruct (hasId i s); simpl; auto. now rewrite IH.
Qed.

Lemma find_hasId_set (i j : SquareId) (o : Occupant) (b : list Square) :
  find (hasId j) (setOccupantAt i o b)
  = if String.eqb i j then option_map (fun s => withOccupant s o) (find (hasId j) b)
    else find (hasId j) b.
Proof.
  induction b as [|s b IH]; cbn [setOccupantAt find].
  - now destruct (String.eqb i j).
  - unfold hasId in *.
    destruct (String.eqb (id s) i) eqn:Hi, (String.eqb (id s) j) eqn:Hj,
             (String.eqb i j) eqn:Hij;
      cbn [find id withOccupant option_map]; rewrite ?Hj, ?IH, ?Hij; auto;
      exfalso;
      rewrite ?String.eqb_eq, ?String.eqb_neq in *; congruence.
Qed.

Lemma occupantOf_set_same (i : SquareId) (o : Occupant) (b : list Square) (s : Square) :
  find (hasId i) b = Some s -> occupantOf (setOccupantAt i o b) i = o.
Proof.
  intro H. unfold occupantOf. rewrite find_hasId_set, String.eqb_refl, H. reflexivity.
Qed.

Lemma occupantOf_set_other (i j : SquareId) (o : Occupant) (b : list Square) :
  i <> j -> occupantOf (setOccupantAt i o b) j = occupantOf b j.
Proof.
  intro H. unfold occupantOf. rewrite find_hasId_set.
  apply String.eqb_neq in H. now rewrite H.
Qed.

Lemma find_hasId_id (i : SquareId) (b : list Square) (s : Square) :
  find (hasId i) b = Some s -> id s = i.
Proof. intro H. apply find_some in H as [_ H]. now apply String.eqb_eq in H. Qed.

(** *** The transformation of one occupant *)

Lemma transformOccupant_rules (g : GameState) (p : Z) (n : PieceType) (o : Occupant) :
  rulesOf (fst (transformOccupant g p n o)) = rulesOf g
  /\ board (fst (transformOccupant g p n o)) = board g.
Proof.
  unfold transformOccupant.
  destruct o as [|c|c t born loan ret]; simpl; auto.
  - destruct (getCT (stock g) c n >? 0); simpl; auto.
    destruct (type_eqb n K); simpl; auto.
  - destruct (negb (type_eqb t n) && (getCT (stock g) c n >? 0)); simpl; auto.
    destruct (type_eqb t K && negb (type_eqb n K)), (type_eqb n K); simpl; auto.
Qed.

Lemma transformOccupant_color (g : GameState) (p : Z) (n : PieceType) (o : Occupant) :
  color_of (snd (transformOccupant g p n o)) = color_of o.
Proof.
  unfold transformOccupant.
  destruct o as [|c|c t born loan ret]; simpl; auto.
  - destruct (getCT (stock g) c n >? 0); simpl; auto.
  - destruct (negb (type_eqb t n) && (getCT (stock g) c n >? 0)); simpl; auto.
Qed.

Lemma transformSquare_rules (g : GameState) (sq : Square) :
  rulesOf (fst (transformSquare g sq)) = rulesOf g
  /\ frame (snd (transformSquare g sq)) = frame sq.
Proof.
  unfold transformSquare.
  destruct (negb (inZone (rank sq))); simpl; auto.
  destruct (blueSymbol sq) as [n|]; simpl; auto.
  pose proof (transformOccupant_rules g (moveNumber g) n (occupant sq)) as [H _].
  destruct (transformOccupant g (moveNumber g) n (occupant sq)) as [g' o']. simpl in *.
  auto.
Qed.

Lemma sweepSquares_rules (sqs : list Square) :
  forall g, rulesOf (fst (sweepSquares g sqs)) = rulesOf g
            /\ map frame (snd (sweepSquares g sqs)) = map frame sqs.
Proof.
  induction sqs as [|sq rest IH]; intro g; simpl; auto.
  pose proof (transformSquare_rules g sq) as [H1 H2].
  destruct (transformSquare g sq) as [g1 sq']. simpl in *.
  destruct (IH g1) as [H3 H4].
  destruct (sweepSquares g1 rest) as [g2 rest']. simpl in *.
  split; [congruence|]. now rewrite H2, H4.
Qed.

Lemma applyAutoTransforms_rules (g : GameState) :
  rulesOf (applyAutoTransforms g) = rulesOf g
  /\ map frame (board (applyAutoTransforms g)) = map frame (board g).
Proof.
  unfold applyAutoTransforms, deepClone.
  destruct (sweepSquares_rules (board g) g) as [H1 H2].
  destruct (sweepSquares g (board g)) as [g' b']. simpl in *. auto.
Qed.

(** *** Expiry of loans *)

Lemma expireSquare_rules (g : GameState) (sq : Square) :
  rulesOf (fst (expireSquare g sq)) = rulesOf g
  /\ stock (fst (expireSquare g sq)) = stock g
  /\ kingProtectedUntil (fst (expireSquare g sq)) = kingProtectedUntil g
  /\ frame (snd (expireSquare g sq)) = frame sq.
Proof.
  unfold expireSquare.
  destruct (occupant sq) as [|c|c t born [|] [ret|]]; simpl; auto.
  destruct (color_eqb c (other (turn g)) && (moveNumber g >=? ret)); simpl; auto.
  destruct (negb (inZone (rank sq))); simpl; auto.
  destruct (type_eqb t K); simpl; auto.
Qed.

Lemma expireSquares_rules (sqs : list Square) :
  forall g, rulesOf (fst (expireSquares g sqs)) = rulesOf g
            /\ stock (fst (expireSquares g sqs)) = stock g
            /\ kingProtectedUntil (fst (expireSquares g sqs)) = kingProtectedUntil g
            /\ map frame (snd (expireSquares g sqs)) = map frame sqs.
Proof.
  induction sqs as [|sq rest IH]; intro g; simpl; auto.
  pose proof (expireSquare_rules g sq) as (H1 & H2 & H3 & H4).
  destruct (expireSquare g sq) as [g1 sq']. simpl in *.
  destruct (IH g1) as (H5 & H6 & H7 & H8).
  destruct (expireSquares g1 rest) as [g2 rest']. simpl in *.
  repeat split; congruence.
Qed.

Lemma expireLoans_rules (g : GameState) :
  rulesOf (expireLoans g) = rulesOf g
  /\ stock (expireLoans g) = stock g
  /\ kingProtectedUntil (expireLoans g) = kingProtectedUntil g
  /\ map frame (board (expireLoans g)) = map frame (board g).
Proof.
  unfold expireLoans.
  destruct (expireSquares_rules (board g) g) as (H1 & H2 & H3 & H4).
  destruct (expireSquares g (board g)) as [g' b']. simpl in *. auto.
Qed.

(** *** The landing square *)

Lemma recordCapture_fields (g : GameState) (target : Occupant) :
  let g' := fst (recordCapture g target) in
  board g' = board g /\ turn g' = turn g /\ moveNumber g' = moveNumber g
  /\ promotion g' = promotion g /\ winner g' = winner g /\ stock g' = stock g
  /\ kingProtectedUntil g' = kingProtectedUntil g.
Proof.
  unfold recordCapture. destruct target as [| |tc t born loan ret]; simpl; auto 10.
  destruct (type_eqb t K); simpl; auto 10.
Qed.

Lemma landLoan_fields (g : GameState) (to : Square) :
  let g' := landLoan g to in
  map frame (board g') = map frame (board g)
  /\ rulesOf g' = rulesOf g /\ stock g' = stock g
  /\ kingOnBoard g' = kingOnBoard g
  /\ kingProtectedUntil g' = kingProtectedUntil g.
Proof.
  unfold landLoan.
  destruct (occupantOf (board g) (id to)) as [|c|c t born [|] ret]; simpl; auto.
  destruct (inZone (rank to)); simpl; auto.
  rewrite setOccupantAt_frame. auto.
Qed.

Lemma landTransform_fields (g : GameState) (to : Square) :
  let g' := landTransform g to in
  map frame (board g') = map frame (board g) /\ rulesOf g' = rulesOf g.
Proof.
  unfold landTransform.
  destruct (blueSymbol to) as [n|]; simpl; auto.
  destruct (inZone (rank to)); simpl; auto.
  pose proof (transformOccupant_rules g (moveNumber g + 1) n (occupantOf (board g) (id to)))
    as [H1 H2].
  destruct (transformOccupant g (moveNumber g + 1) n (occupantOf (board g) (id to)))
    as [g' o']. simpl in *.
  rewrite setOccupantAt_frame, H2. auto.
Qed.

Lemma markPromotion_fields (g : GameState) (to : Square) :
  let g' := markPromotion g to in
  board g' = board g /\ turn g' = turn g /\ moveNumber g' = moveNumber g
  /\ winner g' = winner g /\ stock g' = stock g /\ quietus g' = quietus g
  /\ kingOnBoard g' = kingOnBoard g
  /\ kingProtectedUntil g' = kingProtectedUntil g
  /\ (promotion g' = promotion g
      \/ exists c born loan ret,
           occupantOf (board g) (id to) = Piece c P born loan ret
           /\ promotion g' = Some (id to, c)).
Proof.
  unfold markPromotion.
  destruct (occupantOf (board g) (id to)) as [|c|c [] born loan ret]; simpl; auto 10.
  destruct ((color_eqb c white && (rank to =? 1)) || (color_eqb c black && (rank to =? 8)));
    simpl; auto 10.
  repeat split; auto. right. exists c, born, loan, ret. auto.
Qed.


(** ** No exception on a well-formed board *)

Section Totality.

Variable gs : GameState.
Hypothesis Hwf : wfBoard (board gs).

Lemma piece_moves_total (sq : Square) :
  In sq (board gs) -> occupant sq <> Null ->
  exists ms, legalMovesForPiece gs sq = Some ms
    /\ forall m, In m ms -> inBounds (fst m) (snd m) = true.
Proof.
  intros Hin Ho. apply legalMovesForPiece_total; auto.
  now apply (wf_place (board gs) Hwf).
Qed.

Lemma isPieceOf_not_null (c : Color) (o : Occupant) : isPieceOf c o = true -> o <> Null.
Proof. destruct o; simpl; congruence. Qed.

Lemma attackedFrom_total (f r : Z) (c : Color) (sqs : list Square) :
  incl sqs (board gs) -> exists v, attackedFrom gs f r c sqs = Some v.
Proof.
  induction sqs as [|sq rest IH]; intro Hincl; simpl; eauto.
  assert (Hrest : incl rest (board gs)) by (intros x Hx; apply Hincl; now right).
  destruct (isPieceOf c (occupant sq)) eqn:Hp; auto.
  destruct (piece_moves_total sq (Hincl _ (or_introl eq_refl))
              (isPieceOf_not_null _ _ Hp)) as (ms & -> & _).
  destruct (existsb (sameCoord f r) ms); eauto.
Qed.

Lemma isSquareAttacked_total (f r : Z) (c : Color) :
  exists v, isSquareAttacked gs f r c = Some v.
Proof. apply attackedFrom_total. apply incl_refl. Qed.

Lemma safeMoves_total (c : Color) (ms : list Coord) :
  exists v, safeMoves gs c ms = Some v.
Proof.
  induction ms as [|m rest [v IH]]; simpl; eauto.
  destruct (isSquareAttacked_total (fst m) (snd m) c) as [a ->]. rewrite IH. eauto.
Qed.

Lemma findKingSquare_In (c : Color) (ksq : Square) :
  findKingSquare gs c = Some ksq ->
  In ksq (board gs) /\ isKingOf c (occupant ksq) = true.
Proof. intro H. now apply find_some in H. Qed.

Lemma isKingOf_inv (c : Color) (o : Occupant) :
  isKingOf c o = true -> exists born loan ret, o = Piece c K born loan ret.
Proof.
  destruct o as [| |c' [] born loan ret]; simpl; try discriminate.
  intro H. apply color_eqb_eq in H. subst. eauto.
Qed.

Lemma checkmated_total (lastMover opponent : Color) :
  exists v, checkmated gs lastMover opponent = Some v.
Proof.
  unfold checkmated.
  destruct (getC (kingOnBoard gs) opponent); eauto.
  destruct (findKingSquare gs opponent) as [ksq|] eqn:Hk; eauto.
  destruct (findKingSquare_In _ _ Hk) as [Hin Hking].
  destruct (isSquareAttacked_total (file ksq) (rank ksq) lastMover) as [a ->].
  destruct a; eauto.
  destruct (isKingOf_inv _ _ Hking) as (born & loan & ret & Ho).
  destruct (piece_moves_total ksq Hin ltac:(congruence)) as (ms & -> & _).
  destruct (safeMoves_total lastMover ms) as [v ->]. eauto.
Qed.

Lemma pawnCanMoveIn_total (c : Color) (sqs : list Square) :
  incl sqs (board gs) -> exists v, pawnCanMoveIn gs c sqs = Some v.
Proof.
  induction sqs as [|sq rest IH]; intro Hincl; simpl; eauto.
  assert (Hrest : incl rest (board gs)) by (intros x Hx; apply Hincl; now right).
  destruct (isPawnOf c (occupant sq)) eqn:Hp; auto.
  assert (Ho : occupant sq <> Null) by (destruct (occupant sq); simpl in Hp; congruence).
  destruct (piece_moves_total sq (Hincl _ (or_introl eq_refl)) Ho) as (ms & -> & _).
  destruct ms; eauto.
Qed.

Lemma metamorphCanMoveIn_total (c : Color) (sqs : list Square) :
  exists v, metamorphCanMoveIn gs c sqs = Some v.
Proof.
  induction sqs as [|sq rest [v IH]]; simpl; eauto.
  destruct (isMetamorphOf c (occupant sq)) eqn:Hp; eauto.
  assert (Ho : occupant sq <> Null) by (destruct (occupant sq); simpl in Hp; congruence).
  destruct (legalMovesForMetamorph_total gs sq Hwf Ho) as (ms & -> & _).
  destruct ms; eauto.
Qed.

Lemma immobile_total (c : Color) : exists v, immobile gs c = Some v.
Proof.
  unfold immobile.
  destruct (negb (getC (kingOnBoard gs) c)); eauto.
  destruct (pawnCanMoveIn_total c (board gs) (incl_refl _)) as [p Hp].
  destruct (metamorphCanMoveIn_total c (board gs)) as [m Hm].
  unfold anyPawnCanMove, anyMetamorphCanMove. rewrite Hp, Hm.
  destruct (negb (negb (hasAnyPawn gs c))), (negb (negb (hasAnyMetamorph gs c))); eauto.
Qed.

Lemma detectWin_total (lastMover : Color) (capturedKing : option Color) :
  exists v, detectWin gs lastMover capturedKing = Some v.
Proof.
  unfold detectWin. destruct capturedKing; eauto.
  destruct (checkmated_total lastMover (turn gs)) as [mate ->].
  destruct mate; eauto.
  destruct (immobile_total white) as [w ->]. destruct w; eauto.
  destruct (immobile_total black) as [bl ->]. destruct bl; eauto.
Qed.

Lemma kingInCheck_total (c : Color) : exists v, kingInCheck gs c = Some v.
Proof.
  unfold kingInCheck.
  destruct (negb (getC (kingOnBoard gs) c)); eauto.
  destruct (findKingSquare gs c); eauto.
  apply isSquareAttacked_total.
Qed.

End Totality.

(** The functions reading only the board and the king flags. *)
Lemma concludeMove_total (next : GameState) (ck : option Color) :
  wfBoard (board next) -> exists gs', concludeMove next ck = Some gs'.
Proof.
  intro Hwf. unfold concludeMove.
  set (newGs := setMessage (setSelected (applyAutoTransforms next) None) None).
  assert (Hwf' : wfBoard (board newGs)).
  { simpl. destruct (applyAutoTransforms_rules next) as [_ H].
    eapply frame_wf; eauto. }
  destruct (detectWin_total newGs Hwf' (other (turn newGs)) ck) as [[[w r]|] ->]; eauto.
Qed.

Lemma applyMove_frame_pre (gs : GameState) (fromId : SquareId) (to : Square) (c : Color) :
  let n1 := fst (recordCapture (deepClone gs) (occupant to)) in
  let n7 := expireLoans (advanceTurn (markPromotion (landTransform
              (landLoan (moveOccupant n1 fromId (id to) c) to) to) to)) in
  map frame (board n7) = map frame (board gs).
Proof.
  intros n1 n7. subst n7.
  destruct (expireLoans_rules (advanceTurn (markPromotion (landTransform
              (landLoan (moveOccupant n1 fromId (id to) c) to) to) to)))
    as (_ & _ & _ & ->).
  unfold advanceTurn. simpl.
  destruct (markPromotion_fields (landTransform
              (landLoan (moveOccupant n1 fromId (id to) c) to) to) to) as (-> & _).
  destruct (landTransform_fields (landLoan (moveOccupant n1 fromId (id to) c) to) to)
    as (-> & _).
  destruct (landLoan_fields (moveOccupant n1 fromId (id to) c) to) as (-> & _).
  unfold moveOccupant. simpl. rewrite !setOccupantAt_frame.
  subst n1. destruct (recordCapture_fields (deepClone gs) (occupant to)) as (-> & _).
  reflexivity.
Qed.

Lemma applyMove_total (gs : GameState) (fromId : SquareId) (to : Square) (c : Color) :
  wfBoard (board gs) -> exists gs', applyMove gs fromId to c = Some gs'.
Proof.
  intro Hwf. unfold applyMove.
  pose proof (applyMove_frame_pre gs fromId to c) as Hf. simpl in Hf.
  destruct (recordCapture (deepClone gs) (occupant to)) as [n1 ck]. simpl in Hf.
  apply concludeMove_total. eapply frame_wf; eauto.
Qed.

(** [performMove] never raises on a well-formed board when both
    identifiers name squares of the grid. *)
Lemma performMove_total (gs : GameState) (fromId toId : SquareId) :
  wfBoard (board gs) -> validId fromId -> validId toId ->
  exists gs', performMove gs fromId toId = Some gs'.
Proof.
  intros Hwf Hva Hvb.
  destruct (find_id_wf (board gs) Hwf fromId Hva) as (sFrom & Hfrom & HinF & _ & HbF).
  destruct (find_id_wf (board gs) Hwf toId Hvb) as (to & Hto & _).
  unfold performMove.
  destruct (winner gs); eauto. rewrite Hfrom.
  destruct (color_of (occupant sFrom)) as [c|] eqn:Hc; eauto.
  destruct (negb (color_eqb c (turn gs))); eauto.
  assert (Hocc : occupant sFrom <> Null).
  { intro E. rewrite E in Hc. discriminate. }
  destruct (legalMovesFor_total gs sFrom Hwf HbF Hocc) as (legal & -> & _).
  rewrite Hto.
  assert (Hil : isLegalDestination legal (Some to)
                = Some (existsb (sameCoord (file to) (rank to)) legal)).
  { destruct legal; reflexivity. }
  rewrite Hil.
  destruct (negb (existsb (sameCoord (file to) (rank to)) legal)); eauto.
  destruct (kingCaptureRefusal gs c (occupant to)); eauto.
  now apply applyMove_total.
Qed.


(** ** What an accepted move changes *)

Lemma applyMove_inv (gs : GameState) (fromId : SquareId) (to : Square) (c : Color)
    (gs' : GameState) :
  applyMove gs fromId to c = Some gs' ->
  exists win,
    detectWin (settled gs fromId to c) (other (turn (settled gs fromId to c)))
      (snd (recordCapture gs (occupant to))) = Some win
    /\ gs' = withWin (settled gs fromId to c) win.
Proof.
  unfold applyMove, settled, landed, concludeMove, deepClone.
  destruct (recordCapture gs (occupant to)) as [n1 ck]. cbn [fst snd].
  match goal with
  | |- context [detectWin ?g ?m ck] => destruct (detectWin g m ck) as [win|]; [|discriminate]
  end.
  intro H. exists win. split; auto.
  destruct win as [[w r]|]; now injection H.
Qed.

Lemma rulesOf_turn (g g' : GameState) : rulesOf g' = rulesOf g -> turn g' = turn g.
Proof. unfold rulesOf. congruence. Qed.
Lemma rulesOf_moveNumber (g g' : GameState) :
  rulesOf g' = rulesOf g -> moveNumber g' = moveNumber g.
Proof. unfold rulesOf. congruence. Qed.
Lemma rulesOf_promotion (g g' : GameState) :
  rulesOf g' = rulesOf g -> promotion g' = promotion g.
Proof. unfold rulesOf. congruence. Qed.
Lemma rulesOf_winner (g g' : GameState) :
  rulesOf g' = rulesOf g -> winner g' = winner g /\ winReason g' = winReason g.
Proof. unfold rulesOf. split; congruence. Qed.
Lemma rulesOf_quietus (g g' : GameState) :
  rulesOf g' = rulesOf g -> quietus g' = quietus g.
Proof. unfold rulesOf. congruence. Qed.

Lemma landed_fields (gs : GameState) (fromId : SquareId) (to : Square) (c : Color) :
  let g := landed gs fromId to c in
  turn g = turn gs /\ moveNumber g = moveNumber gs /\ winner g = winner gs
  /\ map frame (board g) = map frame (board gs).
Proof.
  unfold landed.
  set (n1 := fst (recordCapture gs (occupant to))).
  set (n2 := moveOccupant n1 fromId (id to) c).
  set (n3 := landLoan n2 to). set (n4 := landTransform n3 to).
  destruct (markPromotion_fields n4 to) as (Hb & Ht & Hm & Hw & _).
  destruct (landTransform_fields n3 to) as (Hf4 & Hr4).
  destruct (landLoan_fields n2 to) as (Hf3 & Hr3 & _).
  destruct (recordCapture_fields gs (occupant to)) as (Hb1 & Ht1 & Hm1 & _ & Hw1 & _).
  fold n1 in Hb1, Ht1, Hm1, Hw1. fold n3 in Hf3, Hr3. fold n4 in Hf4, Hr4.
  pose proof (rulesOf_turn _ _ Hr4). pose proof (rulesOf_turn _ _ Hr3).
  pose proof (rulesOf_moveNumber _ _ Hr4). pose proof (rulesOf_moveNumber _ _ Hr3).
  pose proof (proj1 (rulesOf_winner _ _ Hr4)). pose proof (proj1 (rulesOf_winner _ _ Hr3)).
  assert (Hf2 : map frame (board n2) = map frame (board gs)).
  { subst n2. unfold moveOccupant. simpl. now rewrite !setOccupantAt_frame, Hb1. }
  assert (turn n2 = turn n1 /\ moveNumber n2 = moveNumber n1 /\ winner n2 = winner n1)
    as (? & ? & ?) by (subst n2; unfold moveOccupant; simpl; auto).
  cbv zeta. rewrite Hb. repeat split; congruence.
Qed.

Lemma settled_fields (gs : GameState) (fromId : SquareId) (to : Square) (c : Color) :
  let g := settled gs fromId to c in
  turn g = other (turn gs) /\ moveNumber g = moveNumber gs + 1
  /\ winner g = winner gs /\ message g = None
  /\ promotion g = promotion (landed gs fromId to c)
  /\ map frame (board g) = map frame (board gs).
Proof.
  unfold settled. cbv zeta. cbn [turn moveNumber winner message promotion board setMessage setSelected].
  set (l := landed gs fromId to c).
  destruct (applyAutoTransforms_rules (expireLoans (advanceTurn l))) as [Hr1 Hf1].
  destruct (expireLoans_rules (advanceTurn l)) as (Hr2 & _ & _ & Hf2).
  destruct (landed_fields gs fromId to c) as (Ht & Hm & Hw & Hf). fold l in Ht, Hm, Hw, Hf.
  pose proof (rulesOf_turn _ _ Hr1). pose proof (rulesOf_turn _ _ Hr2).
  pose proof (rulesOf_moveNumber _ _ Hr1). pose proof (rulesOf_moveNumber _ _ Hr2).
  pose proof (proj1 (rulesOf_winner _ _ Hr1)). pose proof (proj1 (rulesOf_winner _ _ Hr2)).
  pose proof (rulesOf_promotion _ _ Hr1). pose proof (rulesOf_promotion _ _ Hr2).
  unfold advanceTurn in *. simpl in *.
  repeat split; congruence.
Qed.

Lemma withWin_fields (g : GameState) (win : option (Color * string)) :
  let g' := withWin g win in
  board g' = board g /\ turn g' = turn g /\ moveNumber g' = moveNumber g
  /\ promotion g' = promotion g /\ stock g' = stock g /\ quietus g' = quietus g
  /\ kingOnBoard g' = kingOnBoard g /\ kingProtectedUntil g' = kingProtectedUntil g.
Proof. destruct win as [[w r]|]; simpl; auto 10. Qed.

(** The occupant of the landing square keeps the mover's colour. *)
Lemma landing_color (gs : GameState) (fromId : SquareId) (sFrom to : Square) (c : Color) :
  find (hasId fromId) (board gs) = Some sFrom ->
  find (hasId (id to)) (board gs) = Some to ->
  color_of (occupant sFrom) = Some c ->
  let n4 := landTransform
              (landLoan (moveOccupant (fst (recordCapture gs (occupant to)))
                           fromId (id to) c) to) to in
  color_of (occupantOf (board n4) (id to)) = Some c
  \/ occupantOf (board n4) (id to) = Null.
Proof.
  intros Hfrom Hto Hc.
  set (n1 := fst (recordCapture gs (occupant to))).
  assert (Hb1 : board n1 = board gs) by apply recordCapture_fields.
  set (n2 := moveOccupant n1 fromId (id to) c).
  assert (H2 : color_of (occupantOf (board n2) (id to)) = Some c
               \/ occupantOf (board n2) (id to) = Null).
  { subst n2. unfold moveOccupant. simpl. rewrite Hb1.
    assert (Hocc : occupantOf (board gs) fromId = occupant sFrom).
    { unfold occupantOf. now rewrite Hfrom. }
    rewrite Hocc.
    destruct (String.eqb fromId (id to)) eqn:E.
    - apply String.eqb_eq in E. right. rewrite <- E.
      unfold occupantOf. rewrite find_hasId_set, String.eqb_refl.
      rewrite find_hasId_set, String.eqb_refl, Hfrom. reflexivity.
    - apply String.eqb_neq in E. left.
      rewrite occupantOf_set_other by auto.
      erewrite occupantOf_set_same by eauto. exact Hc. }
  assert (Hfind2 : exists s, find (hasId (id to)) (board n2) = Some s).
  { subst n2. unfold moveOccupant. simpl. rewrite Hb1.
    rewrite !find_hasId_set, Hto.
    destruct (String.eqb fromId (id to)), (String.eqb (id to) (id to)); simpl; eauto. }
  set (n3 := landLoan n2 to).
  assert (H3 : (color_of (occupantOf (board n3) (id to)) = Some c
                \/ occupantOf (board n3) (id to) = Null)
               /\ exists s, find (hasId (id to)) (board n3) = Some s).
  { assert (Hkeep : (color_of (occupantOf (board n2) (id to)) = Some c
                     \/ occupantOf (board n2) (id to) = Null)
                    /\ exists s, find (hasId (id to)) (board n2) = Some s) by auto.
    subst n3. unfold landLoan.
    destruct (occupantOf (board n2) (id to)) as [|c'|c' t born [|] ret] eqn:Ho;
      try (rewrite Ho; exact Hkeep).
    destruct (inZone (rank to)); [|rewrite Ho; exact Hkeep].
    destruct Hfind2 as [s Hs]. cbn [board setBoard].
    erewrite occupantOf_set_same by eauto.
    rewrite find_hasId_set, String.eqb_refl, Hs. cbn [option_map].
    split; eauto. destruct H2 as [H2|H2]; [left; exact H2|discriminate]. }
  destruct H3 as [H3 [s3 Hs3]].
  cbv zeta. unfold landTransform.
  destruct (blueSymbol to) as [n|]; auto.
  destruct (inZone (rank to)); auto.
  pose proof (transformOccupant_color n3 (moveNumber n3 + 1) n (occupantOf (board n3) (id to))) as Hcol.
  pose proof (transformOccupant_rules n3 (moveNumber n3 + 1) n (occupantOf (board n3) (id to))) as [_ Hb].
  destruct (transformOccupant n3 (moveNumber n3 + 1) n (occupantOf (board n3) (id to)))
    as [g o']. cbn [fst snd board setBoard] in *.
  rewrite Hb. erewrite occupantOf_set_same by eauto.
  rewrite Hcol. destruct H3 as [H3|H3]; [left; exact H3|].
  right. rewrite H3 in Hcol. destruct o'; simpl in Hcol; congruence.
Qed.

Lemma accepted_effects (gs : GameState) (fromId toId : SquareId) (gs' : GameState) :
  accepted gs fromId toId gs' ->
  turn gs' = other (turn gs)
  /\ moveNumber gs' = moveNumber gs + 1
  /\ map frame (board gs') = map frame (board gs)
  /\ (promotion gs' = promotion gs \/ promotion gs' = Some (toId, turn gs)).
Proof.
  intros (sFrom & to & c & legal & Hw & Hfrom & Hto & Hc & Hturn & Hlegal & Hex & Hk & Happ).
  destruct (applyMove_inv _ _ _ _ _ Happ) as (win & Hwin & ->).
  destruct (withWin_fields (settled gs fromId to c) win) as (-> & -> & -> & -> & _).
  destruct (settled_fields gs fromId to c) as (-> & -> & _ & _ & -> & ->).
  repeat split; auto.
  pose proof (find_hasId_id _ _ _ Hto) as Hid.
  unfold landed.
  match goal with |- context [markPromotion ?g to] =>
    destruct (markPromotion_fields g to) as (_ & _ & _ & _ & _ & _ & _ & _ & Hp) end.
  match type of Hp with context [markPromotion ?g to] => set (n4 := g) in * end.
  assert (Hp4 : promotion n4 = promotion gs).
  { subst n4.
    match goal with |- promotion (landTransform ?g to) = _ =>
      destruct (landTransform_fields g to) as (_ & Hr4); set (n3 := g) in * end.
    rewrite (rulesOf_promotion _ _ Hr4). subst n3.
    match goal with |- promotion (landLoan ?g to) = _ =>
      destruct (landLoan_fields g to) as (_ & Hr3 & _) end.
    rewrite (rulesOf_promotion _ _ Hr3). unfold moveOccupant. simpl.
    apply recordCapture_fields. }
  destruct Hp as [Hp|(c' & born & loan & ret & Ho & Hp)].
  - left. congruence.
  - right. rewrite Hp. rewrite Hid.
    rewrite <- Hid in Hto.
    destruct (landing_color gs fromId sFrom to c Hfrom Hto Hc) as [Hcol|Hnull];
      fold n4 in Hcol || fold n4 in Hnull.
    + rewrite Ho in Hcol. simpl in Hcol. congruence.
    + rewrite Ho in Hnull. discriminate.
Qed.

(** C7 (amended).  [performMove] never reads [promotion].  What blocks the
    colour awaiting a promotion is the turn: a move of an occupant whose
    colour is not the one to move returns the state itself; and a move that
    requests a promotion requests it for the mover and passes the turn to
    the other colour, so in the state it produces every move of the
    promoting colour is returned unchanged. *)
Theorem promotion_blocks_by_turn (gs : GameState) (c : Color) (sq : SquareId)
    (fromId toId : SquareId) (o : Occupant) :
  promotion gs = Some (sq, c) ->
  moverAt gs fromId o -> color_of o = Some c ->
  (turn gs <> c -> performMove gs fromId toId = Some gs)
  /\ (forall prev a b, performMove prev a b = Some gs ->
        promotion prev <> promotion gs -> performMove gs fromId toId = Some gs).
Proof.
  intros Hp (s & Hs & Ho) Hc.
  assert (Hreject : turn gs <> c -> performMove gs fromId toId = Some gs).
  { intro Hne. unfold performMove. destruct (winner gs); auto.
    rewrite Hs, Ho, Hc.
    assert (E : color_eqb c (turn gs) = false) by (apply color_eqb_neq; congruence).
    now rewrite E. }
  split; auto.
  intros prev a b Hmove Hchg. apply Hreject.
  destruct (performMove_cases _ _ _ _ Hmove) as [[-> _]|[(msg & _ & -> & _)|Hacc]].
  - congruence.
  - simpl in Hchg. congruence.
  - destruct (accepted_effects _ _ _ _ Hacc) as (Ht & _ & _ & [Hsame|Hnew]).
    + congruence.
    + rewrite Hp in Hnew. injection Hnew as _ ->. rewrite Ht. apply other_neq.
Qed.

(** C7 as stated fails once the turn has come back: with a promotion
    pending for white and white to move, the white pawn on a3 moves. *)
Lemma promotion_blocks_counterexample :
  let gs := setPromotion pawnOnA3 (Some ("h1", white)) in
  promotion gs = Some ("h1", white)
  /\ moverAt gs "a3" (Piece white P 1 false None)
  /\ exists gs', performMove gs "a3" "a2" = Some gs'
                 /\ occupantOf (board gs') "a2" = Piece white P 1 false None
                 /\ occupantOf (board gs') "a3" = Null
                 /\ moveNumber gs' = moveNumber gs + 1.
Proof.
  cbv zeta. split; [reflexivity|]. split.
  - eexists. split; vm_compute; reflexivity.
  - eexists. split; [vm_compute; reflexivity|]. repeat split.
Qed.

Lemma promotion_blocks_witness :
  let gs := setTurn (setPromotion pawnOnA3 (Some ("h1", white))) black in
  (turn gs <> white -> performMove gs "a3" "a2" = Some gs)
  /\ (forall prev a b, performMove prev a b = Some gs ->
        promotion prev <> promotion gs -> performMove gs "a3" "a2" = Some gs).
Proof.
  cbv zeta.
  apply (promotion_blocks_by_turn
           (setTurn (setPromotion pawnOnA3 (Some ("h1", white))) black)
           white "h1" "a3" "a2" (Piece white P 1 false None)).
  - reflexivity.
  - eexists. split; vm_compute; reflexivity.
  - reflexivity.
Defined.


(** ** Candidate moves of the computer opponent *)

Lemma performMove_wfGame (gs : GameState) (a b : SquareId) (gs' : GameState) :
  wfGame gs -> performMove gs a b = Some gs' -> wfGame gs'.
Proof.
  intros [Hwf Hp] Hmove.
  destruct (performMove_cases _ _ _ _ Hmove) as [[-> _]|[(msg & _ & -> & _)|Hacc]].
  - split; auto.
  - split; auto.
  - destruct (accepted_effects _ _ _ _ Hacc) as (_ & _ & Hf & Hpr).
    split; [eapply frame_wf; eauto|].
    intros sq c E. destruct Hpr as [Hpr|Hpr].
    + apply (Hp sq c). congruence.
    + rewrite Hpr in E. injection E as <- <-.
      destruct Hacc as (sFrom & to & c & legal & _ & _ & Hto & _).
      pose proof (find_some _ _ Hto) as [Hin _].
      rewrite <- (find_hasId_id _ _ _ Hto). now apply (wf_validId (board gs)).
Qed.

Lemma updateFirst_some (p : Square -> bool) (g : Square -> Square) (b : list Square)
    (s : Square) :
  (forall x, frame (g x) = frame x) ->
  find p b = Some s ->
  exists b', updateFirst p g b = Some b' /\ map frame b' = map frame b.
Proof.
  intros Hg. induction b as [|x b IH]; simpl; [discriminate|].
  destruct (p x).
  - intros _. eexists. split; [reflexivity|]. simpl. now rewrite Hg.
  - intro H. destruct (IH H) as (b' & -> & Hf). eexists. split; [reflexivity|].
    simpl. now rewrite Hf.
Qed.

Lemma updateFirst_frame (p : Square -> bool) (g : Square -> Square) (b b' : list Square) :
  (forall x, frame (g x) = frame x) ->
  updateFirst p g b = Some b' -> map frame b' = map frame b.
Proof.
  intros Hg. revert b'. induction b as [|x b IH]; simpl; [discriminate|].
  intros b'. destruct (p x).
  - intros [= <-]. simpl. now rewrite Hg.
  - destruct (updateFirst p g b) as [r|]; [|discriminate].
    intros [= <-]. simpl. now rewrite (IH r eq_refl).
Qed.

Lemma applyPromotionChoice_keeps (st : GameState) (t : PieceType) (st' : GameState) :
  applyPromotionChoice st t = Some st' ->
  winner st' = winner st /\ message st' = message st
  /\ map frame (board st') = map frame (board st)
  /\ (promotion st' = None \/ promotion st' = promotion st).
Proof.
  unfold applyPromotionChoice, deepClone.
  destruct (promotion st) as [[sq c]|] eqn:Hp.
  2:{ intros [= <-]. rewrite Hp. auto. }
  destruct (negb (promotionAvailable st c t)).
  { intros [= <-]. rewrite Hp. auto. }
  match goal with
  | |- context [updateFirst ?p ?g ?b] =>
      destruct (updateFirst p g b) as [b'|] eqn:Hu; [|discriminate];
      pose proof (updateFirst_frame p g b b' (fun x => eq_refl) Hu) as Hf
  end.
  intros [= <-].
  match goal with
  | |- context [applyAutoTransforms ?g] =>
      destruct (applyAutoTransforms_rules g) as [Hr Hfr]; unfold rulesOf in Hr;
      injection Hr as _ _ Hpr Hw _ Hm _ _ _ _
  end.
  rewrite Hw, Hm, Hfr, Hpr.
  destruct (getCT (quietus st) c t >? 0), (type_eqb t K); simpl in *; auto.
Qed.

Lemma applyPromotionChoice_total (st : GameState) (t : PieceType) :
  wfGame st -> exists st', applyPromotionChoice st t = Some st'.
Proof.
  intros [Hwf Hp]. unfold applyPromotionChoice, deepClone.
  destruct (promotion st) as [[sq c]|] eqn:Hpr; eauto.
  destruct (negb (promotionAvailable st c t)); eauto.
  destruct (find_id_wf (board st) Hwf sq (Hp sq c eq_refl)) as (s & Hs & _).
  match goal with
  | |- context [updateFirst ?p ?g ?b] =>
      assert (Hu : exists b', updateFirst p g b = Some b' /\ map frame b' = map frame b)
  end.
  { eapply updateFirst_some; [reflexivity|].
    destruct (getCT (quietus st) c t >? 0); simpl; exact Hs. }
  destruct Hu as (b' & -> & _). eauto.
Qed.

Lemma resolveWith_keeps (color : Color) (pref : list PieceType) :
  forall st st', resolveWith st color pref = Some st' ->
    winner st' = winner st /\ message st' = message st
    /\ map frame (board st') = map frame (board st)
    /\ (promotion st' = None \/ promotion st' = promotion st).
Proof.
  induction pref as [|t rest IH]; intros st st'; simpl.
  - intros [= <-]. auto.
  - destruct (promotionAvailable st color t); auto.
    apply applyPromotionChoice_keeps.
Qed.

Lemma resolveForAi_keeps (n : GameState) (color : Color) (n2 : GameState) :
  resolveForAi n color = Some n2 ->
  winner n2 = winner n /\ message n2 = message n
  /\ map frame (board n2) = map frame (board n)
  /\ (promotion n2 = None \/ promotion n2 = promotion n).
Proof.
  unfold resolveForAi, aiResolvePromotion.
  destruct (promotion n) as [[sq pc]|] eqn:Hp.
  - destruct (color_eqb pc color).
    + intro H. apply resolveWith_keeps in H. now rewrite Hp in H.
    + intros [= <-]. auto.
  - intros [= <-]. auto.
Qed.

Lemma resolveForAi_total (n : GameState) (color : Color) :
  wfGame n -> exists n2, resolveForAi n color = Some n2.
Proof.
  intro Hwf. unfold resolveForAi, aiResolvePromotion.
  destruct (promotion n) as [[sq pc]|]; eauto.
  destruct (color_eqb pc color); eauto.
  generalize [Q; R; B; N; K]. intro pref.
  induction pref as [|t rest IH]; simpl; eauto.
  destruct (promotionAvailable n color t); auto.
  now apply applyPromotionChoice_total.
Qed.

Lemma resolveForAi_wfGame (n : GameState) (color : Color) (n2 : GameState) :
  wfGame n -> resolveForAi n color = Some n2 -> wfGame n2.
Proof.
  intros [Hwf Hp] H. destruct (resolveForAi_keeps _ _ _ H) as (_ & _ & Hf & Hpr).
  split; [eapply frame_wf; eauto|].
  intros sq c E. destruct Hpr as [Hpr|Hpr]; [congruence|].
  apply (Hp sq c). congruence.
Qed.

Section Candidates.

Variable base : GameState.
Variable color : Color.

Lemma tryMoves_spec (fromId : SquareId) (ms : list Coord) :
  forall acc res, tryMoves base color fromId ms acc = Some res ->
    forall c, In c res <-> In c acc \/ exists m, In m ms /\ tried base color fromId m c.
Proof.
  induction ms as [|m rest IH]; intros acc res; simpl.
  - intros [= <-] c. split; auto. intros [H|(m & [] & _)]; auto.
  - destruct (performMove base fromId (idFrom (fst m) (snd m))) as [n|] eqn:Hn;
      [|discriminate].
    destruct (resolveForAi n color) as [n2|] eqn:Hn2; [|discriminate].
    intros H c. rewrite (IH _ _ H). split.
    + intros [Hc|(m' & Hm' & Ht)].
      * destruct (truthy (message n2)) eqn:Hmsg; auto.
        apply in_app_iff in Hc as [Hc|[<-|[]]]; auto.
        right. exists m. split; auto. exists n, n2. auto.
      * right. exists m'. auto.
    + intros [Hc|(m' & [<-|Hm'] & Ht)].
      * left. destruct (truthy (message n2)); auto. apply in_app_iff; auto.
      * left. destruct Ht as (n' & n2' & Hn' & Hn2' & Hmsg & ->).
        rewrite Hn in Hn'. injection Hn' as <-.
        rewrite Hn2 in Hn2'. injection Hn2' as <-.
        rewrite Hmsg. apply in_app_iff. right. now left.
      * right. exists m'. auto.
Qed.

Lemma tryMoves_total (fromId : SquareId) (ms : list Coord) :
  wfGame base -> validId fromId ->
  (forall m, In m ms -> inBounds (fst m) (snd m) = true) ->
  forall acc, exists res, tryMoves base color fromId ms acc = Some res.
Proof.
  intros Hwf Hv. induction ms as [|m rest IH]; intros Hb acc; simpl; eauto.
  destruct (performMove_total base fromId (idFrom (fst m) (snd m)) (proj1 Hwf) Hv)
    as [n Hn].
  { apply validId_idFrom. apply Hb. now left. }
  rewrite Hn.
  destruct (resolveForAi_total n color (performMove_wfGame _ _ _ _ Hwf Hn)) as [n2 ->].
  apply IH. intros m' Hm'. apply Hb. now right.
Qed.

Lemma collectCandidates_spec (sqs : list Square) :
  forall acc res, collectCandidates base color sqs acc = Some res ->
    forall c, In c res <->
      In c acc \/
      exists sq ms m, In sq sqs /\ color_of (occupant sq) = Some color
        /\ legalMovesFor base sq = Some ms /\ In m ms /\ tried base color (id sq) m c.
Proof.
  induction sqs as [|sq rest IH]; intros acc res; simpl.
  - intros [= <-] c. split; auto. intros [H|(sq & ms & m & [] & _)]; auto.
  - assert (Hskip : color_of (occupant sq) <> Some color ->
                    collectCandidates base color rest acc = Some res ->
                    forall c, In c res <->
                      In c acc \/
                      exists sq0 ms m, (sq = sq0 \/ In sq0 rest)
                        /\ color_of (occupant sq0) = Some color
                        /\ legalMovesFor base sq0 = Some ms /\ In m ms
                        /\ tried base color (id sq0) m c).
    { intros Hne H c. rewrite (IH _ _ H). split.
      - intros [Hc|(sq0 & ms & m & Hin & Hrest)]; auto.
        right. exists sq0, ms, m. auto.
      - intros [Hc|(sq0 & ms & m & [<-|Hin] & Hcol & Hrest)]; auto.
        + congruence.
        + right. exists sq0, ms, m. auto. }
    assert (Hown : forall ms, color_of (occupant sq) = Some color ->
                    legalMovesFor base sq = Some ms ->
                    forall acc', tryMoves base color (id sq) ms acc = Some acc' ->
                    collectCandidates base color rest acc' = Some res ->
                    forall c, In c res <->
                      In c acc \/
                      exists sq0 ms m, (sq = sq0 \/ In sq0 rest)
                        /\ color_of (occupant sq0) = Some color
                        /\ legalMovesFor base sq0 = Some ms /\ In m ms
                        /\ tried base color (id sq0) m c).
    { intros ms Hcol Hms acc' Htry H c.
      rewrite (IH _ _ H), (tryMoves_spec _ _ _ _ Htry). split.
      - intros [[Hc|(m & Hm & Ht)]|(sq0 & ms0 & m & Hin & Hrest)]; auto.
        + right. exists sq, ms, m. auto.
        + right. exists sq0, ms0, m. auto.
      - intros [Hc|(sq0 & ms0 & m & [<-|Hin] & Hcol0 & Hms0 & Hm & Ht)]; auto.
        + left. right. exists m. split; auto. congruence.
        + right. exists sq0, ms0, m. auto. }
    unfold legalMovesFor in Hown.
    destruct (occupant sq) as [|c0|c0 t born loan ret] eqn:Ho; simpl in *.
    + apply Hskip. discriminate.
    + destruct (color_eqb c0 color) eqn:E.
      * apply color_eqb_eq in E. subst c0.
        destruct (legalMovesForMetamorph base sq) as [ms|] eqn:Hms; [|discriminate].
        destruct (tryMoves base color (id sq) ms acc) as [acc'|] eqn:Htry; [|discriminate].
        eapply Hown; eauto.
      * apply color_eqb_neq in E. apply Hskip. congruence.
    + destruct (color_eqb c0 color) eqn:E.
      * apply color_eqb_eq in E. subst c0.
        destruct (legalMovesForPiece base sq) as [ms|] eqn:Hms; [|discriminate].
        destruct (tryMoves base color (id sq) ms acc) as [acc'|] eqn:Htry; [|discriminate].
        eapply Hown; eauto.
      * apply color_eqb_neq in E. apply Hskip. congruence.
Qed.

Lemma collectCandidates_total (sqs : list Square) :
  wfGame base -> incl sqs (board base) ->
  forall acc, exists res, collectCandidates base color sqs acc = Some res.
Proof.
  intros Hwf. induction sqs as [|sq rest IH]; intros Hincl acc; simpl; eauto.
  assert (Hrest : incl rest (board base)) by (intros x Hx; apply Hincl; now right).
  assert (Hin : In sq (board base)) by (apply Hincl; now left).
  destruct (wf_place (board base) (proj1 Hwf) sq Hin) as [Hb _].
  pose proof (wf_validId (board base) (proj1 Hwf) sq Hin) as Hv.
  destruct (occupant sq) as [|c0|c0 t born loan ret] eqn:Ho; auto.
  - destruct (color_eqb c0 color); auto.
    destruct (legalMovesForMetamorph_total base sq (proj1 Hwf)) as (ms & -> & Hms).
    { congruence. }
    destruct (tryMoves_total (id sq) ms Hwf Hv Hms acc) as [acc' ->]. auto.
  - destruct (color_eqb c0 color); auto.
    destruct (legalMovesForPiece_total base sq (proj1 Hwf) Hb) as (ms & -> & Hms).
    { congruence. }
    destruct (tryMoves_total (id sq) ms Hwf Hv Hms acc) as [acc' ->]. auto.
Qed.

End Candidates.

Lemma filterSafe_spec (color : Color) (cands : list Candidate) :
  forall safe, filterSafe color cands = Some safe ->
    forall c, In c safe <-> In c cands /\ isSafe color c.
Proof.
  unfold isSafe.
  induction cands as [|mv rest IH]; intros safe; simpl.
  - intros [= <-] c. simpl. tauto.
  - destruct (kingInCheck (cand_next mv) color) as [chk|] eqn:Hc; [|discriminate].
    destruct (filterSafe color rest) as [rest'|]; [|discriminate].
    intros [= <-] c. specialize (IH rest' eq_refl c).
    destruct chk; simpl; rewrite IH; split.
    + intros [H1 H2]. auto.
    + intros [[<-|H1] H2]; [congruence|auto].
    + intros [<-|[H1 H2]]; auto.
    + intros [[<-|H1] H2]; auto.
Qed.

Lemma filterSafe_total (color : Color) (cands : list Candidate) :
  (forall c, In c cands -> wfBoard (board (cand_next c))) ->
  exists safe, filterSafe color cands = Some safe.
Proof.
  induction cands as [|mv rest IH]; intro Hwf; simpl; eauto.
  destruct (kingInCheck_total (cand_next mv) (Hwf mv (or_introl eq_refl)) color) as [v ->].
  destruct IH as [rest' ->]; eauto.
  intros c Hc. apply Hwf. now right.
Qed.

Lemma wfGame_setTurn (gs : GameState) (c : Color) : wfGame gs -> wfGame (setTurn gs c).
Proof. intros [H1 H2]. split; auto. Qed.

Lemma isCandidate_wf (gs : GameState) (color : Color) (c : Candidate) :
  wfGame gs -> isCandidate gs color c -> wfGame (cand_next c).
Proof.
  intros Hwf (sq & ms & m & n & n2 & _ & _ & _ & _ & Hn & Hn2 & _ & ->). simpl.
  apply (resolveForAi_wfGame n color n2); auto.
  apply (performMove_wfGame (setTurn gs color) (id sq) (idFrom (fst m) (snd m)) n); auto.
Qed.

(** The candidate list of [generateMoves], the safe ones among it, and the
    list returned. *)
Lemma generateMoves_spec (gs : GameState) (color : Color) :
  wfGame gs ->
  exists candidates safe inCheck,
    (forall c, In c candidates <-> isCandidate gs color c)
    /\ (forall c, In c safe <-> isCandidate gs color c /\ isSafe color c)
    /\ kingInCheck gs color = Some inCheck
    /\ generateMoves gs color
       = Some (if inCheck then safe
               else match safe with [] => candidates | _ :: _ => safe end).
Proof.
  intro Hwf. unfold generateMoves, deepClone.
  pose proof (wfGame_setTurn gs color Hwf) as Hwfb.
  destruct (collectCandidates_total (setTurn gs color) color (board (setTurn gs color))
              Hwfb (incl_refl _) []) as [cands Hc].
  rewrite Hc.
  assert (Hcand : forall c, In c cands <-> isCandidate gs color c).
  { intro c. rewrite (collectCandidates_spec _ _ _ _ _ Hc c). unfold isCandidate, tried.
    split.
    - intros [[]|(sq & ms & m & Hin & Hcol & Hms & Hm & n & n2 & H)].
      exists sq, ms, m, n, n2. tauto.
    - intros (sq & ms & m & n & n2 & H). right. exists sq, ms, m.
      repeat split; try tauto. exists n, n2. tauto. }
  destruct (filterSafe_total color cands) as [safe Hs].
  { intros c Hin. apply Hcand in Hin. now apply (isCandidate_wf gs color c Hwf). }
  rewrite Hs.
  destruct (kingInCheck_total gs (proj1 Hwf) color) as [chk Hk]. rewrite Hk.
  exists cands, safe, chk. split; auto. split.
  - intro c. rewrite (filterSafe_spec _ _ _ Hs c), Hcand. tauto.
  - split; auto. now destruct chk.
Qed.



Lemma pawnOnA3_wfGame : wfGame pawnOnA3.
Proof. split; [reflexivity|discriminate]. Qed.



(** A move that ends the game carries a message. *)
Lemma performMove_winner_message (gs : GameState) (a b : SquareId) (n : GameState) :
  performMove gs a b = Some n -> winner gs = None ->
  truthy (message n) = false -> winner n = None.
Proof.
  intros Hmove Hw Hmsg.
  destruct (performMove_cases _ _ _ _ Hmove) as [[-> _]|[(msg & Hin & -> & _)|Hacc]]; auto.
  destruct Hacc as (sFrom & to & c & legal & _ & _ & _ & _ & _ & _ & _ & _ & Happ).
  destruct (applyMove_inv _ _ _ _ _ Happ) as (win & _ & ->).
  destruct win as [[w r]|].
  - simpl in Hmsg. discriminate.
  - cbn [withWin]. destruct (settled_fields gs a to c) as (_ & _ & -> & _). exact Hw.
Qed.

Lemma isCandidate_no_winner (gs : GameState) (color : Color) (c : Candidate) :
  winner gs = None -> isCandidate gs color c -> winner (cand_next c) = None.
Proof.
  intros Hw (sq & ms & m & n & n2 & _ & _ & _ & _ & Hn & Hn2 & Hmsg & ->). simpl.
  destruct (resolveForAi_keeps _ _ _ Hn2) as (-> & Hm & _).
  rewrite Hm in Hmsg.
  eapply performMove_winner_message; eauto.
Qed.





(** ** Checkmate *)

Lemma applied_accepted (gs : GameState) (a b : SquareId) (gs' : GameState) :
  applied gs a b gs' <-> accepted gs a b gs'.
Proof.
  split.
  - intros [Hmove Hn].
    destruct (performMove_cases _ _ _ _ Hmove) as [[-> _]|[(msg & _ & -> & _)|Hacc]]; auto.
    + lia.
    + simpl in Hn. lia.
  - intros Hacc. split; [|apply (accepted_effects _ _ _ _ Hacc)].
    destruct Hacc as (sFrom & to & c & legal & Hw & Hfrom & Hto & Hc & Hturn & Hlegal & Hex & Hk & Happ).
    unfold performMove. rewrite Hw, Hfrom, Hc, Hlegal, Hto.
    subst c. rewrite color_eqb_refl. simpl.
    assert (Hil : isLegalDestination legal (Some to)
                  = Some (existsb (sameCoord (file to) (rank to)) legal)).
    { destruct legal; reflexivity. }
    rewrite Hil, Hex. simpl. now rewrite Hk.
Qed.

Lemma legalMovesForPiece_board (g1 g2 : GameState) (sq : Square) :
  board g1 = board g2 -> legalMovesForPiece g1 sq = legalMovesForPiece g2 sq.
Proof. intro H. unfold legalMovesForPiece. now rewrite H. Qed.

Lemma attackedBy_board (g1 g2 : GameState) (f r : Z) (c : Color) :
  board g1 = board g2 -> attackedBy g1 f r c -> attackedBy g2 f r c.
Proof.
  intros H (sq & ms & Hin & Hp & Hms & Hm). exists sq, ms.
  rewrite <- H, <- (legalMovesForPiece_board g1 g2 sq H). auto.
Qed.

Lemma attackedFrom_true (gs : GameState) (f r : Z) (c : Color) (sqs : list Square) :
  attackedFrom gs f r c sqs = Some true ->
  exists sq ms, In sq sqs /\ isPieceOf c (occupant sq) = true
                /\ legalMovesForPiece gs sq = Some ms /\ In (f, r) ms.
Proof.
  induction sqs as [|sq rest IH]; simpl; [discriminate|].
  destruct (isPieceOf c (occupant sq)) eqn:Hp.
  - destruct (legalMovesForPiece gs sq) as [ms|] eqn:Hms; [|discriminate].
    destruct (existsb (sameCoord f r) ms) eqn:Hex.
    + intros _. exists sq, ms. repeat split; auto. now apply sameCoord_In.
    + intro H. destruct (IH H) as (sq' & ms' & Hin & Hrest). exists sq', ms'. auto.
  - intro H. destruct (IH H) as (sq' & ms' & Hin & Hrest). exists sq', ms'. auto.
Qed.

Lemma attackedFrom_complete (gs : GameState) (f r : Z) (c : Color) (sqs : list Square) :
  wfBoard (board gs) -> incl sqs (board gs) ->
  (exists sq ms, In sq sqs /\ isPieceOf c (occupant sq) = true
                 /\ legalMovesForPiece gs sq = Some ms /\ In (f, r) ms) ->
  attackedFrom gs f r c sqs = Some true.
Proof.
  intros Hwf. induction sqs as [|sq rest IH]; intros Hincl (sq0 & ms0 & Hin & Hp & Hms & Hm).
  - destruct Hin.
  - assert (Hrest : incl rest (board gs)) by (intros x Hx; apply Hincl; now right).
    simpl. destruct Hin as [<-|Hin].
    + rewrite Hp, Hms. apply sameCoord_In in Hm. now rewrite Hm.
    + destruct (isPieceOf c (occupant sq)) eqn:Hp'.
      * destruct (piece_moves_total gs Hwf sq (Hincl _ (or_introl eq_refl))
                    (isPieceOf_not_null _ _ Hp')) as (ms & -> & _).
        destruct (existsb (sameCoord f r) ms); auto.
        apply IH; auto. exists sq0, ms0. auto.
      * apply IH; auto. exists sq0, ms0. auto.
Qed.

Lemma isSquareAttacked_iff (gs : GameState) (f r : Z) (c : Color) :
  wfBoard (board gs) ->
  (isSquareAttacked gs f r c = Some true <-> attackedBy gs f r c).
Proof.
  intro Hwf. unfold isSquareAttacked, attackedBy. split.
  - apply attackedFrom_true.
  - apply attackedFrom_complete; auto. apply incl_refl.
Qed.

Lemma safeMoves_none (gs : GameState) (c : Color) (ms : list Coord) :
  wfBoard (board gs) ->
  (forall m, In m ms -> attackedBy gs (fst m) (snd m) c) ->
  safeMoves gs c ms = Some [].
Proof.
  intros Hwf. induction ms as [|m rest IH]; intro H; simpl; auto.
  rewrite (proj2 (isSquareAttacked_iff gs (fst m) (snd m) c Hwf) (H m (or_introl eq_refl))).
  rewrite IH; auto. intros m' Hm'. apply H. now right.
Qed.

Lemma checkmated_true (gs : GameState) (lastMover opponent : Color) (ksq : Square) :
  wfBoard (board gs) ->
  getC (kingOnBoard gs) opponent = true ->
  findKingSquare gs opponent = Some ksq ->
  attackedBy gs (file ksq) (rank ksq) lastMover ->
  noEscape gs ksq lastMover ->
  checkmated gs lastMover opponent = Some true.
Proof.
  intros Hwf Hflag Hk Hatt Hno. unfold checkmated.
  rewrite Hflag, Hk.
  rewrite (proj2 (isSquareAttacked_iff gs _ _ lastMover Hwf) Hatt).
  destruct (findKingSquare_In gs _ _ Hk) as [Hin Hking].
  destruct (isKingOf_inv _ _ Hking) as (born & loan & ret & Ho).
  destruct (piece_moves_total gs Hwf ksq Hin ltac:(congruence)) as (ms & Hms & _).
  rewrite Hms.
  rewrite (safeMoves_none gs lastMover ms Hwf); auto.
  intros m Hm. eapply Hno; eauto.
Qed.

Lemma recordCapture_none (g : GameState) (target : Occupant) :
  (forall tc born loan ret, target <> Piece tc K born loan ret) ->
  snd (recordCapture g target) = None.
Proof.
  intro H. unfold recordCapture. destruct target as [| |tc [] born loan ret]; simpl; auto.
  exfalso. eapply H; eauto.
Qed.

(** C6 (amended).  After an applied move that did not itself capture a
    king: if the opponent's king is on the board (its flag is set and
    [findKingSquare] finds it), is attacked by a piece of the mover, and
    every destination of the king's own move set is attacked by the mover,
    the resulting state has the mover as winner, for the reason
    "checkmate".  Only the king's own destinations enter the condition. *)
Theorem checkmate_detected (gs : GameState) (fromId toId : SquareId)
    (gs' : GameState) (ksq : Square) :
  wfBoard (board gs) ->
  applied gs fromId toId gs' ->
  (forall tc, ~ kingAt gs toId tc) ->
  getC (kingOnBoard gs') (other (turn gs)) = true ->
  findKingSquare gs' (other (turn gs)) = Some ksq ->
  attackedBy gs' (file ksq) (rank ksq) (turn gs) ->
  noEscape gs' ksq (turn gs) ->
  winner gs' = Some (turn gs) /\ winReason gs' = Some "checkmate".
Proof.
  intros Hwf Happ Hnok Hflag Hk Hatt Hno.
  apply applied_accepted in Happ.
  destruct Happ as (sFrom & to & c & legal & Hw & Hfrom & Hto & Hc & Hturn & Hlegal & Hex & Hkc & Happ).
  destruct (applyMove_inv _ _ _ _ _ Happ) as (win & Hwin & ->).
  set (st := settled gs fromId to c) in *.
  destruct (settled_fields gs fromId to c) as (Ht & Hm & Hws & _ & _ & Hf). fold st in Ht, Hm, Hws, Hf.
  destruct (withWin_fields st win) as (Hb & _ & _ & _ & _ & _ & Hkb & _).
  assert (Hwfs : wfBoard (board st)) by (eapply frame_wf; eauto).
  rewrite recordCapture_none in Hwin.
  2:{ intros tc born loan ret E. apply (Hnok tc). exists to, born, loan, ret. auto. }
  assert (Hmate : checkmated st (turn gs) (other (turn gs)) = Some true).
  { apply (checkmated_true st (turn gs) (other (turn gs)) ksq); auto.
    - now rewrite <- Hkb.
    - unfold findKingSquare in *. now rewrite <- Hb.
    - eapply attackedBy_board; eauto.
    - intros ms m Hms Hin. apply (attackedBy_board (withWin st win) st); auto.
      eapply Hno; eauto. rewrite <- Hms. now apply legalMovesForPiece_board. }
  unfold detectWin in Hwin. rewrite Ht in Hwin.
  replace (other (other (turn gs))) with (turn gs) in Hwin by (now destruct (turn gs)).
  rewrite Hmate in Hwin. injection Hwin as <-. simpl. auto.
Qed.


Ltac attacked_by_computation :=
  apply isSquareAttacked_iff; [vm_compute; reflexivity|vm_compute; reflexivity].

Ltac no_escape_by_computation :=
  let ms := fresh "ms" in let m := fresh "m" in
  let Hms := fresh "Hms" in let Hin := fresh "Hin" in
  intros ms m Hms Hin; vm_compute in Hms; injection Hms as <-;
  repeat (destruct Hin as [<-|Hin]; [attacked_by_computation|]); destruct Hin.

Lemma checkmate_detected_witness :
  exists gs',
    performMove mateInOne "h5" "a5" = Some gs'
    /\ winner gs' = Some white /\ winReason gs' = Some "checkmate".
Proof.
  eexists. split; [vm_compute; reflexivity|].
  apply (checkmate_detected mateInOne "h5" "a5" _
           (mkSquare "a3" 0 3 None (Piece black K 1 false None))).
  - vm_compute; reflexivity.
  - split; vm_compute; reflexivity.
  - intros tc (t & born & loan & ret & Ht & Ho).
    vm_compute in Ht. injection Ht as <-. discriminate Ho.
  - vm_compute; reflexivity.
  - vm_compute; reflexivity.
  - attacked_by_computation.
  - no_escape_by_computation.
Defined.

(** C6 as stated fails when the move captures a king: the queen takes the
    black king on e4, the sweep makes a new black king on a3, attacked and
    without escape, and the game is won for the reason "king captured". *)
Lemma checkmate_detected_counterexample :
  exists gs' ksq,
    applied kingTakenKingBorn "e5" "e4" gs'
    /\ getC (kingOnBoard gs') (other (turn kingTakenKingBorn)) = true
    /\ findKingSquare gs' (other (turn kingTakenKingBorn)) = Some ksq
    /\ attackedBy gs' (file ksq) (rank ksq) (turn kingTakenKingBorn)
    /\ noEscape gs' ksq (turn kingTakenKingBorn)
    /\ winner gs' = Some white
    /\ winReason gs' = Some "king captured"
    /\ winReason gs' <> Some "checkmate".
Proof.
  eexists. eexists.
  split; [split; vm_compute; reflexivity|].
  split; [vm_compute; reflexivity|].
  split; [vm_compute; reflexivity|].
  split; [attacked_by_computation|].
  split; [no_escape_by_computation|].
  split; [reflexivity|]. split; [reflexivity|discriminate].
Qed.


(** ** King protection *)

Lemma getC_setC_same {A} (x : PerColor A) (c : Color) (v : A) : getC (setC x c v) c = v.
Proof. now destruct c. Qed.

Lemma getC_setC_other {A} (x : PerColor A) (c c' : Color) (v : A) :
  c <> c' -> getC (setC x c v) c' = getC x c'.
Proof. destruct c, c'; simpl; congruence. Qed.

Lemma getC_setC {A} (x : PerColor A) (c c' : Color) (v : A) :
  getC (setC x c v) c' = if color_eqb c c' then v else getC x c'.
Proof. now destruct c, c'. Qed.






Lemma settled_quietus (gs : GameState) (fromId : SquareId) (to : Square) (c : Color) :
  quietus (settled gs fromId to c) = quietus (fst (recordCapture gs (occupant to))).
Proof.
  unfold settled, landed. cbn [quietus setMessage setSelected].
  match goal with |- quietus (applyAutoTransforms ?g) = _ =>
    destruct (applyAutoTransforms_rules g) as [Hr _]; rewrite (rulesOf_quietus _ _ Hr) end.
  match goal with |- quietus (expireLoans ?g) = _ =>
    destruct (expireLoans_rules g) as [Hr2 _]; rewrite (rulesOf_quietus _ _ Hr2) end.
  unfold advanceTurn. cbn [quietus setMoveNumber setTurn].
  match goal with |- quietus (markPromotion ?g to) = _ =>
    destruct (markPromotion_fields g to) as (_ & _ & _ & _ & _ & -> & _) end.
  match goal with |- quietus (landTransform ?g to) = _ =>
    destruct (landTransform_fields g to) as (_ & Hr4); rewrite (rulesOf_quietus _ _ Hr4) end.
  match goal with |- quietus (landLoan ?g to) = _ =>
    destruct (landLoan_fields g to) as (_ & Hr3 & _); rewrite (rulesOf_quietus _ _ Hr3) end.
  reflexivity.
Qed.






(** The scenario of section 8: the white metamorph becomes a king on e6 at
    move 7; at move number 8 the black queen may not take it; two moves
    later, at move number 10, it takes it and black wins. *)
Example king_protection_scenario :
  exists s1 s2 s3,
    playMoves kingInTheMaking [("e7", "e6")] = Some s1
    /\ occupantOf (board s1) "e6" = Piece white K 7 false None
    /\ getC (kingProtectedUntil s1) white = Some (moveNumber s1)
    /\ performMove s1 "e3" "e6"
       = Some (setMessage s1 (Some "That king is protected this turn."))
    /\ playMoves s1 [("a2", "a3"); ("h8", "h7")] = Some s2
    /\ moveNumber s2 = moveNumber s1 + 2
    /\ performMove s2 "e3" "e6" = Some s3
    /\ winner s3 = Some black /\ winReason s3 = Some "king captured"
    /\ occupantOf (board s3) "e6" = Piece black Q 1 false None.
Proof.
  do 3 eexists.
  split; [vm_compute; reflexivity|].
  split; [vm_compute; reflexivity|].
  split; [vm_compute; reflexivity|].
  split; [vm_compute; reflexivity|].
  split; [vm_compute; reflexivity|].
  split; [vm_compute; reflexivity|].
  split; [vm_compute; reflexivity|].
  repeat split.
Qed.


(** ** Expiry of loans *)

Lemma sameFrame_find (R : Square -> Square -> Prop) (x : SquareId) (l l' : list Square) :
  Forall2 (sameFrame R) l l' ->
  match find (hasId x) l, find (hasId x) l' with
  | Some s0, Some s1 => sameFrame R s0 s1
  | None, None => True
  | _, _ => False
  end.
Proof.
  induction 1 as [|s s' l l' [Hfr HR] Hrest IH]; cbn [find]; auto.
  assert (E : hasId x s' = hasId x s).
  { unfold hasId. unfold frame in Hfr. now injection Hfr as -> _ _ _. }
  rewrite E. destruct (hasId x s); auto. split; auto.
Qed.

Lemma sameFrame_occupantOf (R : Square -> Square -> Prop) (x : SquareId)
    (l l' : list Square) (s0 : Square) :
  Forall2 (sameFrame R) l l' -> find (hasId x) l = Some s0 ->
  exists s1, find (hasId x) l' = Some s1 /\ frame s1 = frame s0 /\ R s0 s1.
Proof.
  intros H Hs. pose proof (sameFrame_find R x l l' H) as Hf. rewrite Hs in Hf.
  destruct (find (hasId x) l') as [s1|]; [|destruct Hf].
  exists s1. destruct Hf. auto.
Qed.

(** The expiry of a square reads only the turn and the move number. *)
Lemma expireSquare_snd (g g1 : GameState) (sq : Square) :
  turn g1 = turn g -> moveNumber g1 = moveNumber g ->
  snd (expireSquare g1 sq) = snd (expireSquare g sq).
Proof.
  intros Ht Hm. unfold expireSquare. rewrite Ht, Hm.
  destruct (occupant sq) as [|c|c t born [|] [ret|]]; auto.
  destruct (color_eqb c (other (turn g)) && (moveNumber g >=? ret)); auto.
  destruct (negb (inZone (rank sq))); auto.
Qed.

Lemma expireSquares_pointwise (g : GameState) (sqs : list Square) :
  forall g1, turn g1 = turn g -> moveNumber g1 = moveNumber g ->
    Forall2 (sameFrame (fun s0 s1 => s1 = snd (expireSquare g s0)))
      sqs (snd (expireSquares g1 sqs)).
Proof.
  induction sqs as [|sq rest IH]; intros g1 Ht Hm; cbn [expireSquares fst snd].
  - constructor.
  - pose proof (expireSquare_snd g g1 sq Ht Hm) as E.
    destruct (expireSquare_rules g1 sq) as (Hr & _ & _ & Hfr).
    destruct (expireSquare g1 sq) as [g2 sq']. cbn [fst snd] in *.
    specialize (IH g2).
    destruct (expireSquares g2 rest) as [g3 rest']. cbn [fst snd] in *.
    constructor.
    + split; auto.
    + apply IH.
      * rewrite (rulesOf_turn _ _ Hr). exact Ht.
      * rewrite (rulesOf_moveNumber _ _ Hr). exact Hm.
Qed.

(** Once cleared by an expiry, a king flag stays cleared to the end of the
    loop. *)
Lemma expireSquares_flag (g : GameState) (c : Color) (sqs : list Square) :
  forall g1, turn g1 = turn g -> moveNumber g1 = moveNumber g ->
    getC (kingOnBoard g1) c = false
    \/ (exists sq born n, In sq sqs /\ occupant sq = Piece c K born true (Some n)
                          /\ loanOver g c n /\ inZone (rank sq) = false) ->
    getC (kingOnBoard (fst (expireSquares g1 sqs))) c = false.
Proof.
  induction sqs as [|sq rest IH]; intros g1 Ht Hm H; cbn [expireSquares fst snd].
  - destruct H as [H|(sq & born & n & [] & _)]. exact H.
  - destruct (expireSquare_rules g1 sq) as (Hr & _).
    assert (Hstep : getC (kingOnBoard g1) c = false
                    \/ (exists born n, occupant sq = Piece c K born true (Some n)
                                       /\ loanOver g c n /\ inZone (rank sq) = false) ->
                    getC (kingOnBoard (fst (expireSquare g1 sq))) c = false).
    { unfold expireSquare. rewrite Ht, Hm.
      intros [Hf|(born & n & Ho & [Hc Hn] & Hz)].
      - destruct (occupant sq) as [|c0|c0 t born [|] [ret|]]; auto.
        destruct (color_eqb c0 (other (turn g)) && (moveNumber g >=? ret)); auto.
        destruct (negb (inZone (rank sq))); auto.
        destruct (type_eqb t K); auto. cbn. rewrite getC_setC.
        destruct (color_eqb c0 c); auto.
      - rewrite Ho, Hz. rewrite <- Hc, color_eqb_refl.
        assert (E : (moveNumber g >=? n) = true) by (apply Z.geb_le; lia).
        rewrite E. cbn. apply getC_setC_same. }
    destruct (expireSquare g1 sq) as [g2 sq']. cbn [fst snd] in *.
    specialize (IH g2).
    destruct (expireSquares g2 rest) as [g3 rest']. cbn [fst snd] in *.
    apply IH.
    + rewrite (rulesOf_turn _ _ Hr). exact Ht.
    + rewrite (rulesOf_moveNumber _ _ Hr). exact Hm.
    + destruct H as [H|(sq0 & born & n & [<-|Hin] & Hrest)].
      * left. apply Hstep. now left.
      * left. apply Hstep. right. exists born, n. exact Hrest.
      * right. exists sq0, born, n. auto.
Qed.

(** What the expiry step does to a loan piece. *)
Lemma expireLoans_loan (g : GameState) (x : SquareId) (s : Square)
    (c : Color) (t : PieceType) (born n : Z) :
  find (hasId x) (board g) = Some s ->
  occupant s = Piece c t born true (Some n) ->
  (loanOver g c n -> inZone (rank s) = false ->
   occupantOf (board (expireLoans g)) x = Null
   /\ (t = K -> getC (kingOnBoard (expireLoans g)) c = false))
  /\ (loanOver g c n -> inZone (rank s) = true ->
      occupantOf (board (expireLoans g)) x = Piece c t born false None)
  /\ (~ loanOver g c n ->
      occupantOf (board (expireLoans g)) x = Piece c t born true (Some n)).
Proof.
  intros Hs Ho.
  pose proof (expireSquares_pointwise g (board g) g eq_refl eq_refl) as Hpt.
  pose proof (expireSquares_flag g c (board g) g eq_refl eq_refl) as Hflag.
  unfold expireLoans. destruct (expireSquares g (board g)) as [g' b'].
  cbn [fst snd board setBoard kingOnBoard] in *.
  destruct (sameFrame_occupantOf _ x _ _ s Hpt Hs) as (s1 & Hs1 & _ & ->).
  unfold occupantOf. rewrite Hs1. unfold expireSquare. rewrite Ho.
  unfold loanOver.
  split; [|split].
  - intros [Hc Hn] Hz. rewrite Hz. rewrite <- Hc, color_eqb_refl.
    assert (E : (moveNumber g >=? n) = true) by (apply Z.geb_le; lia).
    rewrite E. cbn. split; auto.
    intros ->. apply Hflag. right. exists s, born, n.
    split; [eapply find_some; eauto|]. unfold loanOver. auto.
  - intros [Hc Hn] Hz. rewrite Hz. rewrite <- Hc, color_eqb_refl.
    assert (E : (moveNumber g >=? n) = true) by (apply Z.geb_le; lia).
    rewrite E. reflexivity.
  - intro Hnot.
    destruct (color_eqb c (other (turn g)) && (moveNumber g >=? n)) eqn:E; [|exact Ho].
    exfalso. apply Hnot. apply andb_true_iff in E as [E1 E2].
    apply color_eqb_eq in E1. apply Z.geb_le in E2. split; auto.
Qed.

(** The sweep leaves the squares outside ranks 3-6 as they are. *)
Lemma sweepSquares_outside (sqs : list Square) :
  forall g, Forall2 (sameFrame (fun s0 s1 => inZone (rank s0) = false -> s1 = s0))
              sqs (snd (sweepSquares g sqs)).
Proof.
  induction sqs as [|sq rest IH]; intro g; cbn [sweepSquares fst snd].
  - constructor.
  - destruct (transformSquare_rules g sq) as [_ Hfr].
    assert (Hout : inZone (rank sq) = false -> snd (transformSquare g sq) = sq).
    { intro Hz. unfold transformSquare. now rewrite Hz. }
    destruct (transformSquare g sq) as [g1 sq']. cbn [fst snd] in *.
    specialize (IH g1).
    destruct (sweepSquares g1 rest) as [g2 rest']. cbn [fst snd] in *.
    constructor; auto. split; auto.
Qed.

Lemma frame_rank (s s' : Square) : frame s' = frame s -> rank s' = rank s /\ id s' = id s.
Proof. unfold frame. intro H. injection H as -> _ -> _. auto. Qed.

(** After an applied move, a square outside ranks 3-6 holds what the
    expiry step left there. *)
Lemma settled_outside (gs : GameState) (a : SquareId) (to : Square) (c : Color)
    (x : SquareId) (s6 : Square) :
  find (hasId x) (board (landed gs a to c)) = Some s6 ->
  inZone (rank s6) = false ->
  occupantOf (board (settled gs a to c)) x
  = occupant (snd (expireSquare (advanceTurn (landed gs a to c)) s6)).
Proof.
  intros Hs Hz. unfold settled. cbn [board setMessage setSelected].
  set (n6 := advanceTurn (landed gs a to c)).
  assert (Hs6 : find (hasId x) (board n6) = Some s6) by exact Hs.
  pose proof (expireSquares_pointwise n6 (board n6) n6 eq_refl eq_refl) as Hpt.
  unfold expireLoans. destruct (expireSquares n6 (board n6)) as [g7 b7].
  cbn [fst snd] in Hpt.
  destruct (sameFrame_occupantOf _ x _ _ s6 Hpt Hs6) as (s7 & Hs7 & Hfr7 & E7).
  unfold applyAutoTransforms, deepClone. cbn [board setBoard].
  pose proof (sweepSquares_outside b7 (setBoard g7 b7)) as Hsw.
  destruct (sweepSquares (setBoard g7 b7) b7) as [g8 b8]. cbn [fst snd board setBoard] in *.
  destruct (sameFrame_occupantOf _ x _ _ s7 Hsw Hs7) as (s8 & Hs8 & _ & E8).
  unfold occupantOf. rewrite Hs8, E8, E7; auto.
  destruct (frame_rank _ _ Hfr7) as [-> _]. exact Hz.
Qed.

Lemma landed_find_other (gs : GameState) (a : SquareId) (to : Square) (c : Color)
    (x : SquareId) :
  x <> a -> x <> id to ->
  find (hasId x) (board (landed gs a to c)) = find (hasId x) (board gs).
Proof.
  intros Ha Hb. unfold landed.
  destruct (markPromotion_fields
              (landTransform
                 (landLoan (moveOccupant (fst (recordCapture gs (occupant to))) a (id to) c)
                    to) to) to) as (-> & _).
  assert (Hne : forall i o l, i <> x -> find (hasId x) (setOccupantAt i o l) = find (hasId x) l).
  { intros i o l Hi. rewrite find_hasId_set. apply String.eqb_neq in Hi. now rewrite Hi. }
  unfold landTransform.
  match goal with |- context [landLoan ?g to] => set (n2 := g) end.
  assert (H2 : find (hasId x) (board n2) = find (hasId x) (board gs)).
  { subst n2. unfold moveOccupant. cbn [board setLastMove setBoard].
    rewrite !Hne by auto. f_equal. apply recordCapture_fields. }
  assert (H3 : find (hasId x) (board (landLoan n2 to)) = find (hasId x) (board gs)).
  { unfold landLoan.
    destruct (occupantOf (board n2) (id to)) as [|c0|c0 t born [|] ret]; auto.
    destruct (inZone (rank to)); auto. cbn [board setBoard]. rewrite Hne; auto. }
  destruct (blueSymbol to) as [n|]; auto.
  destruct (inZone (rank to)); auto.
  match goal with |- context [transformOccupant ?g ?p n ?o] =>
    pose proof (transformOccupant_rules g p n o) as [_ Hb4];
    destruct (transformOccupant g p n o) as [g4 o4] end.
  cbn [fst snd board setBoard] in *. rewrite Hne by auto. now rewrite Hb4.
Qed.

Lemma landed_find_to (gs : GameState) (a : SquareId) (sFrom to : Square) (c : Color) :
  a <> id to ->
  find (hasId a) (board gs) = Some sFrom ->
  find (hasId (id to)) (board gs) = Some to ->
  inZone (rank to) = false ->
  find (hasId (id to)) (board (landed gs a to c))
  = Some (withOccupant to (occupant sFrom)).
Proof.
  intros Hne Hfrom Hto Hz. unfold landed.
  destruct (markPromotion_fields
              (landTransform
                 (landLoan (moveOccupant (fst (recordCapture gs (occupant to))) a (id to) c)
                    to) to) to) as (-> & _).
  unfold landTransform, landLoan. rewrite Hz.
  assert (E : forall g : GameState,
             match occupantOf (board g) (id to) with
             | Piece c0 t born true _ => g
             | _ => g
             end = g).
  { intro g. destruct (occupantOf (board g) (id to)) as [| |? ? ? [|] ?]; reflexivity. }
  rewrite E.
  assert (E2 : forall g : GameState, match blueSymbol to with Some _ => g | None => g end = g).
  { intro g. now destruct (blueSymbol to). }
  rewrite E2.
  unfold moveOccupant. cbn [board setLastMove setBoard].
  destruct (recordCapture_fields gs (occupant to)) as (-> & _).
  rewrite !find_hasId_set.
  apply String.eqb_neq in Hne. rewrite Hne, String.eqb_refl, Hto.
  unfold occupantOf. rewrite Hfrom. reflexivity.
Qed.


Lemma expire_after_move (gs : GameState) (a : SquareId) (to : Square) (c0 : Color)
    (sq : Square) (c : Color) (t : PieceType) (born n : Z) :
  occupant sq = Piece c t born true (Some n) ->
  inZone (rank sq) = false ->
  let r := occupant (snd (expireSquare (advanceTurn (landed gs a to c0)) sq)) in
  (c = turn gs -> n <= moveNumber gs + 1 -> r = Null)
  /\ (c <> turn gs \/ moveNumber gs + 1 < n -> r = Piece c t born true (Some n)).
Proof.
  intros Ho Hz. cbv zeta. unfold expireSquare. rewrite Ho, Hz.
  destruct (landed_fields gs a to c0) as (Ht & Hm & _).
  unfold advanceTurn. cbn [turn moveNumber setMoveNumber setTurn].
  rewrite Ht, Hm.
  replace (other (other (turn gs))) with (turn gs) by (now destruct (turn gs)).
  split.
  - intros -> Hn. rewrite color_eqb_refl.
    assert (E : (moveNumber gs + 1 >=? n) = true) by (apply Z.geb_le; lia).
    rewrite E. reflexivity.
  - intros [Hc|Hn].
    + apply color_eqb_neq in Hc. rewrite Hc. exact Ho.
    + assert (E : (moveNumber gs + 1 >=? n) = false).
      { destruct (moveNumber gs + 1 >=? n) eqn:E; auto. apply Z.geb_le in E. lia. }
      rewrite E, andb_false_r. exact Ho.
Qed.

(** C5 (amended).  For an occupant on loan ([mustReturn] true,
    [returnByTurn = n]) of colour [c] on a square [x]:
    - the expiry step of a move, run in the state whose turn has just
      passed, touches neither stock nor quietus; if the loan is over (the
      colour that has just moved is [c], and the move number is at least
      [n]) it removes the occupant when the square is outside ranks 3-6,
      clearing [kingOnBoard[c]] for a king, and only clears the loan flags
      when the square is inside; otherwise it leaves the occupant alone;
    - hence, standing outside ranks 3-6 while another unit moves, the
      occupant is gone after a move of its own colour that brings the move
      number to [n] or more, and is still there, flags intact, after a move
      of the other colour or one that leaves the move number below [n];
    - and moving itself to a square outside ranks 3-6, it is gone on
      landing if the move number reached is [n] or more.
    The occupant is thus destroyed on the first move of its own colour that
    brings the move number to [n] or beyond, whichever number that is. *)
Theorem loan_expiry (g : GameState) (x : SquareId) (s : Square)
    (c : Color) (t : PieceType) (born n : Z) :
  find (hasId x) (board g) = Some s ->
  occupant s = Piece c t born true (Some n) ->
  (stock (expireLoans g) = stock g /\ quietus (expireLoans g) = quietus g
   /\ (loanOver g c n -> inZone (rank s) = false ->
       occupantOf (board (expireLoans g)) x = Null
       /\ (t = K -> getC (kingOnBoard (expireLoans g)) c = false))
   /\ (loanOver g c n -> inZone (rank s) = true ->
       occupantOf (board (expireLoans g)) x = Piece c t born false None)
   /\ (~ loanOver g c n ->
       occupantOf (board (expireLoans g)) x = Piece c t born true (Some n)))
  /\ (forall a b g',
        applied g a b g' -> x <> a -> x <> b -> inZone (rank s) = false ->
        (c = turn g -> n <= moveNumber g + 1 -> occupantOf (board g') x = Null)
        /\ (c <> turn g \/ moveNumber g + 1 < n ->
            occupantOf (board g') x = Piece c t born true (Some n)))
  /\ (forall b to g',
        applied g x b g' -> x <> b ->
        find (hasId b) (board g) = Some to -> inZone (rank to) = false ->
        (n <= moveNumber g + 1 -> occupantOf (board g') b = Null)
        /\ (moveNumber g + 1 < n ->
            occupantOf (board g') b = Piece c t born true (Some n))).
Proof.
  intros Hs Ho. split; [|split].
  - destruct (expireLoans_rules g) as (Hr & Hst & _).
    split; [exact Hst|]. split; [exact (rulesOf_quietus _ _ Hr)|].
    exact (expireLoans_loan g x s c t born n Hs Ho).
  - intros a b g' Happ Ha Hb Hz.
    apply applied_accepted in Happ.
    destruct Happ as (sFrom & to & c0 & legal & _ & _ & Hto & _ & _ & _ & _ & _ & Happ).
    destruct (applyMove_inv _ _ _ _ _ Happ) as (win & _ & ->).
    destruct (withWin_fields (settled g a to c0) win) as (-> & _).
    pose proof (find_hasId_id _ _ _ Hto) as Hid.
    assert (Hl : find (hasId x) (board (landed g a to c0)) = Some s).
    { rewrite landed_find_other; auto. congruence. }
    rewrite (settled_outside g a to c0 x s Hl Hz).
    exact (expire_after_move g a to c0 s c t born n Ho Hz).
  - intros b to g' Happ Hb Hto Hz.
    apply applied_accepted in Happ.
    destruct Happ as (sFrom & to' & c0 & legal & _ & Hfrom & Hto' & Hc & Hturn & _ & _ & _ & Happ).
    rewrite Hs in Hfrom. injection Hfrom as <-.
    rewrite Hto in Hto'. injection Hto' as <-.
    rewrite Ho in Hc. cbn in Hc. injection Hc as <-.
    destruct (applyMove_inv _ _ _ _ _ Happ) as (win & _ & ->).
    destruct (withWin_fields (settled g x to c) win) as (-> & _).
    pose proof (find_hasId_id _ _ _ Hto) as Hid. subst b.
    assert (Hl : find (hasId (id to)) (board (landed g x to c))
                 = Some (withOccupant to (occupant s))).
    { apply landed_find_to; auto. }
    rewrite (settled_outside g x to c (id to) _ Hl Hz).
    destruct (expire_after_move g x to c (withOccupant to (occupant s)) c t born n Ho Hz)
      as [H1 H2].
    split.
    + intro Hn. apply H1; auto.
    + intro Hn. apply H2. now right.
Qed.

Lemma loan_expiry_witness :
  (stock (expireLoans loanDue) = stock loanDue
   /\ quietus (expireLoans loanDue) = quietus loanDue
   /\ (loanOver loanDue white 6 -> inZone 1 = false ->
       occupantOf (board (expireLoans loanDue)) "a1" = Null
       /\ (Q = K -> getC (kingOnBoard (expireLoans loanDue)) white = false))
   /\ (loanOver loanDue white 6 -> inZone 1 = true ->
       occupantOf (board (expireLoans loanDue)) "a1" = Piece white Q 5 false None)
   /\ (~ loanOver loanDue white 6 ->
       occupantOf (board (expireLoans loanDue)) "a1" = Piece white Q 5 true (Some 6)))
  /\ (forall a b g',
        applied loanDue a b g' -> "a1" <> a -> "a1" <> b -> inZone 1 = false ->
        (white = turn loanDue -> 6 <= moveNumber loanDue + 1 ->
         occupantOf (board g') "a1" = Null)
        /\ (white <> turn loanDue \/ moveNumber loanDue + 1 < 6 ->
            occupantOf (board g') "a1" = Piece white Q 5 true (Some 6)))
  /\ (forall b to g',
        applied loanDue "a1" b g' -> "a1" <> b ->
        find (hasId b) (board loanDue) = Some to -> inZone (rank to) = false ->
        (6 <= moveNumber loanDue + 1 -> occupantOf (board g') b = Null)
        /\ (moveNumber loanDue + 1 < 6 ->
            occupantOf (board g') b = Piece white Q 5 true (Some 6))).
Proof.
  apply (loan_expiry loanDue "a1"
           (mkSquare "a1" 0 1 None (Piece white Q 5 true (Some 6)))
           white Q 5 6).
  - vm_compute. reflexivity.
  - reflexivity.
Defined.

(** C5 as stated fails on the move number: the white queen on loan with
    [returnByTurn = 6] is still on a1 after the (black) move that brings the
    move number to 6, and is removed by the (white) move that brings it to 7. *)
Lemma loan_expiry_counterexample :
  exists s1 s2,
    applied loanDue "h2" "h3" s1
    /\ moveNumber s1 = 6
    /\ occupantOf (board s1) "a1" = Piece white Q 5 true (Some 6)
    /\ applied s1 "h8" "h7" s2
    /\ moveNumber s2 = 7
    /\ occupantOf (board s2) "a1" = Null.
Proof.
  do 2 eexists.
  split; [split; vm_compute; reflexivity|].
  split; [reflexivity|]. split; [reflexivity|].
  split; [split; vm_compute; reflexivity|].
  split; reflexivity.
Qed.


(** ** Stock conservation *)

Lemma getT_setT (s : ChrysalisStock) (t t' : PieceType) (v : Z) :
  getT (setT s t v) t' = if type_eqb t t' then v else getT s t'.
Proof. now destruct t, t'. Qed.

Lemma getCT_setCT (x : PerColor ChrysalisStock) (c c' : Color) (t t' : PieceType) (v : Z) :
  getCT (setCT x c t v) c' t'
  = if color_eqb c c' && type_eqb t t' then v else getCT x c' t'.
Proof.
  unfold getCT, setCT. rewrite getC_setC.
  destruct (color_eqb c c') eqn:E; auto.
  apply color_eqb_eq in E. subst c'. apply getT_setT.
Qed.

Lemma occCount_range (c : Color) (t : PieceType) (o : Occupant) :
  0 <= occCount c t o <= 1.
Proof.
  unfold occCount. destruct o as [| |c' t' born [|] ret]; try lia.
  destruct (color_eqb c' c && type_eqb t' t); lia.
Qed.

Lemma nonLoanCount_nonneg (b : list Square) (c : Color) (t : PieceType) :
  0 <= nonLoanCount b c t.
Proof.
  induction b as [|s b IH]; simpl; [lia|].
  pose proof (occCount_range c t (occupant s)). lia.
Qed.

Lemma cap_pos (t : PieceType) : 1 <= cap t.
Proof. destruct t; cbn; lia. Qed.

(** One transformation moves a unit between the stock and the board: it
    never pushes a stock above its cap, and it keeps every holding when the
    piece transformed is counted in a holding within its cap. *)
Lemma transformOccupant_stock (g : GameState) (p : Z) (n : PieceType) (o : Occupant) :
  let g' := fst (transformOccupant g p n o) in
  let o' := snd (transformOccupant g p n o) in
  ((forall c t, getCT (stock g) c t <= cap t) ->
   forall c t, getCT (stock g') c t <= cap t)
  /\ (isLoanPiece o = false -> isLoanPiece o' = false)
  /\ (isLoanPiece o = false ->
      (forall c t, getCT (stock g) c t + occCount c t o <= cap t) ->
      forall c t, getCT (stock g') c t + occCount c t o'
                  = getCT (stock g) c t + occCount c t o).
Proof.
  unfold transformOccupant.
  destruct o as [|c0|c0 cur born loan ret]; cbn [fst snd]; auto.
  - destruct (getCT (stock g) c0 n >? 0) eqn:Hpos; cbn [fst snd]; auto.
    assert (Hst : stock (if type_eqb n K
                         then setKingProtectedUntil
                                (setKingOnBoard
                                   (setStock g (setCT (stock g) c0 n (getCT (stock g) c0 n - 1)))
                                   (setC (kingOnBoard
                                            (setStock g (setCT (stock g) c0 n (getCT (stock g) c0 n - 1))))
                                      c0 true))
                                (setC (kingProtectedUntil
                                         (setStock g (setCT (stock g) c0 n (getCT (stock g) c0 n - 1))))
                                   c0 (Some p))
                         else setStock g (setCT (stock g) c0 n (getCT (stock g) c0 n - 1)))
                  = setCT (stock g) c0 n (getCT (stock g) c0 n - 1)).
    { destruct (type_eqb n K); reflexivity. }
    rewrite Hst. split; [|split; [reflexivity|]].
    + intros Hb c t. rewrite getCT_setCT.
      destruct (color_eqb c0 c && type_eqb n t) eqn:E; auto.
      apply andb_true_iff in E as [E1 E2].
      apply color_eqb_eq in E1. apply type_eqb_eq in E2. subst.
      specialize (Hb c t). lia.
    + intros _ _ c t. rewrite getCT_setCT. cbn [occCount].
      destruct (color_eqb c0 c && type_eqb n t) eqn:E; [|lia].
      apply andb_true_iff in E as [E1 E2].
      apply color_eqb_eq in E1. apply type_eqb_eq in E2. subst. lia.
  - destruct (negb (type_eqb cur n) && (getCT (stock g) c0 n >? 0)) eqn:Hgo;
      cbn [fst snd]; auto.
    apply andb_true_iff in Hgo as [Hne Hpos].
    apply negb_true_iff in Hne.
    set (s1 := setCT (stock g) c0 cur
                 (Z.min (getT INITIAL_COUNTS cur) (getCT (stock g) c0 cur + 1))).
    set (s2 := setCT s1 c0 n (getCT s1 c0 n - 1)).
    match goal with
    | |- context [stock ?G] =>
        match G with
        | (if type_eqb n K then _ else _) =>
            assert (Hst : stock G = s2)
              by (destruct (type_eqb cur K && negb (type_eqb n K)), (type_eqb n K);
                  reflexivity)
        end
    end.
    rewrite Hst.
    assert (Hs1n : getCT s1 c0 n = getCT (stock g) c0 n).
    { subst s1. rewrite getCT_setCT, color_eqb_refl, Hne. reflexivity. }
    apply Z.gtb_lt in Hpos.
    split; [|split; [reflexivity|]].
    + intros Hb c t. subst s2. rewrite getCT_setCT, Hs1n.
      destruct (color_eqb c0 c && type_eqb n t) eqn:E.
      * apply andb_true_iff in E as [E1 E2].
        apply color_eqb_eq in E1. apply type_eqb_eq in E2. subst.
        specialize (Hb c t). lia.
      * subst s1. rewrite getCT_setCT.
        destruct (color_eqb c0 c && type_eqb cur t) eqn:E'; auto.
        apply andb_true_iff in E' as [E1 E2].
        apply color_eqb_eq in E1. apply type_eqb_eq in E2. subst.
        unfold cap. lia.
    + intros Hl Hb c t. destruct loan; [discriminate|].
      subst s2. rewrite getCT_setCT, Hs1n. cbn [occCount].
      destruct (color_eqb c0 c) eqn:Ec; cbn [andb].
      2:{ subst s1. rewrite getCT_setCT, Ec. cbn [andb]. lia. }
      apply color_eqb_eq in Ec. subst c0.
      specialize (Hb c cur). cbn [occCount] in Hb.
      rewrite color_eqb_refl, (proj2 (type_eqb_eq cur cur) eq_refl) in Hb. cbn [andb] in Hb.
      destruct (type_eqb n t) eqn:En.
      * apply type_eqb_eq in En. subst t. rewrite Hne. lia.
      * subst s1. rewrite getCT_setCT, color_eqb_refl. cbn [andb].
        destruct (type_eqb cur t) eqn:Ecur; [|lia].
        apply type_eqb_eq in Ecur. subst t. unfold cap in Hb. lia.
Qed.

Lemma transformSquare_stock (g : GameState) (sq : Square) :
  let g' := fst (transformSquare g sq) in
  let sq' := snd (transformSquare g sq) in
  ((forall c t, getCT (stock g) c t <= cap t) ->
   forall c t, getCT (stock g') c t <= cap t)
  /\ (isLoanPiece (occupant sq) = false -> isLoanPiece (occupant sq') = false)
  /\ (isLoanPiece (occupant sq) = false ->
      (forall c t, getCT (stock g) c t + occCount c t (occupant sq) <= cap t) ->
      forall c t, getCT (stock g') c t + occCount c t (occupant sq')
                  = getCT (stock g) c t + occCount c t (occupant sq)).
Proof.
  unfold transformSquare.
  destruct (negb (inZone (rank sq))); cbn [fst snd]; auto.
  destruct (blueSymbol sq) as [n|]; cbn [fst snd]; auto.
  pose proof (transformOccupant_stock g (moveNumber g) n (occupant sq)) as H.
  destruct (transformOccupant g (moveNumber g) n (occupant sq)) as [g1 o1].
  cbn [fst snd occupant withOccupant] in *. exact H.
Qed.


(** The sweep over squares free of loans, whose holdings are within the
    caps, keeps the holdings. *)
Lemma sweepSquares_holding (sqs : list Square) :
  forall g,
    noLoans sqs ->
    (forall c t, getCT (stock g) c t + nonLoanCount sqs c t <= cap t) ->
    noLoans (snd (sweepSquares g sqs))
    /\ forall c t,
         getCT (stock (fst (sweepSquares g sqs))) c t
         + nonLoanCount (snd (sweepSquares g sqs)) c t
         = getCT (stock g) c t + nonLoanCount sqs c t.
Proof.
  induction sqs as [|sq rest IH]; intros g Hno Hb; cbn [sweepSquares fst snd].
  - split; auto.
  - inversion Hno as [|? ? Hsq Hrest]; subst.
    destruct (transformSquare_stock g sq) as (_ & Hl & Hh).
    assert (Hb1 : forall c t, getCT (stock g) c t + occCount c t (occupant sq) <= cap t).
    { intros c t. specialize (Hb c t). cbn [nonLoanCount] in Hb.
      pose proof (nonLoanCount_nonneg rest c t). lia. }
    specialize (Hh Hsq Hb1). specialize (Hl Hsq).
    destruct (transformSquare g sq) as [g1 sq']. cbn [fst snd] in *.
    assert (Hb2 : forall c t, getCT (stock g1) c t + nonLoanCount rest c t <= cap t).
    { intros c t. specialize (Hb c t). specialize (Hh c t). cbn [nonLoanCount] in Hb.
      pose proof (occCount_range c t (occupant sq')). lia. }
    destruct (IH g1 Hrest Hb2) as [Hno' Heq].
    destruct (sweepSquares g1 rest) as [g2 rest']. cbn [fst snd] in *.
    split; [constructor; auto|].
    intros c t. cbn [nonLoanCount]. specialize (Heq c t). specialize (Hh c t). lia.
Qed.

Lemma expireSquares_noLoans (sqs : list Square) :
  forall g, noLoans sqs -> expireSquares g sqs = (g, sqs).
Proof.
  induction sqs as [|sq rest IH]; intros g Hno; cbn [expireSquares]; auto.
  inversion Hno as [|? ? Hsq Hrest]; subst.
  assert (E : expireSquare g sq = (g, sq)).
  { unfold expireSquare. destruct (occupant sq) as [| |c t born [|] [ret|]]; auto;
      discriminate. }
  rewrite E, (IH g Hrest). reflexivity.
Qed.

Lemma find_occCount (i : SquareId) (b : list Square) (s : Square)
    (c : Color) (t : PieceType) :
  find (hasId i) b = Some s -> occCount c t (occupant s) <= nonLoanCount b c t.
Proof.
  induction b as [|x b IH]; cbn [find nonLoanCount]; [discriminate|].
  destruct (hasId i x).
  - intros [= ->]. pose proof (nonLoanCount_nonneg b c t). lia.
  - intro H. specialize (IH H). pose proof (occCount_range c t (occupant x)). lia.
Qed.

Lemma setOccupantAt_count (i : SquareId) (o : Occupant) (b : list Square) (s : Square)
    (c : Color) (t : PieceType) :
  find (hasId i) b = Some s ->
  nonLoanCount (setOccupantAt i o b) c t
  = nonLoanCount b c t - occCount c t (occupant s) + occCount c t o.
Proof.
  induction b as [|x b IH]; cbn [find setOccupantAt nonLoanCount]; [discriminate|].
  destruct (hasId i x).
  - intros [= ->]. cbn [nonLoanCount occupant withOccupant]. lia.
  - intro H. cbn [nonLoanCount]. rewrite (IH H). lia.
Qed.

Lemma setOccupantAt_noLoans (i : SquareId) (o : Occupant) (b : list Square) :
  isLoanPiece o = false -> noLoans b -> noLoans (setOccupantAt i o b).
Proof.
  intros Ho. induction 1 as [|x b Hx Hb IH]; cbn [setOccupantAt]; [constructor|].
  destruct (hasId i x); constructor; auto.
Qed.

Lemma find_noLoans (i : SquareId) (b : list Square) (s : Square) :
  noLoans b -> find (hasId i) b = Some s -> isLoanPiece (occupant s) = false.
Proof.
  intros Hno Hs. apply find_some in Hs as [Hin _].
  unfold noLoans in Hno. rewrite Forall_forall in Hno. auto.
Qed.


Lemma geometryDest_not_origin (z : bool) (b : list Square) (color : Color)
    (type : PieceType) (f0 r0 : Z) (m : Coord) :
  geometryDest z b color type f0 r0 m -> m <> (f0, r0).
Proof.
  destruct type; cbn [geometryDest];
    unfold stepDest, slideDest, pawnDest, knightOffset, adjacentOffset,
           straightDir, diagonalDir.
  - intros (df & dr & Hoff & -> & _) [= E1 E2]. lia.
  - intros (df & dr & k & Hdir & Hk & -> & _) [= E1 E2].
    assert (Hc : (df = 1 \/ df = 0 \/ df = -1) /\ (dr = 1 \/ dr = 0 \/ dr = -1)) by lia.
    destruct Hc as [[->|[->| ->]] [->|[->| ->]]]; lia.
  - intros (df & dr & k & Hdir & Hk & -> & _) [= E1 E2].
    assert (Hc : (df = 1 \/ df = 0 \/ df = -1) /\ (dr = 1 \/ dr = 0 \/ dr = -1)) by lia.
    destruct Hc as [[->|[->| ->]] [->|[->| ->]]]; lia.
  - intros (df & dr & k & Hdir & Hk & -> & _) [= E1 E2].
    assert (Hc : (df = 1 \/ df = 0 \/ df = -1) /\ (dr = 1 \/ dr = 0 \/ dr = -1)) by lia.
    destruct Hc as [[->|[->| ->]] [->|[->| ->]]]; lia.
  - intros (df & dr & Hoff & -> & _) [= E1 E2]. lia.
  - intros (_ & Hr & _) ->. cbn [snd] in Hr. destruct color; cbn in Hr; lia.
Qed.

(** A legal destination is never the square the occupant stands on. *)
Lemma accepted_distinct (gs : GameState) (a b : SquareId) (gs' : GameState) :
  wfBoard (board gs) -> accepted gs a b gs' -> a <> b.
Proof.
  intros Hwf (sFrom & to & c & legal & _ & Hfrom & Hto & Hc & _ & Hlegal & Hex & _) ->.
  rewrite Hfrom in Hto. injection Hto as <-.
  apply sameCoord_In in Hex.
  pose proof (find_some _ _ Hfrom) as [Hin _].
  destruct (wf_place (board gs) Hwf sFrom Hin) as [Hb _].
  unfold legalMovesFor in Hlegal.
  destruct (occupant sFrom) as [|c0|c0 t born loan ret] eqn:Ho; [discriminate| |].
  - unfold legalMovesForMetamorph in Hlegal. rewrite Ho in Hlegal. cbn in Hlegal.
    destruct (negb (inBounds (file sFrom) (rank sFrom + pawnDir c0)));
      [injection Hlegal as <-; destruct Hex|].
    destruct (find (atCoord (file sFrom) (rank sFrom + pawnDir c0)) (board gs)) as [d|];
      [|discriminate].
    injection Hlegal as <-.
    destruct (occupant d); cbn [In] in Hex; try contradiction.
    destruct Hex as [E|[]].
    injection E as E. destruct c0; cbn in E; lia.
  - destruct (legalMovesForPiece_spec gs sFrom c0 t born loan ret Hwf Hb Ho)
      as (ms & Hms & Hin').
    rewrite Hlegal in Hms. injection Hms as <-.
    apply Hin' in Hex. now apply geometryDest_not_origin in Hex.
Qed.

(** A capture leaves the stock and the board to the later phases. *)
Lemma recordCapture_quiet (gs : GameState) (target : Occupant) :
  quietus (fst (recordCapture gs target)) = quietus gs ->
  forall c t, occCount c t target = 0.
Proof.
  unfold recordCapture.
  destruct target as [|c0|tc ty born loan ret]; cbn [fst]; auto.
  intro H. exfalso.
  assert (E : getCT (quietus (fst (if type_eqb ty K
               then (setKingOnBoard
                       (setQuietus gs (setCT (quietus gs) tc ty (getCT (quietus gs) tc ty + 1)))
                       (setC (kingOnBoard
                                (setQuietus gs (setCT (quietus gs) tc ty (getCT (quietus gs) tc ty + 1))))
                          tc false), Some tc)
               else (setQuietus gs (setCT (quietus gs) tc ty (getCT (quietus gs) tc ty + 1)),
                     None)))) tc ty
             = getCT (quietus gs) tc ty + 1).
  { destruct (type_eqb ty K); cbn [fst quietus setKingOnBoard setQuietus];
      rewrite getCT_setCT, color_eqb_refl, (proj2 (type_eqb_eq ty ty) eq_refl); reflexivity. }
  rewrite H in E. lia.
Qed.

(** The landing phases of a move keep the board free of loans; every
    holding loses exactly the captured piece. *)
Lemma landed_balanced (gs : GameState) (a : SquareId) (sFrom to : Square) (c0 : Color) :
  find (hasId a) (board gs) = Some sFrom ->
  find (hasId (id to)) (board gs) = Some to ->
  a <> id to ->
  noLoans (board gs) ->
  (forall c t, holding gs c t <= cap t) ->
  let l := landed gs a to c0 in
  noLoans (board l)
  /\ forall c t, holding l c t = holding gs c t - occCount c t (occupant to).
Proof.
  intros Hfrom Hto Hne Hno Hcap. unfold landed.
  destruct (recordCapture_fields gs (occupant to)) as (Hb1 & _ & _ & _ & _ & Hs1 & _).
  set (n1 := fst (recordCapture gs (occupant to))) in *.
  set (mover := occupant sFrom).
  assert (Hmover : isLoanPiece mover = false) by (eapply find_noLoans; eauto).
  set (n2 := moveOccupant n1 a (id to) c0).
  assert (Hocc : occupantOf (board n1) a = mover).
  { unfold occupantOf. now rewrite Hb1, Hfrom. }
  assert (Hb2 : board n2
                = setOccupantAt a Null (setOccupantAt (id to) mover (board gs))).
  { subst n2. unfold moveOccupant. cbn [board setLastMove setBoard].
    now rewrite Hocc, Hb1. }
  assert (Hst2 : stock n2 = stock gs) by exact Hs1.
  assert (Hfa : find (hasId a) (setOccupantAt (id to) mover (board gs)) = Some sFrom).
  { rewrite find_hasId_set.
    assert (E : String.eqb (id to) a = false) by (apply String.eqb_neq; congruence).
    now rewrite E. }
  assert (Hfind2 : find (hasId (id to)) (board n2) = Some (withOccupant to mover)).
  { rewrite Hb2, !find_hasId_set.
    apply String.eqb_neq in Hne. rewrite Hne, String.eqb_refl, Hto. reflexivity. }
  assert (Hcnt2 : forall c t, nonLoanCount (board n2) c t
                              = nonLoanCount (board gs) c t - occCount c t (occupant to)).
  { intros c t. rewrite Hb2.
    rewrite (setOccupantAt_count a Null _ sFrom c t Hfa).
    rewrite (setOccupantAt_count (id to) mover _ to c t Hto).
    fold mover. cbn [occCount]. lia. }
  assert (Hno2 : noLoans (board n2)).
  { rewrite Hb2. apply setOccupantAt_noLoans; [reflexivity|].
    apply setOccupantAt_noLoans; auto. }
  assert (Ho2 : occupantOf (board n2) (id to) = mover).
  { unfold occupantOf. now rewrite Hfind2. }
  assert (H3 : landLoan n2 to = n2).
  { unfold landLoan. rewrite Ho2.
    destruct mover as [| |? ? ? [|] ?]; auto. discriminate. }
  rewrite H3.
  assert (H4 : noLoans (board (landTransform n2 to))
               /\ forall c t, holding (landTransform n2 to) c t
                              = holding gs c t - occCount c t (occupant to)).
  { unfold landTransform.
    assert (Hkeep : noLoans (board n2)
                    /\ forall c t, holding n2 c t
                                   = holding gs c t - occCount c t (occupant to)).
    { split; auto. intros c t. unfold holding. rewrite Hst2, Hcnt2. lia. }
    destruct (blueSymbol to) as [n|]; auto.
    destruct (inZone (rank to)); auto.
    rewrite Ho2.
    pose proof (transformOccupant_stock n2 (moveNumber n2 + 1) n mover) as (_ & Hl & Hh).
    pose proof (transformOccupant_rules n2 (moveNumber n2 + 1) n mover) as [_ Hb4].
    assert (Hle : forall c t, getCT (stock n2) c t + occCount c t mover <= cap t).
    { intros c t. specialize (Hcap c t). unfold holding in Hcap. rewrite Hst2.
      pose proof (find_occCount a (board gs) sFrom c t Hfrom). fold mover in H. lia. }
    specialize (Hl Hmover). specialize (Hh Hmover Hle).
    destruct (transformOccupant n2 (moveNumber n2 + 1) n mover) as [g4 o4].
    cbn [fst snd board setBoard stock] in *. rewrite Hb4.
    split; [apply setOccupantAt_noLoans; auto|].
    intros c t. unfold holding. cbn [board setBoard stock].
    rewrite (setOccupantAt_count (id to) o4 _ _ c t Hfind2).
    cbn [occupant withOccupant]. specialize (Hh c t). rewrite Hcnt2. rewrite Hst2 in Hh. lia. }
  destruct H4 as [Hno4 Hh4].
  destruct (markPromotion_fields (landTransform n2 to) to)
    as (Hb5 & _ & _ & _ & Hs5 & _).
  cbv zeta. rewrite Hb5. split; auto.
  intros c t. unfold holding. rewrite Hb5, Hs5. apply Hh4.
Qed.

(** Expiry and sweep on a board free of loans keep every holding that is
    within its cap. *)
Lemma settle_balanced (l : GameState) :
  noLoans (board l) ->
  (forall c t, holding l c t <= cap t) ->
  let g := applyAutoTransforms (expireLoans (advanceTurn l)) in
  noLoans (board g) /\ forall c t, holding g c t = holding l c t.
Proof.
  intros Hno Hcap. cbv zeta.
  assert (E : expireLoans (advanceTurn l) = advanceTurn l).
  { unfold expireLoans.
    rewrite (expireSquares_noLoans (board (advanceTurn l)) (advanceTurn l) Hno).
    destruct l; reflexivity. }
  rewrite E. unfold applyAutoTransforms, deepClone.
  pose proof (sweepSquares_holding (board (advanceTurn l)) (advanceTurn l) Hno Hcap)
    as [Hno' Hh].
  destruct (sweepSquares (advanceTurn l) (board (advanceTurn l))) as [g b].
  cbn [fst snd board setBoard stock] in *.
  split; auto.
Qed.


(** A move keeps a well-formed board free of loans; no holding grows, and
    none changes when the move captures nothing. *)
Lemma move_balanced (gs : GameState) (a b : SquareId) (gs' : GameState) :
  wfBoard (board gs) -> noLoans (board gs) ->
  (forall c t, holding gs c t <= cap t) ->
  performMove gs a b = Some gs' ->
  wfBoard (board gs') /\ noLoans (board gs')
  /\ (forall c t, holding gs' c t <= holding gs c t)
  /\ (quietus gs' = quietus gs -> forall c t, holding gs' c t = holding gs c t).
Proof.
  intros Hwf Hno Hle Hmove.
  destruct (performMove_cases _ _ _ _ Hmove) as [[-> _]|[(msg & _ & -> & _)|Hacc]];
    [(split; [|split; [|split]]); auto; intros; try reflexivity; apply Z.le_refl..|].
  pose proof (accepted_distinct gs a b gs' Hwf Hacc) as Hne.
  destruct (accepted_effects _ _ _ _ Hacc) as (_ & _ & Hf & _).
  destruct Hacc as (sFrom & to & c0 & legal & _ & Hfrom & Hto & _ & _ & _ & _ & _ & Happ).
  destruct (applyMove_inv _ _ _ _ _ Happ) as (win & _ & ->).
  destruct (withWin_fields (settled gs a to c0) win) as (Hb & _ & _ & _ & Hs & Hqw & _).
  pose proof (find_hasId_id _ _ _ Hto) as Hid. rewrite <- Hid in Hto, Hne.
  destruct (landed_balanced gs a sFrom to c0 Hfrom Hto Hne Hno Hle) as [Hnol Hhl].
  assert (Hlel : forall c t, holding (landed gs a to c0) c t <= cap t).
  { intros c t. rewrite Hhl. specialize (Hle c t).
    pose proof (occCount_range c t (occupant to)). lia. }
  destruct (settle_balanced (landed gs a to c0) Hnol Hlel) as [Hnos Hhs].
  assert (Hh : forall c t, holding (withWin (settled gs a to c0) win) c t
                           = holding gs c t - occCount c t (occupant to)).
  { intros c t. unfold holding in *. rewrite Hb, Hs.
    unfold settled. cbn [board stock setMessage setSelected].
    rewrite Hhs. apply Hhl. }
  split; [eapply frame_wf; eauto|].
  split; [rewrite Hb; unfold settled; cbn [board setMessage setSelected]; exact Hnos|].
  split.
  - intros c t. rewrite Hh. pose proof (occCount_range c t (occupant to)). lia.
  - intros Hq c t. rewrite Hqw, settled_quietus in Hq.
    rewrite Hh, (recordCapture_quiet gs (occupant to) Hq c t). lia.
Qed.




(** The opening board holds metamorphs only: no piece, hence no loan. *)
Lemma createInitialBoard_pieces (rnd : nat -> Z) :
  exists b,
    createInitialBoard rnd = Some b
    /\ wfBoard b /\ noLoans b /\ forall c t, nonLoanCount b c t = 0.
Proof.
  unfold createInitialBoard.
  pose proof (shuffle_length rnd initialBag) as Hlen.
  remember (shuffle rnd initialBag) as bag eqn:Hbag. clear Hbag.
  change (List.length initialBag) with 32%nat in Hlen.
  list_of_length Hlen.
  eexists; split; [vm_compute; reflexivity|].
  split; [vm_compute; reflexivity|].
  split; [repeat (constructor; [reflexivity|]); constructor|].
  intros [] []; vm_compute; reflexivity.
Qed.

Lemma initialGame_balanced (rnd : nat -> Z) (g0 : GameState) :
  initialGame rnd = Some g0 ->
  wfBoard (board g0) /\ noLoans (board g0) /\ forall c t, holding g0 c t = cap t.
Proof.
  destruct (createInitialBoard_pieces rnd) as (b & Hb & Hwf & Hno & Hcnt).
  unfold initialGame. rewrite Hb. intros [= <-].
  cbn [board]. split; [|split]; auto.
  intros c t. unfold holding. cbn [board stock]. rewrite Hcnt.
  destruct c, t; reflexivity.
Qed.

Section FromTheOpening.
Variable rnd : nat -> Z.
Variable g0 : GameState.
Hypothesis Hinit : initialGame rnd = Some g0.

Lemma MoveRun_balanced (g : GameState) :
  MoveRun g0 g ->
  wfBoard (board g) /\ noLoans (board g) /\ forall c t, holding g c t <= cap t.
Proof.
  induction 1 as [|g g' a b _ IH Hmove].
  - destruct (initialGame_balanced rnd g0 Hinit) as (Hwf & Hno & Hh).
    split; [|split]; auto. intros c t. rewrite Hh. lia.
  - destruct IH as (Hwf & Hno & Hle).
    destruct (move_balanced g a b g' Hwf Hno Hle Hmove) as (Hwf' & Hno' & Hdec & _).
    split; [|split]; auto.
    intros c t. specialize (Hdec c t). specialize (Hle c t). lia.
Qed.



End FromTheOpening.





(** ** Whole games: what every reachable state keeps *)

Lemma applyPromotionChoice_rules (st : GameState) (t : PieceType) (st' : GameState) :
  applyPromotionChoice st t = Some st' ->
  turn st' = turn st /\ moveNumber st' = moveNumber st
  /\ winner st' = winner st /\ winReason st' = winReason st.
Proof.
  unfold applyPromotionChoice, deepClone.
  destruct (promotion st) as [[sq c]|]; [|intros [= <-]; auto].
  destruct (negb (promotionAvailable st c t)); [intros [= <-]; auto|].
  match goal with
  | |- context [updateFirst ?p ?g ?b] => destruct (updateFirst p g b) as [b'|]; [|discriminate]
  end.
  intros [= <-].
  match goal with
  | |- context [applyAutoTransforms ?g] =>
      destruct (applyAutoTransforms_rules g) as [Hr _]; unfold rulesOf in Hr;
      injection Hr as Ht Hn _ Hw Hwr _ _ _ _ _
  end.
  rewrite Ht, Hn, Hw, Hwr.
  destruct (getCT (quietus st) c t >? 0), (type_eqb t K); simpl; auto.
Qed.

Lemma applyPromotionChoice_wfGame (st : GameState) (t : PieceType) (st' : GameState) :
  wfGame st -> applyPromotionChoice st t = Some st' -> wfGame st'.
Proof.
  intros [Hwf Hp] H.
  destruct (applyPromotionChoice_keeps st t st' H) as (_ & _ & Hf & Hpr).
  split; [eapply frame_wf; eauto|].
  intros sq c E. destruct Hpr as [Hpr|Hpr]; [congruence|].
  apply (Hp sq c). congruence.
Qed.

Lemma initialGame_wfGame (rnd : nat -> Z) (g0 : GameState) :
  initialGame rnd = Some g0 -> wfGame g0.
Proof.
  intro H. destruct (initialGame_balanced rnd g0 H) as (Hwf & _).
  split; auto.
  unfold initialGame in H. destruct (createInitialBoard rnd); [|discriminate].
  injection H as <-. discriminate.
Qed.

Lemma Run_frame (g0 g : GameState) :
  Run g0 g -> wfGame g0 -> wfGame g /\ map frame (board g) = map frame (board g0).
Proof.
  induction 1 as [|g g' a b _ IH Hmove|g g' t _ IH Hp]; intro H0; auto.
  - destruct (IH H0) as [Hwf Hf].
    split; [eapply performMove_wfGame; eauto|].
    destruct (performMove_cases _ _ _ _ Hmove) as [[-> _]|[(msg & _ & -> & _)|Hacc]]; auto.
    destruct (accepted_effects _ _ _ _ Hacc) as (_ & _ & Hf' & _). congruence.
  - destruct (IH H0) as [Hwf Hf].
    split; [eapply applyPromotionChoice_wfGame; eauto|].
    destruct (applyPromotionChoice_keeps g t g' Hp) as (_ & _ & Hf' & _). congruence.
Qed.

(** X1. From a new game, whatever moves and promotion choices are made (the
    rejected ones included), the board keeps its 64 squares and its blue
    symbols, a pending promotion stands on a square of the grid, and so
    [performMove] on identifiers of the grid and [applyPromotionChoice]
    always return a state: no [find(...)!] of lines 223-230 and 351 ever
    reads [undefined]. *)
Theorem play_never_throws (rnd : nat -> Z) (g0 g : GameState)
    (Hinit : initialGame rnd = Some g0) (Hrun : Run g0 g) :
  wfBoard (board g)
  /\ map frame (board g) = map frame (board g0)
  /\ (forall a b, validId a -> validId b -> exists g', performMove g a b = Some g')
  /\ (forall t, exists g', applyPromotionChoice g t = Some g').
Proof.
  destruct (Run_frame g0 g Hrun (initialGame_wfGame rnd g0 Hinit)) as [Hwf Hf].
  split; [apply Hwf|]. split; [exact Hf|]. split.
  - intros a b Ha Hb. apply performMove_total; auto. apply Hwf.
  - intro t. now apply applyPromotionChoice_total.
Qed.

Lemma play_never_throws_witness :
  exists g0 g1,
    initialGame (fun _ => 0) = Some g0
    /\ performMove g0 "e7" "e6" = Some g1
    /\ map frame (board g1) = map frame (board g0)
    /\ exists g2, performMove g1 "a1" "h8" = Some g2.
Proof.
  eexists. eexists.
  split; [vm_compute; reflexivity|].
  split; [vm_compute; reflexivity|].
  refine ((fun H => conj (proj1 (proj2 H))
                      (proj1 (proj2 (proj2 H)) "a1" "h8" _ _))
            (play_never_throws (fun _ => 0) _ _ _ _)).
  - vm_compute. tauto.
  - vm_compute. tauto.
  - vm_compute; reflexivity.
  - eapply (@run_move _ _ _ "e7" "e6"); [apply run_start | vm_compute; reflexivity].
Defined.

Lemma nonneg_setCT (x : PerColor ChrysalisStock) (c : Color) (t : PieceType) (v : Z) :
  (forall c' t', 0 <= getCT x c' t') -> 0 <= v ->
  forall c' t', 0 <= getCT (setCT x c t v) c' t'.
Proof.
  intros Hx Hv c' t'. rewrite getCT_setCT.
  destruct (color_eqb c c' && type_eqb t t'); auto.
Qed.

Lemma transformOccupant_nonneg (g : GameState) (p : Z) (n : PieceType) (o : Occupant) :
  (forall c t, 0 <= getCT (stock g) c t) ->
  forall c t, 0 <= getCT (stock (fst (transformOccupant g p n o))) c t.
Proof.
  intros Hg. unfold transformOccupant.
  destruct o as [|c0|c0 cur born loan ret]; cbn [fst]; auto.
  - destruct (getCT (stock g) c0 n >? 0) eqn:E; cbn [fst]; auto.
    apply Z.gtb_lt in E.
    destruct (type_eqb n K); cbn [stock setKingProtectedUntil setKingOnBoard setStock];
      apply nonneg_setCT; auto; lia.
  - destruct (negb (type_eqb cur n) && (getCT (stock g) c0 n >? 0)) eqn:E;
      cbn [fst]; auto.
    apply andb_true_iff in E as [_ E]. apply Z.gtb_lt in E.
    assert (H1 : forall c t,
               0 <= getCT (setCT (stock g) c0 cur
                             (Z.min (getT INITIAL_COUNTS cur) (getCT (stock g) c0 cur + 1)))
                      c t).
    { apply nonneg_setCT; auto. specialize (Hg c0 cur).
      pose proof (cap_pos cur). unfold cap in *. lia. }
    assert (H2 : 0 <= getCT (setCT (stock g) c0 cur
                                (Z.min (getT INITIAL_COUNTS cur) (getCT (stock g) c0 cur + 1)))
                         c0 n - 1).
    { rewrite getCT_setCT. rewrite color_eqb_refl. cbn [andb].
      destruct (type_eqb cur n) eqn:Et.
      - specialize (Hg c0 cur). pose proof (cap_pos cur). unfold cap in *.
        apply type_eqb_eq in Et. subst n. lia.
      - lia. }
    destruct (type_eqb cur K && negb (type_eqb n K)), (type_eqb n K);
      cbn [stock setKingProtectedUntil setKingOnBoard setStock];
      apply nonneg_setCT; auto.
Qed.

Lemma sweepSquares_nonneg (sqs : list Square) :
  forall g, (forall c t, 0 <= getCT (stock g) c t) ->
    forall c t, 0 <= getCT (stock (fst (sweepSquares g sqs))) c t.
Proof.
  induction sqs as [|sq rest IH]; intros g Hg; cbn [sweepSquares fst]; auto.
  assert (H1 : forall c t, 0 <= getCT (stock (fst (transformSquare g sq))) c t).
  { unfold transformSquare.
    destruct (negb (inZone (rank sq))); cbn [fst]; auto.
    destruct (blueSymbol sq) as [n|]; cbn [fst]; auto.
    pose proof (transformOccupant_nonneg g (moveNumber g) n (occupant sq) Hg) as H.
    destruct (transformOccupant g (moveNumber g) n (occupant sq)). exact H. }
  destruct (transformSquare g sq) as [g1 sq']. cbn [fst] in H1.
  specialize (IH g1 H1).
  destruct (sweepSquares g1 rest) as [g2 rest']. exact IH.
Qed.

Lemma applyAutoTransforms_nonneg (g : GameState) :
  (forall c t, 0 <= getCT (stock g) c t) ->
  forall c t, 0 <= getCT (stock (applyAutoTransforms g)) c t.
Proof.
  intros Hg. unfold applyAutoTransforms, deepClone.
  pose proof (sweepSquares_nonneg (board g) g Hg) as H.
  destruct (sweepSquares g (board g)). exact H.
Qed.

Lemma recordCapture_nonneg (g : GameState) (target : Occupant) :
  (forall c t, 0 <= getCT (quietus g) c t) ->
  forall c t, 0 <= getCT (quietus (fst (recordCapture g target))) c t.
Proof.
  intros Hg. unfold recordCapture.
  destruct target as [| |tc ty born loan ret]; cbn [fst]; auto.
  destruct (type_eqb ty K); cbn [fst quietus setKingOnBoard setQuietus];
    apply nonneg_setCT; auto; specialize (Hg tc ty); lia.
Qed.

Lemma performMove_nonneg (gs : GameState) (a b : SquareId) (gs' : GameState) :
  (forall c t, 0 <= getCT (stock gs) c t /\ 0 <= getCT (quietus gs) c t) ->
  performMove gs a b = Some gs' ->
  forall c t, 0 <= getCT (stock gs') c t /\ 0 <= getCT (quietus gs') c t.
Proof.
  intros Hg Hmove.
  destruct (performMove_cases _ _ _ _ Hmove) as [[-> _]|[(msg & _ & -> & _)|Hacc]]; auto.
  destruct Hacc as (sFrom & to & c0 & legal & _ & _ & _ & _ & _ & _ & _ & _ & Happ).
  destruct (applyMove_inv _ _ _ _ _ Happ) as (win & _ & ->).
  destruct (withWin_fields (settled gs a to c0) win) as (_ & _ & _ & _ & Hs & Hq & _).
  intros c t. rewrite Hs, Hq, settled_quietus. split.
  - unfold settled. cbn [stock setMessage setSelected].
    apply applyAutoTransforms_nonneg.
    destruct (expireLoans_rules (advanceTurn (landed gs a to c0))) as (_ & -> & _).
    unfold advanceTurn. cbn [stock setMoveNumber setTurn].
    unfold landed.
    match goal with |- context [markPromotion ?g to] =>
      destruct (markPromotion_fields g to) as (_ & _ & _ & _ & -> & _) end.
    unfold landTransform.
    match goal with |- context [landLoan ?g to] =>
      destruct (landLoan_fields g to) as (_ & _ & Hs3 & _); set (n3 := landLoan g to) in * end.
    assert (Hb3 : forall c t, 0 <= getCT (stock n3) c t).
    { rewrite Hs3. unfold moveOccupant. cbn [stock setLastMove setBoard].
      destruct (recordCapture_fields gs (occupant to)) as (_ & _ & _ & _ & _ & -> & _).
      apply Hg. }
    destruct (blueSymbol to) as [n|]; auto.
    destruct (inZone (rank to)); auto.
    match goal with |- context [transformOccupant ?g ?p n ?o] =>
      pose proof (transformOccupant_nonneg g p n o Hb3) as Ht;
      destruct (transformOccupant g p n o) as [g4 o4] end.
    cbn [fst stock setBoard] in *. auto.
  - apply recordCapture_nonneg. apply Hg.
Qed.

Lemma applyPromotionChoice_nonneg (gs : GameState) (t : PieceType) (gs' : GameState) :
  (forall c t, 0 <= getCT (stock gs) c t /\ 0 <= getCT (quietus gs) c t) ->
  applyPromotionChoice gs t = Some gs' ->
  forall c t, 0 <= getCT (stock gs') c t /\ 0 <= getCT (quietus gs') c t.
Proof.
  intros Hg. unfold applyPromotionChoice, deepClone.
  destruct (promotion gs) as [[sq c]|]; [|now intros [= <-]].
  destruct (negb (promotionAvailable gs c t)); [now intros [= <-]|].
  match goal with
  | |- context [updateFirst ?p ?g ?b] => destruct (updateFirst p g b) as [b'|]; [|discriminate]
  end.
  intros [= <-] c' t'. split.
  - apply applyAutoTransforms_nonneg.
    destruct (getCT (quietus gs) c t >? 0), (type_eqb t K); apply Hg.
  - match goal with
    | |- context [applyAutoTransforms ?g] =>
        destruct (applyAutoTransforms_rules g) as [Hr _];
        rewrite (rulesOf_quietus _ _ Hr)
    end.
    destruct (getCT (quietus gs) c t >? 0) eqn:E, (type_eqb t K);
      cbn [quietus setPromotion setKingProtectedUntil setKingOnBoard setBoard setQuietus];
      try apply Hg;
      apply Z.gtb_lt in E; apply nonneg_setCT; try lia; apply Hg.
Qed.

(** X2. From a new game, whatever moves and promotion choices are made, no
    stock counter and no quietus counter ever goes below zero: every
    decrement of lines 201, 211, 282, 292 and 353 is guarded by [> 0]. *)
Theorem counters_never_negative (rnd : nat -> Z) (g0 g : GameState)
    (Hinit : initialGame rnd = Some g0) (Hrun : Run g0 g) :
  forall c t, 0 <= getCT (stock g) c t /\ 0 <= getCT (quietus g) c t.
Proof.
  induction Hrun as [|g g' a b _ IH Hmove|g g' t _ IH Hp].
  - unfold initialGame in Hinit. destruct (createInitialBoard rnd); [|discriminate].
    injection Hinit as <-. intros [] []; cbn; lia.
  - eapply performMove_nonneg; eauto.
  - eapply applyPromotionChoice_nonneg; eauto.
Qed.

Lemma counters_never_negative_witness :
  exists g0 g1,
    initialGame (fun _ => 0) = Some g0
    /\ performMove g0 "e7" "e6" = Some g1
    /\ 0 <= getCT (stock g1) white P /\ 0 <= getCT (quietus g1) white P.
Proof.
  eexists. eexists.
  split; [vm_compute; reflexivity|].
  split; [vm_compute; reflexivity|].
  refine (counters_never_negative (fun _ => 0) _ _ _ _ white P).
  - vm_compute; reflexivity.
  - eapply (@run_move _ _ _ "e7" "e6"); [apply run_start | vm_compute; reflexivity].
Defined.

(** X3. From a new game, whatever moves and promotion choices are made, the
    move number is at least 1 and the side to move is white exactly on the
    odd move numbers: lines 304-305 are the only writes to [turn] and
    [moveNumber] and always come together. *)
Theorem white_moves_on_odd_numbers (rnd : nat -> Z) (g0 g : GameState)
    (Hinit : initialGame rnd = Some g0) (Hrun : Run g0 g) :
  1 <= moveNumber g /\ (turn g = white <-> Z.odd (moveNumber g) = true).
Proof.
  induction Hrun as [|g g' a b _ IH Hmove|g g' t _ IH Hp].
  - unfold initialGame in Hinit. destruct (createInitialBoard rnd); [|discriminate].
    injection Hinit as <-. cbn. split; [lia|tauto].
  - destruct (performMove_cases _ _ _ _ Hmove) as [[-> _]|[(msg & _ & -> & _)|Hacc]]; auto.
    destruct (accepted_effects _ _ _ _ Hacc) as (Ht & Hn & _).
    destruct IH as [H1 Hpar]. rewrite Ht, Hn. split; [lia|].
    replace (moveNumber g + 1) with (Z.succ (moveNumber g)) by lia.
    rewrite Z.odd_succ, <- Z.negb_odd.
    destruct (turn g), (Z.odd (moveNumber g)); cbn; intuition congruence.
  - destruct (applyPromotionChoice_rules g t g' Hp) as (-> & -> & _). exact IH.
Qed.

Lemma white_moves_on_odd_numbers_witness :
  exists g0 g1,
    initialGame (fun _ => 0) = Some g0
    /\ performMove g0 "e7" "e6" = Some g1
    /\ moveNumber g1 = 2 /\ turn g1 = black
    /\ 1 <= moveNumber g1 /\ (turn g1 = white <-> Z.odd (moveNumber g1) = true).
Proof.
  eexists. eexists.
  split; [vm_compute; reflexivity|].
  split; [vm_compute; reflexivity|].
  split; [vm_compute; reflexivity|].
  split; [vm_compute; reflexivity|].
  refine (white_moves_on_odd_numbers (fun _ => 0) _ _ _ _).
  - vm_compute; reflexivity.
  - eapply (@run_move _ _ _ "e7" "e6"); [apply run_start | vm_compute; reflexivity].
Defined.

(** X4. Once a winner is set, nothing that follows changes the outcome:
    whatever moves and promotion choices are attempted, the winner, the
    reason, the side to move and the move number stay as they are (every
    move is answered with the state itself by line 222; a promotion choice
    never writes these fields). *)
Theorem game_over_is_final (g g' : GameState) (w : Color) :
  winner g = Some w -> Run g g' ->
  winner g' = Some w /\ winReason g' = winReason g
  /\ turn g' = turn g /\ moveNumber g' = moveNumber g.
Proof.
  intros Hw Hrun.
  induction Hrun as [|g1 g2 a b _ IH Hmove|g1 g2 t _ IH Hp]; auto.
  - destruct IH as (Hw1 & IH).
    unfold performMove in Hmove. rewrite Hw1 in Hmove. injection Hmove as <-. auto.
  - destruct IH as (Hw1 & Hr & Ht & Hn).
    destruct (applyPromotionChoice_rules g1 t g2 Hp) as (-> & -> & -> & ->). auto.
Qed.

Lemma game_over_is_final_witness :
  exists g',
    performMove wonWithoutMessage "a3" "a2" = Some g'
    /\ winner g' = Some black /\ winReason g' = winReason wonWithoutMessage
    /\ turn g' = turn wonWithoutMessage /\ moveNumber g' = moveNumber wonWithoutMessage.
Proof.
  eexists. split; [vm_compute; reflexivity|].
  apply (game_over_is_final wonWithoutMessage _ black).
  - reflexivity.
  - eapply (@run_move _ _ _ "a3" "a2"); [apply run_start | vm_compute; reflexivity].
Defined.


(** ** One move, square by square *)

Lemma withOccupant_same (s : Square) : withOccupant s (occupant s) = s.
Proof. now destruct s. Qed.

(** What one step of the expiry loop does to a square. *)
Lemma expireSquare_cases (g : GameState) (s : Square) :
  let s' := snd (expireSquare g s) in
  frame s' = frame s
  /\ (s' = s
      \/ (inZone (rank s) = false /\ isLoanPiece (occupant s) = true
          /\ occupant s' = Null)
      \/ (inZone (rank s) = true
          /\ exists c t born ret,
               occupant s = Piece c t born true ret
               /\ occupant s' = Piece c t born false None)).
Proof.
  unfold expireSquare.
  destruct (occupant s) as [|c0|c t born [|] [n|]] eqn:Ho; cbn [snd]; auto.
  destruct (color_eqb c (other (turn g)) && (moveNumber g >=? n)); cbn [snd]; auto.
  destruct (inZone (rank s)) eqn:Hz; cbn [negb snd]; split; try reflexivity.
  - right. right. split; auto. now exists c, t, born, (Some n).
  - right. left. auto.
Qed.

(** What one step of the sweep does to a square. *)
Lemma transformSquare_cases (g : GameState) (s : Square) :
  let s' := snd (transformSquare g s) in
  frame s' = frame s
  /\ (s' = s
      \/ (inZone (rank s) = true
          /\ exists n c,
               blueSymbol s = Some n
               /\ color_of (occupant s) = Some c
               /\ (forall born loan ret, occupant s <> Piece c n born loan ret)
               /\ occupant s' = Piece c n (moveNumber g) false None)).
Proof.
  unfold transformSquare.
  destruct (inZone (rank s)) eqn:Hz; cbn [negb snd]; auto.
  destruct (blueSymbol s) as [n|] eqn:Hs; cbn [snd]; auto.
  unfold transformOccupant.
  destruct (occupant s) as [|c0|c0 cur born loan ret] eqn:Ho.
  - cbn [snd]. split; auto. left. rewrite <- Ho. apply withOccupant_same.
  - destruct (getCT (stock g) c0 n >? 0); cbn [snd].
    + split; auto. right. split; auto. exists n, c0.
      repeat split; auto. discriminate.
    + split; auto. left. rewrite <- Ho. apply withOccupant_same.
  - destruct (negb (type_eqb cur n) && (getCT (stock g) c0 n >? 0)) eqn:E; cbn [snd].
    + split; auto. right. split; auto. exists n, c0.
      apply andb_true_iff in E as [E _]. apply negb_true_iff, type_eqb_neq in E.
      repeat split; auto. intros b1 l1 r1 [= ->]. now apply E.
    + split; auto. left. rewrite <- Ho. apply withOccupant_same.
Qed.

Lemma sweepSquares_moveNumber (sqs : list Square) :
  forall g, moveNumber (fst (sweepSquares g sqs)) = moveNumber g.
Proof.
  intros g. destruct (sweepSquares_rules sqs g) as [Hr _].
  exact (rulesOf_moveNumber _ _ Hr).
Qed.

(** Each square after the sweep is what one step of the sweep makes of it,
    at the move number of the state swept. *)
Lemma sweepSquares_pointwise (sqs : list Square) :
  forall g,
    Forall2 (fun s0 s1 => exists gi, moveNumber gi = moveNumber g
                                     /\ s1 = snd (transformSquare gi s0))
      sqs (snd (sweepSquares g sqs)).
Proof.
  induction sqs as [|sq rest IH]; intro g; cbn [sweepSquares fst snd].
  - constructor.
  - destruct (transformSquare_rules g sq) as [Hr _].
    pose proof (rulesOf_moveNumber _ _ Hr) as Hn.
    assert (Hsq : snd (transformSquare g sq) = snd (transformSquare g sq)) by reflexivity.
    revert Hsq Hn. generalize (snd (transformSquare g sq)) at 1.
    destruct (transformSquare g sq) as [g1 sq'] eqn:Et. cbn [fst snd]. intros s1 -> Hn.
    specialize (IH g1).
    destruct (sweepSquares g1 rest) as [g2 rest']. cbn [fst snd] in *.
    constructor.
    + exists g. split; auto. now rewrite Et.
    + eapply Forall2_impl; [|exact IH].
      intros a b (gi & Hgi & ->). exists gi. split; congruence.
Qed.

Lemma Forall2_find (R : Square -> Square -> Prop) (x : SquareId) (l l' : list Square) :
  Forall2 (fun s0 s1 => frame s1 = frame s0 /\ R s0 s1) l l' ->
  forall s0, find (hasId x) l = Some s0 ->
  exists s1, find (hasId x) l' = Some s1 /\ frame s1 = frame s0 /\ R s0 s1.
Proof.
  induction 1 as [|a b l l' [Hf HR] _ IH]; cbn [find]; [discriminate|].
  intros s0. destruct (frame_rank _ _ Hf) as [_ Hid].
  unfold hasId at 1 3. rewrite Hid.
  destruct (String.eqb (id a) x).
  - intros [= <-]. eauto.
  - apply IH.
Qed.

Lemma sweepSquares_retyped (sqs : list Square) (g : GameState) :
  Forall2 (retyped (moveNumber g)) sqs (snd (sweepSquares g sqs)).
Proof.
  eapply Forall2_impl; [|apply sweepSquares_pointwise].
  intros s0 s1 (gi & Hgi & ->).
  destruct (transformSquare_cases gi s0) as [Hf H]. rewrite Hgi in H.
  split; auto.
Qed.

(** X5. The transformation sweep never moves, adds, removes or recolours a
    unit, and never touches stock-independent data of a square: square by
    square, it either leaves the square as it is or, inside ranks 3-6 on a
    square with a blue symbol, replaces the occupant by a fresh non-loan
    piece of the symbol's type and of the same colour, born at the current
    move number; an occupant already of the symbol's type is left alone. *)
Theorem sweep_only_retypes (g : GameState) :
  Forall2 (retyped (moveNumber g)) (board g) (board (applyAutoTransforms g)).
Proof.
  unfold applyAutoTransforms, deepClone.
  pose proof (sweepSquares_retyped (board g) g) as H.
  destruct (sweepSquares g (board g)) as [g' b']. exact H.
Qed.


Lemma transformOccupant_piece (g : GameState) (p : Z) (n : PieceType) (o : Occupant)
    (c : Color) :
  isPieceOf c o = true -> isPieceOf c (snd (transformOccupant g p n o)) = true.
Proof.
  unfold transformOccupant.
  destruct o as [|c0|c0 cur born loan ret]; cbn [isPieceOf]; try discriminate.
  intro H.
  destruct (negb (type_eqb cur n) && (getCT (stock g) c0 n >? 0));
    cbn [snd isPieceOf]; exact H.
Qed.

(** The unit on the landing square once lines 263-296 have run. *)
Lemma landed_find_dest (gs : GameState) (a : SquareId) (sFrom to : Square) (c : Color) :
  a <> id to ->
  find (hasId a) (board gs) = Some sFrom ->
  find (hasId (id to)) (board gs) = Some to ->
  exists o,
    find (hasId (id to)) (board (landed gs a to c)) = Some (withOccupant to o)
    /\ color_of o = color_of (occupant sFrom)
    /\ (inZone (rank to) = true -> isLoanPiece o = false)
    /\ (inZone (rank to) = false -> o = occupant sFrom)
    /\ (forall c', isPieceOf c' (occupant sFrom) = true -> isPieceOf c' o = true).
Proof.
  intros Hne Hfrom Hto. unfold landed.
  destruct (markPromotion_fields
              (landTransform
                 (landLoan (moveOccupant (fst (recordCapture gs (occupant to))) a (id to) c)
                    to) to) to) as (-> & _).
  set (mover := occupant sFrom).
  match goal with |- context [landLoan ?g to] => set (n2 := g) end.
  assert (H2 : find (hasId (id to)) (board n2) = Some (withOccupant to mover)).
  { subst n2. unfold moveOccupant. cbn [board setLastMove setBoard].
    destruct (recordCapture_fields gs (occupant to)) as (-> & _).
    rewrite !find_hasId_set. apply String.eqb_neq in Hne.
    rewrite Hne, String.eqb_refl, Hto. unfold occupantOf. now rewrite Hfrom. }
  assert (H3 : exists o3,
             find (hasId (id to)) (board (landLoan n2 to)) = Some (withOccupant to o3)
             /\ color_of o3 = color_of mover
             /\ (inZone (rank to) = true -> isLoanPiece o3 = false)
             /\ (inZone (rank to) = false -> o3 = mover)
             /\ (forall c', isPieceOf c' mover = true -> isPieceOf c' o3 = true)).
  { unfold landLoan, occupantOf. rewrite H2. cbn [occupant withOccupant].
    destruct mover as [|c0|c0 t born [|] ret] eqn:Hm;
      try (eexists; split; [exact H2|]; repeat split; auto; fail).
    destruct (inZone (rank to)) eqn:Hz.
    - eexists. split.
      { cbn [board setBoard]. rewrite find_hasId_set, String.eqb_refl, H2. reflexivity. }
      split; [reflexivity|]. split; [reflexivity|]. split; [discriminate|auto].
    - eexists. split; [exact H2|].
      split; [reflexivity|]. split; [discriminate|]. split; [reflexivity|auto]. }
  destruct H3 as (o3 & H3 & Hc3 & Hl3 & Ho3 & Hp3).
  unfold landTransform.
  destruct (blueSymbol to) as [n|]; [|now exists o3].
  destruct (inZone (rank to)) eqn:Hz; [|now exists o3].
  assert (E : occupantOf (board (landLoan n2 to)) (id to) = o3).
  { unfold occupantOf. now rewrite H3. }
  rewrite E.
  pose proof (transformOccupant_rules (landLoan n2 to)
                (moveNumber (landLoan n2 to) + 1) n o3) as [_ Hb4].
  pose proof (transformOccupant_color (landLoan n2 to)
                (moveNumber (landLoan n2 to) + 1) n o3) as Hc4.
  pose proof (transformOccupant_stock (landLoan n2 to)
                (moveNumber (landLoan n2 to) + 1) n o3) as (_ & Hl4 & _).
  pose proof (fun c' => transformOccupant_piece (landLoan n2 to)
                (moveNumber (landLoan n2 to) + 1) n o3 c') as Hp4.
  destruct (transformOccupant (landLoan n2 to) (moveNumber (landLoan n2 to) + 1) n o3)
    as [g4 o4].
  cbn [fst snd board setBoard] in *.
  exists o4. split; [|split; [congruence|split; [auto|split; [discriminate|auto]]]].
  rewrite find_hasId_set, String.eqb_refl, Hb4, H3. reflexivity.
Qed.

(** What expiry and sweep make of a square of the landed board. *)
Lemma settled_square (gs : GameState) (a : SquareId) (to : Square) (c : Color)
    (x : SquareId) (s6 : Square) :
  find (hasId x) (board (landed gs a to c)) = Some s6 ->
  exists s8,
    find (hasId x) (board (settled gs a to c)) = Some s8
    /\ frame s8 = frame s6
    /\ (occupant s6 = Null -> occupant s8 = Null)
    /\ (isLoanPiece (occupant s6) = false ->
        color_of (occupant s8) = color_of (occupant s6)
        /\ isLoanPiece (occupant s8) = false)
    /\ (color_of (occupant s8) = color_of (occupant s6) \/ occupant s8 = Null)
    /\ (forall c', isLoanPiece (occupant s6) = false ->
          isPieceOf c' (occupant s6) = true -> isPieceOf c' (occupant s8) = true).
Proof.
  intros Hs. unfold settled. cbn [board setMessage setSelected].
  set (n6 := advanceTurn (landed gs a to c)).
  assert (Hs6 : find (hasId x) (board n6) = Some s6) by exact Hs.
  pose proof (expireSquares_pointwise n6 (board n6) n6 eq_refl eq_refl) as Hpt.
  destruct (sameFrame_occupantOf _ x _ _ s6 Hpt Hs6) as (s7 & Hs7 & Hf7 & E7).
  assert (Hb7 : board (expireLoans n6) = snd (expireSquares n6 (board n6))).
  { unfold expireLoans. now destruct (expireSquares n6 (board n6)). }
  rewrite <- Hb7 in Hs7.
  set (n7 := expireLoans n6) in *.
  pose proof (sweepSquares_retyped (board n7) n7) as Hsw.
  assert (Hb8 : board (applyAutoTransforms n7) = snd (sweepSquares n7 (board n7))).
  { unfold applyAutoTransforms, deepClone. now destruct (sweepSquares n7 (board n7)). }
  rewrite <- Hb8 in Hsw.
  assert (H8' : exists s8,
             find (hasId x) (board (applyAutoTransforms n7)) = Some s8
             /\ frame s8 = frame s7 /\ retyped (moveNumber n7) s7 s8).
  { apply (Forall2_find (retyped (moveNumber n7)) x (board n7)
             (board (applyAutoTransforms n7))); auto.
    eapply Forall2_impl; [|exact Hsw]. intros s0 s1 H. split; [apply H|exact H]. }
  destruct H8' as (s8 & Hs8 & Hf8 & _ & H8).
  exists s8. split; [exact Hs8|]. split; [congruence|].
  destruct (expireSquare_cases n6 s6) as [_ H7]. rewrite <- E7 in H7.
  assert (R8 : occupant s8 = occupant s7
               \/ exists n c0, color_of (occupant s7) = Some c0
                               /\ occupant s8 = Piece c0 n (moveNumber n7) false None).
  { destruct H8 as [->|(_ & n & c0 & _ & Hc & _ & Ho)]; eauto. }
  destruct H7 as [->|[(Hz & Hl & Ho7)|(Hz & c1 & t1 & b1 & r1 & Ho6 & Ho7)]].
  - destruct R8 as [->|(n & c0 & Hc & ->)].
    + repeat split; auto.
    + split; [intro E; rewrite E in Hc; discriminate|].
      split; [intros _; split; auto|]. split; [left; auto|].
      intros c' _ Hp. destruct (occupant s6) as [|c2|c2 t2 b2 l2 r2]; try discriminate.
      cbn in Hc, Hp |- *. injection Hc as <-. exact Hp.
  - rewrite Ho7 in R8. destruct R8 as [R8|(n & c0 & Hc & _)]; [|discriminate].
    rewrite R8. split; auto. split; [congruence|]. split; [auto|congruence].
  - rewrite Ho6.
    destruct R8 as [R8|(n & c0 & Hc & R8)]; rewrite R8;
      [rewrite Ho7|rewrite Ho7 in Hc; cbn in Hc; injection Hc as <-];
      (split; [discriminate|]; split; [discriminate|];
       split; [left; reflexivity|discriminate]).
Qed.







(** ** Captures, loans and promotions *)

(** X7. The piece standing on the destination of an applied move is
    captured: the quietus counter of its colour and type grows by one and
    no other quietus counter changes; a move onto an empty square changes
    no quietus counter.  The captured piece does not go back to the stock:
    on a board without loans whose holdings are within the caps, the
    holding of its colour and type (stock plus pieces on the board) drops
    by one and every other holding is kept. *)
Theorem captures_fill_the_quietus (gs : GameState) (a b : SquareId) (gs' : GameState)
    (to : Square) :
  wfBoard (board gs) -> applied gs a b gs' ->
  find (hasId b) (board gs) = Some to ->
  (forall tc ty born loan ret, occupant to = Piece tc ty born loan ret ->
     forall c t, getCT (quietus gs') c t
                 = getCT (quietus gs) c t
                   + (if color_eqb tc c && type_eqb ty t then 1 else 0))
  /\ (occupant to = Null -> quietus gs' = quietus gs)
  /\ (noLoans (board gs) -> (forall c t, holding gs c t <= cap t) ->
      forall c t, holding gs' c t = holding gs c t - occCount c t (occupant to)).
Proof.
  intros Hwf Happ Hto. apply applied_accepted in Happ.
  pose proof (accepted_distinct gs a b gs' Hwf Happ) as Hne.
  destruct Happ as (sFrom & to' & c0 & legal & _ & Hfrom & Hto' & _ & _ & _ & _ & _ & Happ).
  rewrite Hto in Hto'. injection Hto' as <-.
  destruct (applyMove_inv _ _ _ _ _ Happ) as (win & _ & ->).
  destruct (withWin_fields (settled gs a to c0) win) as (Hb & _ & _ & _ & Hs & Hq & _).
  split; [|split].
  - intros tc ty born loan ret Ho c t.
    rewrite Hq, settled_quietus, Ho. unfold recordCapture.
    destruct (type_eqb ty K); cbn [fst quietus setKingOnBoard setQuietus];
      rewrite getCT_setCT; destruct (color_eqb tc c && type_eqb ty t) eqn:E; try lia;
      apply andb_true_iff in E as [Ec Et];
      apply color_eqb_eq in Ec; apply type_eqb_eq in Et; subst; reflexivity.
  - intros Ho. rewrite Hq, settled_quietus, Ho. reflexivity.
  - intros Hno Hle c t.
    pose proof (find_hasId_id _ _ _ Hto) as Hid. rewrite <- Hid in Hto, Hne.
    destruct (landed_balanced gs a sFrom to c0 Hfrom Hto Hne Hno Hle) as [Hnol Hhl].
    assert (Hlel : forall c t, holding (landed gs a to c0) c t <= cap t).
    { intros c' t'. rewrite Hhl. specialize (Hle c' t').
      pose proof (occCount_range c' t' (occupant to)). lia. }
    destruct (settle_balanced (landed gs a to c0) Hnol Hlel) as [_ Hhs].
    unfold holding in *. rewrite Hb, Hs.
    unfold settled. cbn [board stock setMessage setSelected].
    rewrite Hhs. apply Hhl.
Qed.

Lemma captures_fill_the_quietus_witness :
  exists gs',
    applied kingTakenKingBorn "e5" "e4" gs'
    /\ forall c t,
         getCT (quietus gs') c t
         = getCT (quietus kingTakenKingBorn) c t
           + (if color_eqb black c && type_eqb K t then 1 else 0).
Proof.
  assert (Happ : exists gs', applied kingTakenKingBorn "e5" "e4" gs').
  { eexists. split; vm_compute; reflexivity. }
  destruct Happ as [gs' Happ]. exists gs'. split; [exact Happ|].
  assert (Hwf : wfBoard (board kingTakenKingBorn)) by (vm_compute; reflexivity).
  assert (Hto : exists to born loan ret,
             find (hasId "e4") (board kingTakenKingBorn) = Some to
             /\ occupant to = Piece black K born loan ret).
  { do 4 eexists. split; vm_compute; reflexivity. }
  destruct Hto as (to & born & loan & ret & Hto & Ho).
  exact (proj1 (captures_fill_the_quietus kingTakenKingBorn "e5" "e4" gs' to Hwf Happ Hto)
           black K born loan ret Ho).
Defined.

(** X8. A piece on loan that moves to a square of ranks 3-6 stays on the
    board for good: after the move the landing square holds a piece of its
    colour that is no longer on loan, whatever the move number and the
    deadline of the loan (lines 268-273 clear the flags before the expiry
    loop of lines 307-320 looks at them). *)
Theorem loan_redeemed_in_the_zone (gs : GameState) (a b : SquareId) (gs' : GameState)
    (sFrom to : Square) (c : Color) (t : PieceType) (born : Z) (ret : option Z) :
  wfBoard (board gs) -> applied gs a b gs' ->
  find (hasId a) (board gs) = Some sFrom ->
  find (hasId b) (board gs) = Some to ->
  occupant sFrom = Piece c t born true ret ->
  inZone (rank to) = true ->
  isPieceOf c (occupantOf (board gs') b) = true
  /\ isLoanPiece (occupantOf (board gs') b) = false.
Proof.
  intros Hwf Happ Hfrom Hto Ho Hz. apply applied_accepted in Happ.
  pose proof (accepted_distinct gs a b gs' Hwf Happ) as Hne.
  destruct Happ as (sFrom' & to' & c0 & legal & _ & Hfrom' & Hto' & _ & _ & _ & _ & _ & Happ).
  rewrite Hfrom in Hfrom'. injection Hfrom' as <-.
  rewrite Hto in Hto'. injection Hto' as <-.
  destruct (applyMove_inv _ _ _ _ _ Happ) as (win & _ & ->).
  destruct (withWin_fields (settled gs a to c0) win) as (-> & _).
  pose proof (find_hasId_id _ _ _ Hto) as Hid. subst b.
  destruct (landed_find_dest gs a sFrom to c0 Hne Hfrom Hto) as (o & Hl & _ & Hloan & _ & Hp).
  destruct (settled_square gs a to c0 (id to) _ Hl) as (s8 & Hs8 & _ & _ & Hk & _ & Hp8).
  cbn [occupant withOccupant] in Hk, Hp8.
  unfold occupantOf. rewrite Hs8. split.
  - apply Hp8; auto. apply Hp. rewrite Ho. cbn. apply color_eqb_refl.
  - apply Hk. auto.
Qed.

Lemma updateFirst_setOccupantAt (i : SquareId) (o : Occupant) (b : list Square) (s : Square) :
  find (hasId i) b = Some s ->
  updateFirst (hasId i) (fun sq => withOccupant sq o) b = Some (setOccupantAt i o b).
Proof.
  induction b as [|x b IH]; cbn [find updateFirst setOccupantAt]; [discriminate|].
  destruct (hasId i x); auto.
  intro H. now rewrite (IH H).
Qed.

Lemma applyAutoTransforms_find (g : GameState) (x : SquareId) (s0 : Square) :
  find (hasId x) (board g) = Some s0 ->
  exists s1, find (hasId x) (board (applyAutoTransforms g)) = Some s1
             /\ retyped (moveNumber g) s0 s1.
Proof.
  intro H.
  pose proof (sweepSquares_retyped (board g) g) as Hsw.
  assert (Hb : board (applyAutoTransforms g) = snd (sweepSquares g (board g))).
  { unfold applyAutoTransforms, deepClone. now destruct (sweepSquares g (board g)). }
  rewrite <- Hb in Hsw.
  destruct (Forall2_find (retyped (moveNumber g)) x (board g)
              (board (applyAutoTransforms g))) with (s0 := s0) as (s1 & Hs1 & _ & Hr); auto.
  - eapply Forall2_impl; [|exact Hsw]. intros u v Huv. split; [apply Huv|exact Huv].
  - eauto.
Qed.

Lemma retyped_outside (n : Z) (s0 s1 : Square) :
  retyped n s0 s1 -> inZone (rank s0) = false -> s1 = s0.
Proof. intros [_ [H|(Hz & _)]] Hout; auto. congruence. Qed.

(** X9. A promotion choice, when a promotion is pending on a square of the
    board for colour [c]: a type that is not available (as many active
    pieces of that type and colour as its cap) is refused by returning the
    state as it is, promotion still pending; an available type clears the
    promotion, keeps the side to move and the move number, takes one piece
    of that type out of the quietus of [c] if there is one, leaves every
    other square outside ranks 3-6 as it is and, the promotion square being
    outside ranks 3-6, puts there a piece of that type on loan, due back by
    the next move number. *)
Theorem promotion_choice_effects (st : GameState) (sq : SquareId) (c : Color)
    (t : PieceType) (s : Square) :
  promotion st = Some (sq, c) ->
  find (hasId sq) (board st) = Some s ->
  (promotionAvailable st c t = false -> applyPromotionChoice st t = Some st)
  /\ (promotionAvailable st c t = true ->
      exists st',
        applyPromotionChoice st t = Some st'
        /\ promotion st' = None
        /\ turn st' = turn st /\ moveNumber st' = moveNumber st
        /\ (forall c' t',
              getCT (quietus st') c' t'
              = getCT (quietus st) c' t'
                - (if color_eqb c c' && type_eqb t t' && (getCT (quietus st) c t >? 0)
                   then 1 else 0))
        /\ (inZone (rank s) = false ->
            occupantOf (board st') sq
            = Piece c t (moveNumber st) true (Some (moveNumber st + 1)))
        /\ (forall x s0, x <> sq -> find (hasId x) (board st) = Some s0 ->
              inZone (rank s0) = false -> find (hasId x) (board st') = Some s0)).
Proof.
  intros Hp Hs. unfold applyPromotionChoice, deepClone. rewrite Hp. split.
  - intros ->. reflexivity.
  - intros ->. cbn [negb].
    set (n1 := if getCT (quietus st) c t >? 0
               then setQuietus st (setCT (quietus st) c t (getCT (quietus st) c t - 1))
               else st).
    assert (Hb1 : board n1 = board st) by (subst n1; destruct (_ >? _); reflexivity).
    assert (Hm1 : moveNumber n1 = moveNumber st) by (subst n1; destruct (_ >? _); reflexivity).
    assert (Ht1 : turn n1 = turn st) by (subst n1; destruct (_ >? _); reflexivity).
    rewrite Hb1, Hm1.
    rewrite (updateFirst_setOccupantAt sq _ (board st) s Hs).
    eexists. split; [reflexivity|].
    match goal with
    | |- context [applyAutoTransforms ?g] => set (n4 := g)
    end.
    destruct (applyAutoTransforms_rules n4) as [Hr _].
    assert (Hb4 : board n4
                  = setOccupantAt sq
                      (Piece c t (moveNumber st) true (Some (moveNumber st + 1))) (board st)).
    { subst n4. destruct (type_eqb t K); reflexivity. }
    assert (Hm4 : moveNumber n4 = moveNumber st).
    { subst n4. destruct (type_eqb t K); exact Hm1. }
    split; [rewrite (rulesOf_promotion _ _ Hr); subst n4; destruct (type_eqb t K); reflexivity|].
    split; [rewrite (rulesOf_turn _ _ Hr); subst n4; destruct (type_eqb t K); exact Ht1|].
    split; [rewrite (rulesOf_moveNumber _ _ Hr); exact Hm4|].
    split.
    { intros c' t'. rewrite (rulesOf_quietus _ _ Hr).
      assert (Hq : quietus n4 = quietus n1) by (subst n4; destruct (type_eqb t K); reflexivity).
      rewrite Hq. subst n1.
      destruct (getCT (quietus st) c t >? 0) eqn:E; cbn [quietus setQuietus].
      - rewrite getCT_setCT, andb_true_r.
        destruct (color_eqb c c' && type_eqb t t') eqn:E'; [|lia].
        apply andb_true_iff in E' as [Ec Et].
        apply color_eqb_eq in Ec; apply type_eqb_eq in Et; subst; reflexivity.
      - rewrite andb_false_r. lia. }
    split.
    { intro Hz.
      assert (H4 : find (hasId sq) (board n4)
                   = Some (withOccupant s
                             (Piece c t (moveNumber st) true (Some (moveNumber st + 1))))).
      { rewrite Hb4, find_hasId_set, String.eqb_refl, Hs. reflexivity. }
      destruct (applyAutoTransforms_find n4 sq _ H4) as (s1 & Hs1 & Hre).
      unfold occupantOf. rewrite Hs1.
      rewrite (retyped_outside _ _ _ Hre); auto. }
    { intros x s0 Hx Hs0 Hz.
      assert (H4 : find (hasId x) (board n4) = Some s0).
      { rewrite Hb4, find_hasId_set.
        assert (E : String.eqb sq x = false) by (apply String.eqb_neq; congruence).
        now rewrite E. }
      destruct (applyAutoTransforms_find n4 x _ H4) as (s1 & Hs1 & Hre).
      rewrite Hs1. f_equal. exact (retyped_outside _ _ _ Hre Hz). }
Qed.

Lemma resolveWith_first (state : GameState) (color : Color) (pref : list PieceType) :
  resolveWith state color pref
  = match firstAvailable state color pref with
    | Some t => applyPromotionChoice state t
    | None => Some state
    end.
Proof.
  induction pref as [|t rest IH]; cbn [resolveWith firstAvailable]; auto.
  destruct (promotionAvailable state color t); auto.
Qed.

Lemma firstAvailable_none (state : GameState) (color : Color) (pref : list PieceType)
    (t : PieceType) :
  firstAvailable state color pref = None -> In t pref ->
  promotionAvailable state color t = false.
Proof.
  induction pref as [|u rest IH]; cbn [firstAvailable In]; [tauto|].
  destruct (promotionAvailable state color u) eqn:E; [discriminate|].
  intros H [->|Hin]; auto.
Qed.

(** X10. The two ways the computer opponent resolves its promotion agree:
    when the pending promotion, if any, is for [color], what
    [aiResolvePromotion] returns inside the move generator is what the
    effect of lines 515-518 computes, [applyPromotionChoice] at
    [aiBestPromotion].  Both take the first available type in the order
    Q, R, B, N, K, and both leave the state as it is, promotion pending,
    when none is available. *)
Theorem ai_promotion_paths_agree (state : GameState) (color : Color) :
  (promotion state = None \/ exists sq, promotion state = Some (sq, color)) ->
  aiResolvePromotion state color
  = applyPromotionChoice state (aiBestPromotion state color)
  /\ (firstAvailable state color [Q; R; B; N; K] = None ->
      aiResolvePromotion state color = Some state).
Proof.
  intros Hp. unfold aiResolvePromotion, aiBestPromotion.
  rewrite resolveWith_first.
  destruct (firstAvailable state color [Q; R; B; N; K]) as [t|] eqn:E; [split; [auto|discriminate]|].
  split; auto.
  unfold applyPromotionChoice.
  destruct Hp as [->|[sq ->]]; auto.
  unfold deepClone.
  rewrite (firstAvailable_none state color _ Q E); cbn; auto.
Qed.

Lemma ai_promotion_paths_agree_witness :
  let st := setPromotion pawnOnA3 (Some ("a3", white)) in
  aiResolvePromotion st white = applyPromotionChoice st (aiBestPromotion st white).
Proof.
  exact (proj1 (ai_promotion_paths_agree (setPromotion pawnOnA3 (Some ("a3", white))) white
                  (or_intror (ex_intro _ "a3" eq_refl)))).
Defined.

(** X11. The promotion dialog and the engine agree: [handlePromotion]
    passes to [setGs] the state [applyPromotionChoice] returns, except when
    the chosen type is not available, where the engine returns the state as
    it is and the dialog also sets the message of line 607; in that case
    board, counters, side to move and pending promotion are those of the
    state. *)
Theorem handlePromotion_agrees (gs : GameState) (t : PieceType) :
  (promotion gs = None ->
   handlePromotion gs t = Some gs /\ applyPromotionChoice gs t = Some gs)
  /\ (forall sq c, promotion gs = Some (sq, c) ->
        (promotionAvailable gs c t = true ->
         handlePromotion gs t = applyPromotionChoice gs t)
        /\ (promotionAvailable gs c t = false ->
            applyPromotionChoice gs t = Some gs
            /\ exists gs', handlePromotion gs t = Some gs'
                           /\ message gs' = Some "You can't promote to that piece right now."
                           /\ untouched gs gs' /\ selected gs' = selected gs)).
Proof.
  unfold handlePromotion, applyPromotionChoice, deepClone. split.
  - intros ->. auto.
  - intros sq c ->. split; intros ->; cbn [negb]; auto.
    split; auto. eexists. split; [reflexivity|]. split; [reflexivity|].
    split; [apply untouched_setMessage|reflexivity].
Qed.

Lemma loan_redeemed_in_the_zone_witness :
  exists gs',
    applied (setTurn loanDue white) "a1" "a3" gs'
    /\ isPieceOf white (occupantOf (board gs') "a3") = true
    /\ isLoanPiece (occupantOf (board gs') "a3") = false.
Proof.
  assert (Happ : exists gs', applied (setTurn loanDue white) "a1" "a3" gs').
  { eexists. split; vm_compute; reflexivity. }
  destruct Happ as [gs' Happ]. exists gs'. split; [exact Happ|].
  assert (Hwf : wfBoard (board (setTurn loanDue white))) by (vm_compute; reflexivity).
  assert (Hsq : exists sFrom to,
             find (hasId "a1") (board (setTurn loanDue white)) = Some sFrom
             /\ find (hasId "a3") (board (setTurn loanDue white)) = Some to
             /\ occupant sFrom = Piece white Q 5 true (Some 6)
             /\ inZone (rank to) = true).
  { do 2 eexists. repeat split; vm_compute; reflexivity. }
  destruct Hsq as (sFrom & to & Hfrom & Hto & Ho & Hz).
  exact (loan_redeemed_in_the_zone (setTurn loanDue white) "a1" "a3" gs' sFrom to
           white Q 5 (Some 6) Hwf Happ Hfrom Hto Ho Hz).
Defined.

Lemma promotion_choice_effects_witness :
  exists st',
    applyPromotionChoice pawnHome Q = Some st'
    /\ promotion st' = None
    /\ occupantOf (board st') "a1" = Piece white Q 6 true (Some 7).
Proof.
  assert (Hs : exists s, find (hasId "a1") (board pawnHome) = Some s
                         /\ inZone (rank s) = false).
  { eexists. split; vm_compute; reflexivity. }
  destruct Hs as (s & Hs & Hz).
  destruct (proj2 (promotion_choice_effects pawnHome "a1" white Q s eq_refl Hs) eq_refl)
    as (st' & H1 & H2 & _ & _ & _ & H3 & _).
  exists st'. split; [exact H1|]. split; [exact H2|]. exact (H3 Hz).
Defined.

Lemma handlePromotion_agrees_witness :
  handlePromotion pawnHome Q = applyPromotionChoice pawnHome Q.
Proof.
  exact (proj1 (proj2 (handlePromotion_agrees pawnHome Q) "a1" white eq_refl) eq_refl).
Defined.


(** ** Clicks: the selection and the move *)

(** Win detection reads the board, the side to move and the king flags
    only. *)
Section SameRules.
Variables g1 g2 : GameState.
Hypothesis Hboard : board g1 = board g2.

Lemma legalMovesForMetamorph_board (sq : Square) :
  legalMovesForMetamorph g1 sq = legalMovesForMetamorph g2 sq.
Proof. unfold legalMovesForMetamorph. now rewrite Hboard. Qed.

Lemma legalMovesFor_board (sq : Square) : legalMovesFor g1 sq = legalMovesFor g2 sq.
Proof.
  unfold legalMovesFor.
  rewrite legalMovesForMetamorph_board, (legalMovesForPiece_board g1 g2 sq Hboard).
  reflexivity.
Qed.

Lemma attackedFrom_board (f r : Z) (c : Color) (sqs : list Square) :
  attackedFrom g1 f r c sqs = attackedFrom g2 f r c sqs.
Proof.
  induction sqs as [|sq rest IH]; cbn [attackedFrom]; auto.
  rewrite IH, (legalMovesForPiece_board g1 g2 sq Hboard). reflexivity.
Qed.

Lemma isSquareAttacked_board (f r : Z) (c : Color) :
  isSquareAttacked g1 f r c = isSquareAttacked g2 f r c.
Proof. unfold isSquareAttacked. now rewrite attackedFrom_board, Hboard. Qed.

Lemma safeMoves_board (c : Color) (ms : list Coord) :
  safeMoves g1 c ms = safeMoves g2 c ms.
Proof.
  induction ms as [|m rest IH]; cbn [safeMoves]; auto.
  now rewrite IH, isSquareAttacked_board.
Qed.

Lemma pawnCanMoveIn_board (c : Color) (sqs : list Square) :
  pawnCanMoveIn g1 c sqs = pawnCanMoveIn g2 c sqs.
Proof.
  induction sqs as [|sq rest IH]; cbn [pawnCanMoveIn]; auto.
  rewrite IH, (legalMovesForPiece_board g1 g2 sq Hboard). reflexivity.
Qed.

Lemma metamorphCanMoveIn_board (c : Color) (sqs : list Square) :
  metamorphCanMoveIn g1 c sqs = metamorphCanMoveIn g2 c sqs.
Proof.
  induction sqs as [|sq rest IH]; cbn [metamorphCanMoveIn]; auto.
  now rewrite IH, legalMovesForMetamorph_board.
Qed.

Hypothesis Hturn : turn g1 = turn g2.
Hypothesis Hkings : kingOnBoard g1 = kingOnBoard g2.

Lemma checkmated_board (m o : Color) : checkmated g1 m o = checkmated g2 m o.
Proof.
  unfold checkmated, findKingSquare. rewrite Hkings, Hboard.
  destruct (getC (kingOnBoard g2) o); auto.
  destruct (find _ (board g2)) as [ksq|]; auto.
  rewrite isSquareAttacked_board.
  destruct (isSquareAttacked g2 (file ksq) (rank ksq) m) as [[|]|]; auto.
  rewrite (legalMovesForPiece_board g1 g2 ksq Hboard).
  destruct (legalMovesForPiece g2 ksq); auto.
  now rewrite safeMoves_board.
Qed.

Lemma immobile_board (c : Color) : immobile g1 c = immobile g2 c.
Proof.
  unfold immobile, hasAnyPawn, hasAnyMetamorph, anyPawnCanMove, anyMetamorphCanMove.
  now rewrite Hkings, Hboard, pawnCanMoveIn_board, metamorphCanMoveIn_board.
Qed.

Lemma detectWin_board (m : Color) (ck : option Color) : detectWin g1 m ck = detectWin g2 m ck.
Proof.
  unfold detectWin. now rewrite Hturn, checkmated_board, !immobile_board.
Qed.

End SameRules.

(** The phases of a move do not read the selection. *)
Section Selection.
Variable x : option SquareId.

Lemma transformOccupant_selected (g : GameState) (p : Z) (n : PieceType) (o : Occupant) :
  transformOccupant (setSelected g x) p n o
  = (setSelected (fst (transformOccupant g p n o)) x, snd (transformOccupant g p n o)).
Proof.
  unfold transformOccupant.
  destruct o as [|c0|c0 cur born loan ret]; cbn [fst snd]; auto.
  - cbn [stock setSelected].
    destruct (getCT (stock g) c0 n >? 0); cbn [fst snd]; auto.
    destruct (type_eqb n K); reflexivity.
  - cbn [stock setSelected].
    destruct (negb (type_eqb cur n) && (getCT (stock g) c0 n >? 0)); cbn [fst snd]; auto.
    destruct (type_eqb cur K && negb (type_eqb n K)), (type_eqb n K); reflexivity.
Qed.

Lemma sweepSquares_selected (sqs : list Square) :
  forall g, sweepSquares (setSelected g x) sqs
            = (setSelected (fst (sweepSquares g sqs)) x, snd (sweepSquares g sqs)).
Proof.
  induction sqs as [|sq rest IH]; intro g; cbn [sweepSquares fst snd]; auto.
  assert (E : transformSquare (setSelected g x) sq
              = (setSelected (fst (transformSquare g sq)) x, snd (transformSquare g sq))).
  { unfold transformSquare.
    destruct (negb (inZone (rank sq))); cbn [fst snd]; auto.
    destruct (blueSymbol sq) as [n|]; cbn [fst snd]; auto.
    change (moveNumber (setSelected g x)) with (moveNumber g).
    rewrite transformOccupant_selected.
    destruct (transformOccupant g (moveNumber g) n (occupant sq)); reflexivity. }
  rewrite E. destruct (transformSquare g sq) as [g1 sq']. cbn [fst snd].
  rewrite IH. destruct (sweepSquares g1 rest) as [g2 rest']. reflexivity.
Qed.

Lemma applyAutoTransforms_selected (g : GameState) :
  applyAutoTransforms (setSelected g x) = setSelected (applyAutoTransforms g) x.
Proof.
  unfold applyAutoTransforms, deepClone.
  change (board (setSelected g x)) with (board g).
  rewrite sweepSquares_selected.
  destruct (sweepSquares g (board g)) as [g' b']. reflexivity.
Qed.

Lemma expireSquares_selected (sqs : list Square) :
  forall g, expireSquares (setSelected g x) sqs
            = (setSelected (fst (expireSquares g sqs)) x, snd (expireSquares g sqs)).
Proof.
  induction sqs as [|sq rest IH]; intro g; cbn [expireSquares fst snd]; auto.
  assert (E : expireSquare (setSelected g x) sq
              = (setSelected (fst (expireSquare g sq)) x, snd (expireSquare g sq))).
  { unfold expireSquare.
    destruct (occupant sq) as [|c0|c t born [|] [n|]]; cbn [fst snd]; auto.
    cbn [turn moveNumber setSelected].
    destruct (color_eqb c (other (turn g)) && (moveNumber g >=? n)); cbn [fst snd]; auto.
    destruct (negb (inZone (rank sq))); cbn [fst snd]; auto.
    destruct (type_eqb t K); reflexivity. }
  rewrite E. destruct (expireSquare g sq) as [g1 sq']. cbn [fst snd].
  rewrite IH. destruct (expireSquares g1 rest) as [g2 rest']. reflexivity.
Qed.

Lemma expireLoans_selected (g : GameState) :
  expireLoans (setSelected g x) = setSelected (expireLoans g) x.
Proof.
  unfold expireLoans. change (board (setSelected g x)) with (board g).
  rewrite expireSquares_selected.
  destruct (expireSquares g (board g)) as [g' b']. reflexivity.
Qed.

Lemma landed_selected (gs : GameState) (a : SquareId) (to : Square) (c : Color) :
  landed (setSelected gs x) a to c = setSelected (landed gs a to c) x.
Proof.
  unfold landed.
  assert (E1 : fst (recordCapture (setSelected gs x) (occupant to))
               = setSelected (fst (recordCapture gs (occupant to))) x).
  { unfold recordCapture. destruct (occupant to) as [| |tc ty born loan ret]; auto.
    destruct (type_eqb ty K); reflexivity. }
  rewrite E1. set (n1 := fst (recordCapture gs (occupant to))).
  change (moveOccupant (setSelected n1 x) a (id to) c)
    with (setSelected (moveOccupant n1 a (id to) c) x).
  set (n2 := moveOccupant n1 a (id to) c).
  assert (E3 : landLoan (setSelected n2 x) to = setSelected (landLoan n2 to) x).
  { unfold landLoan. change (board (setSelected n2 x)) with (board n2).
    destruct (occupantOf (board n2) (id to)) as [|c0|c0 t born [|] ret]; auto.
    destruct (inZone (rank to)); reflexivity. }
  rewrite E3. set (n3 := landLoan n2 to).
  assert (E4 : landTransform (setSelected n3 x) to = setSelected (landTransform n3 to) x).
  { unfold landTransform.
    destruct (blueSymbol to) as [n|]; auto.
    destruct (inZone (rank to)); auto.
    change (moveNumber (setSelected n3 x)) with (moveNumber n3).
    change (board (setSelected n3 x)) with (board n3).
    rewrite transformOccupant_selected.
    destruct (transformOccupant n3 (moveNumber n3 + 1) n (occupantOf (board n3) (id to)));
      reflexivity. }
  rewrite E4. set (n4 := landTransform n3 to).
  unfold markPromotion. change (board (setSelected n4 x)) with (board n4).
  destruct (occupantOf (board n4) (id to)) as [|c0|c0 [] born loan ret]; auto.
  destruct ((color_eqb c0 white && (rank to =? 1)) || (color_eqb c0 black && (rank to =? 8)));
    reflexivity.
Qed.

Lemma applyMove_selected (gs : GameState) (a : SquareId) (to : Square) (c : Color) :
  applyMove (setSelected gs x) a to c = applyMove gs a to c.
Proof.
  assert (E : forall g, applyMove g a to c
                        = concludeMove (expireLoans (advanceTurn (landed g a to c)))
                            (snd (recordCapture g (occupant to)))).
  { intro g. unfold applyMove, landed, deepClone.
    destruct (recordCapture g (occupant to)); reflexivity. }
  rewrite !E, landed_selected.
  change (advanceTurn (setSelected (landed gs a to c) x))
    with (setSelected (advanceTurn (landed gs a to c)) x).
  rewrite expireLoans_selected.
  assert (Ek : snd (recordCapture (setSelected gs x) (occupant to))
               = snd (recordCapture gs (occupant to))).
  { unfold recordCapture. destruct (occupant to) as [| |tc ty born loan ret]; auto.
    destruct (type_eqb ty K); reflexivity. }
  rewrite Ek. unfold concludeMove. rewrite applyAutoTransforms_selected.
  reflexivity.
Qed.

(** An accepted move gives the same state whatever was selected. *)
Lemma performMove_selected (gs : GameState) (a b : SquareId) (gs' : GameState) :
  accepted gs a b gs' -> performMove (setSelected gs x) a b = Some gs'.
Proof.
  intros (sFrom & to & c & legal & Hw & Hfrom & Hto & Hc & Hturn & Hlegal & Hex & Hk & Happ).
  unfold performMove. cbn [winner board turn setSelected].
  rewrite Hw, Hfrom, Hto, Hc, <- Hturn, color_eqb_refl. cbn [negb].
  rewrite (legalMovesFor_board (setSelected gs x) gs eq_refl), Hlegal.
  unfold isLegalDestination. destruct legal as [|m ms]; [discriminate|].
  rewrite Hex. cbn [negb].
  change (kingCaptureRefusal (setSelected gs x) c (occupant to))
    with (kingCaptureRefusal gs c (occupant to)).
  rewrite Hk. rewrite applyMove_selected. exact Happ.
Qed.

End Selection.

(** X12. Two clicks make a move.  When the game is not over, it is not the
    computer's turn and nothing is selected, a click on a unit of the side
    to move selects its square and changes nothing else; a second click
    then gives exactly the state [performMove] gives for the two squares
    when the move is applied. *)
Theorem two_clicks_make_a_move (gs : GameState) (s1 s2 : Square) (gs' : GameState) :
  winner gs = None -> cpuToMove gs = false -> selected gs = None ->
  color_of (occupant s1) = Some (turn gs) -> id s1 <> "" ->
  applied gs (id s1) (id s2) gs' ->
  clickMove gs s1 = Some (setSelected gs (Some (id s1)))
  /\ clickMove (setSelected gs (Some (id s1))) s2 = Some gs'
  /\ selected gs' = None.
Proof.
  intros Hw Hcpu Hsel Hc Hid Happ. apply applied_accepted in Happ.
  split; [|split].
  - unfold clickMove. rewrite Hw, Hcpu, Hsel, Hc, color_eqb_refl. reflexivity.
  - unfold clickMove. cbn [winner selected setSelected].
    change (cpuToMove (setSelected gs (Some (id s1)))) with (cpuToMove gs).
    rewrite Hw, Hcpu.
    apply String.eqb_neq in Hid. rewrite Hid.
    now apply performMove_selected.
  - destruct Happ as (sFrom & to & c & legal & _ & _ & _ & _ & _ & _ & _ & _ & Happ).
    destruct (applyMove_inv _ _ _ _ _ Happ) as (win & _ & ->).
    destruct win as [[w r]|]; reflexivity.
Qed.

(** X13. A selection sticks: with a square selected, a click either applies
    the move from that square, which clears the selection, or leaves the
    selection, the board and every counter as they are (at most a refusal
    message is set).  Clicking another unit of one's own does not select it. *)
Theorem selection_sticks (gs : GameState) (s : SquareId) (target : Square)
    (gs' : GameState) :
  selected gs = Some s -> s <> "" ->
  clickMove gs target = Some gs' ->
  (applied gs s (id target) gs' /\ selected gs' = None)
  \/ (selected gs' = Some s /\ untouched gs gs').
Proof.
  intros Hsel Hs. unfold clickMove. rewrite Hsel.
  apply String.eqb_neq in Hs. rewrite Hs.
  destruct (winner gs) eqn:Hw; [intros [= <-]; right; split; [auto|apply untouched_refl]|].
  destruct (cpuToMove gs); [intros [= <-]; right; split; [auto|apply untouched_refl]|].
  intro Hmove.
  destruct (performMove_cases _ _ _ _ Hmove) as [[-> _]|[(msg & _ & -> & _)|Hacc]].
  - right. split; [auto|apply untouched_refl].
  - right. split; [exact Hsel|apply untouched_setMessage].
  - left. split; [now apply applied_accepted|].
    destruct Hacc as (sFrom & to & c & legal & _ & _ & _ & _ & _ & _ & _ & _ & Happ).
    destruct (applyMove_inv _ _ _ _ _ Happ) as (win & _ & ->).
    destruct win as [[w r]|]; reflexivity.
Qed.

Lemma two_clicks_make_a_move_witness :
  exists gs',
    applied pawnOnA3 "a3" "a2" gs'
    /\ clickMove pawnOnA3 squareA3 = Some (setSelected pawnOnA3 (Some "a3"))
    /\ clickMove (setSelected pawnOnA3 (Some "a3")) squareA2 = Some gs'
    /\ selected gs' = None.
Proof.
  assert (Happ : exists gs', applied pawnOnA3 "a3" "a2" gs').
  { eexists. split; vm_compute; reflexivity. }
  destruct Happ as [gs' Happ]. exists gs'. split; [exact Happ|].
  apply (two_clicks_make_a_move pawnOnA3 squareA3 squareA2 gs');
    try reflexivity; [discriminate|exact Happ].
Defined.

Lemma selection_sticks_witness :
  exists gs',
    clickMove (setSelected pawnOnA3 (Some "a3")) squareA4 = Some gs'
    /\ selected gs' = Some "a3"
    /\ message gs' = Some "Illegal move.".
Proof.
  eexists. split; [vm_compute; reflexivity|].
  destruct (selection_sticks (setSelected pawnOnA3 (Some "a3")) "a3" squareA4
              (setMessage (setSelected pawnOnA3 (Some "a3")) (Some "Illegal move.")))
    as [[[_ Hn] _]|[Hsel _]].
  - reflexivity.
  - discriminate.
  - vm_compute; reflexivity.
  - vm_compute in Hn. discriminate.
  - split; [exact Hsel|reflexivity].
Defined.


(** ** The computer opponent: evaluation and choice *)

Lemma generateMoves_candidates (gs : GameState) (color : Color) :
  wfGame gs ->
  exists mvs, generateMoves gs color = Some mvs
              /\ forall c, In c mvs -> isCandidate gs color c.
Proof.
  intro Hwf.
  destruct (generateMoves_spec gs color Hwf) as (cands & safe & chk & Hcand & Hsafe & _ & Hg).
  eexists. split; [exact Hg|].
  intros c Hin. destruct chk; [now apply Hsafe in Hin|].
  destruct safe; [now apply Hcand|now apply Hsafe in Hin].
Qed.

Lemma evaluate_total (gs : GameState) (c : Color) :
  wfGame gs -> exists v, evaluate gs c = Some v.
Proof.
  intro Hwf. unfold evaluate.
  destruct (winner gs); [eauto|].
  destruct (generateMoves_candidates gs c Hwf) as (my & -> & _).
  destruct (generateMoves_candidates gs (other c) Hwf) as (opp & -> & _).
  eauto.
Qed.

Lemma other_other (c : Color) : other (other c) = c.
Proof. now destruct c. Qed.

Lemma squareScore_opposite (c : Color) (sq : Square) (a1 a2 : Z) :
  squareScore c a1 sq + squareScore (other c) a2 sq = a1 + a2.
Proof.
  unfold squareScore.
  destruct (occupant sq) as [|c0|c0 t born loan ret]; auto.
  destruct c0, c; cbn [color_eqb other]; destruct (inZone (rank sq)); lia.
Qed.

Lemma material_opposite (c : Color) (b : list Square) :
  forall a1 a2,
    fold_left (squareScore c) b a1 + fold_left (squareScore (other c)) b a2 = a1 + a2.
Proof.
  induction b as [|sq b IH]; intros a1 a2; cbn [fold_left]; auto.
  rewrite IH. apply squareScore_opposite.
Qed.

(** X14. The evaluation is zero-sum: on a well-formed game, [evaluate]
    returns a score for each colour and the two scores add up to zero,
    whether the game is over (1e9 for the winner against -1e9) or not
    (material, presence in ranks 3-6 and mobility all count with opposite
    signs for the two colours). *)
Theorem evaluate_zero_sum (gs : GameState) (c : Color) :
  wfGame gs ->
  exists v w,
    evaluate gs c = Some v /\ evaluate gs (other c) = Some w /\ (v + w == 0)%Q.
Proof.
  intro Hwf. unfold evaluate.
  destruct (winner gs) as [win|].
  - do 2 eexists. split; [reflexivity|]. split; [reflexivity|].
    destruct win, c; cbn [color_eqb other]; unfold wonScore, Qeq; cbn; lia.
  - rewrite other_other.
    destruct (generateMoves_candidates gs c Hwf) as (my & -> & _).
    destruct (generateMoves_candidates gs (other c) Hwf) as (opp & -> & _).
    do 2 eexists. split; [reflexivity|]. split; [reflexivity|].
    pose proof (material_opposite c (board gs) 0 0) as Hm.
    set (s1 := fold_left (squareScore c) (board gs) 0) in *.
    set (s2 := fold_left (squareScore (other c)) (board gs) 0) in *.
    set (m := Z.of_nat (List.length my)). set (o := Z.of_nat (List.length opp)).
    unfold Qeq, Qplus, Qmult, inject_Z. cbn [Qnum Qden]. lia.
Qed.

Lemma evaluate_zero_sum_witness :
  exists v w,
    evaluate pawnOnA3 white = Some v /\ evaluate pawnOnA3 black = Some w
    /\ (v + w == 0)%Q.
Proof.
  exact (evaluate_zero_sum pawnOnA3 white pawnOnA3_wfGame).
Defined.

(** *** Order on the numbers of the search *)

Lemma num_leb_refl (a : Num) : num_leb a a = true.
Proof. destruct a; cbn; auto. apply Qle_bool_iff, Qle_refl. Qed.

Lemma num_leb_trans (a b c : Num) :
  num_leb a b = true -> num_leb b c = true -> num_leb a c = true.
Proof.
  destruct a, b, c; cbn; auto; try discriminate.
  rewrite !Qle_bool_iff. apply Qle_trans.
Qed.

Lemma num_leb_total (a b : Num) : num_leb a b = true \/ num_leb b a = true.
Proof.
  destruct a, b; cbn; auto.
  rewrite !Qle_bool_iff. destruct (Qlt_le_dec q q0); [left; now apply Qlt_le_weak|auto].
Qed.

Lemma num_gtb_leb (a b : Num) : num_gtb a b = true -> num_leb b a = true.
Proof.
  unfold num_gtb. intro H. apply negb_true_iff in H.
  destruct (num_leb_total a b); congruence.
Qed.

Lemma num_gtb_false (a b : Num) : num_gtb a b = false -> num_leb a b = true.
Proof. unfold num_gtb. intro H. now apply negb_false_iff in H. Qed.

Lemma num_gtb_trans (a b c : Num) :
  num_gtb a b = true -> num_leb c b = true -> num_gtb a c = true.
Proof.
  unfold num_gtb. intros H1 H2. apply negb_true_iff in H1. apply negb_true_iff.
  destruct (num_leb a c) eqn:E; auto.
  rewrite (num_leb_trans a c b E H2) in H1. discriminate.
Qed.

(** The selection loop returns the first state whose score is greatest. *)
Lemma bestNext_spec (score : GameState -> option Num) (moves : list Candidate) :
  forall best bestN r,
    bestNext score moves best bestN = Some r ->
    exists top,
      ((top = best /\ r = bestN)
       \/ exists m, In m moves /\ r = cand_next m
                    /\ score (cand_next m) = Some top /\ num_gtb top best = true)
      /\ num_leb best top = true
      /\ forall m', In m' moves ->
           exists s', score (cand_next m') = Some s' /\ num_leb s' top = true.
Proof.
  induction moves as [|m rest IH]; intros best bestN r; cbn [bestNext].
  - intros [= <-]. exists best. split; [auto|]. split; [apply num_leb_refl|].
    intros m' [].
  - destruct (score (cand_next m)) as [s|] eqn:Hs; [|discriminate].
    destruct (num_gtb s best) eqn:Hgt; intro H.
    + destruct (IH _ _ _ H) as (top & Hr & Hle & Hall).
      exists top. split; [|split].
      * right. destruct Hr as [[-> ->]|(m2 & Hin & -> & Hs2 & Hg2)].
        -- exists m. cbn [In]. auto.
        -- exists m2. cbn [In]. repeat split; auto.
           eapply num_gtb_trans; [exact Hg2|]. now apply num_gtb_leb.
      * eapply num_leb_trans; [apply num_gtb_leb; exact Hgt|exact Hle].
      * intros m' [<-|Hin]; eauto.
    + destruct (IH _ _ _ H) as (top & Hr & Hle & Hall).
      exists top. split; [|split]; auto.
      * destruct Hr as [?|(m2 & Hin & -> & Hs2 & Hg2)]; auto.
        right. exists m2. cbn [In]. auto.
      * intros m' [<-|Hin]; eauto.
        exists s. split; auto.
        eapply num_leb_trans; [apply num_gtb_false; exact Hgt|exact Hle].
Qed.

Lemma bestNext_total (score : GameState -> option Num) (moves : list Candidate) :
  (forall m, In m moves -> exists s, score (cand_next m) = Some s) ->
  forall best bestN, exists r, bestNext score moves best bestN = Some r.
Proof.
  induction moves as [|m rest IH]; intros Hs best bestN; cbn [bestNext]; eauto.
  destruct (Hs m (or_introl eq_refl)) as [s ->].
  assert (Hrest : forall m', In m' rest -> exists s', score (cand_next m') = Some s').
  { intros m' Hin. apply Hs. now right. }
  destruct (num_gtb s best); apply IH; auto.
Qed.

(** When every score is a finite number and the list is not empty, the
    loop started at [-Infinity] returns a candidate's state. *)
Lemma bestNext_first (score : GameState -> option Num) (first : Candidate)
    (rest : list Candidate) (r : GameState) :
  (forall m s, In m (first :: rest) -> score (cand_next m) = Some s -> s <> NegInf) ->
  bestNext score (first :: rest) NegInf (cand_next first) = Some r ->
  exists m top,
    In m (first :: rest) /\ r = cand_next m /\ score (cand_next m) = Some top
    /\ forall m', In m' (first :: rest) ->
         exists s', score (cand_next m') = Some s' /\ num_leb s' top = true.
Proof.
  intros Hfin H.
  destruct (bestNext_spec score _ _ _ _ H) as (top & Hr & _ & Hall).
  destruct Hr as [[-> _]|(m & Hin & -> & Hs & _)].
  - exfalso. destruct (Hall first (or_introl eq_refl)) as (s' & Hs' & Hle).
    apply (Hfin first s' (or_introl eq_refl) Hs'). destruct s'; auto; discriminate.
  - exists m, top. auto.
Qed.

(** X15. At the [Medium] level, when the generator returns at least one
    candidate, [pickAiMove] returns the state of a candidate whose
    evaluation for the computer's colour is the greatest of all the
    candidates' evaluations. *)
Theorem medium_picks_a_best_move (sortRandomly : list Candidate -> list Candidate)
    (gs : GameState) (first : Candidate) (rest : list Candidate) :
  wfGame gs -> level (ai gs) = Medium ->
  generateMoves gs (cpuPlays (ai gs)) = Some (first :: rest) ->
  exists m v,
    In m (first :: rest)
    /\ pickAiMoveAtLevel sortRandomly gs = Some (cand_next m)
    /\ evaluate (cand_next m) (cpuPlays (ai gs)) = Some v
    /\ forall m', In m' (first :: rest) ->
         exists v', evaluate (cand_next m') (cpuPlays (ai gs)) = Some v'
                    /\ (v' <= v)%Q.
Proof.
  intros Hwf Hlevel Hgen.
  destruct (generateMoves_candidates gs (cpuPlays (ai gs)) Hwf) as (mvs & Hmvs & Hcand).
  rewrite Hgen in Hmvs. injection Hmvs as <-.
  set (color := cpuPlays (ai gs)) in *.
  set (score := fun s => match evaluate s color with
                         | Some v => Some (Fin v) | None => None end).
  assert (Htot : forall m, In m (first :: rest) ->
                   exists v, evaluate (cand_next m) color = Some v).
  { intros m Hin. apply evaluate_total. eapply isCandidate_wf; eauto. }
  assert (Hsc : forall m, In m (first :: rest) -> exists s, score (cand_next m) = Some s).
  { intros m Hin. destruct (Htot m Hin) as [v Hv]. unfold score. rewrite Hv. eauto. }
  destruct (bestNext_total score (first :: rest) Hsc NegInf (cand_next first)) as [r Hr].
  destruct (bestNext_first score first rest r) as (m & top & Hin & -> & Hs & Hall); auto.
  { intros m s _. unfold score. destruct (evaluate (cand_next m) color); [|discriminate].
    intros [= <-]. discriminate. }
  unfold score in Hs. destruct (evaluate (cand_next m) color) as [v|] eqn:Hv; [|discriminate].
  injection Hs as <-.
  exists m, v. split; [exact Hin|]. split.
  - unfold pickAiMoveAtLevel. fold color. rewrite Hgen, Hlevel. exact Hr.
  - split; [exact Hv|].
    intros m' Hin'. destruct (Hall m' Hin') as (s' & Hs' & Hle).
    unfold score in Hs'. destruct (evaluate (cand_next m') color) as [v'|]; [|discriminate].
    injection Hs' as <-. exists v'. split; auto. now apply Qle_bool_iff.
Qed.

Lemma num_min_cases (a b : Num) :
  (num_min a b = a \/ num_min a b = b)
  /\ num_leb (num_min a b) a = true /\ num_leb (num_min a b) b = true.
Proof.
  unfold num_min. destruct (num_leb a b) eqn:E.
  - split; [auto|]. split; [apply num_leb_refl|exact E].
  - split; [auto|]. split; [|apply num_leb_refl].
    destruct (num_leb_total a b); congruence.
Qed.

Lemma num_leb_NegInf (a : Num) : a <> NegInf -> num_leb a NegInf = false.
Proof. destruct a; cbn; congruence. Qed.

(** Over leaves, with no lower bound on the window, the minimizing loop
    never breaks: it returns the least of its start value and of the
    leaves' values. *)
Lemma minLoop_leaves (leaf : GameState -> option Num) (list : list Candidate) :
  (forall m, In m list -> exists v, leaf (cand_next m) = Some (Fin v)) ->
  forall val beta, val <> NegInf -> beta <> NegInf ->
    exists r,
      minLoop (fun s _ _ => leaf s) list val NegInf beta = Some r
      /\ r <> NegInf
      /\ num_leb r val = true
      /\ (r = val \/ exists m, In m list /\ leaf (cand_next m) = Some r)
      /\ forall m, In m list ->
           exists v, leaf (cand_next m) = Some v /\ num_leb r v = true.
Proof.
  induction list as [|mv rest IH]; intros Hleaf val beta Hval Hbeta; cbn [minLoop].
  - exists val. split; [reflexivity|]. split; [exact Hval|]. split; [apply num_leb_refl|].
    split; [auto|]. intros m [].
  - destruct (Hleaf mv (or_introl eq_refl)) as [v Hv]. rewrite Hv.
    destruct (num_min_cases val (Fin v)) as (Hc1 & Hl1 & Hl2).
    set (val' := num_min val (Fin v)) in *.
    assert (Hval' : val' <> NegInf) by (destruct Hc1 as [-> | ->]; [auto|discriminate]).
    destruct (num_min_cases beta val') as (Hc2 & _).
    set (beta' := num_min beta val') in *.
    assert (Hbeta' : beta' <> NegInf) by (destruct Hc2 as [-> | ->]; auto).
    rewrite (num_leb_NegInf beta' Hbeta').
    destruct (IH (fun m Hin => Hleaf m (or_intror Hin)) val' beta' Hval' Hbeta')
      as (r & Hr & Hrn & Hrv & Hor & Hall).
    exists r. split; [exact Hr|]. split; [exact Hrn|].
    split; [eapply num_leb_trans; eauto|]. split.
    + destruct Hor as [->|(m & Hin & Hm)].
      * destruct Hc1 as [-> | ->]; [auto|]. right. exists mv. cbn [In]. auto.
      * right. exists m. cbn [In]. auto.
    + intros m [<-|Hin]; [|auto].
      exists (Fin v). split; [exact Hv|]. eapply num_leb_trans; eauto.
Qed.

(** The value of a state at depth 1 for the minimizing side. *)
Lemma replyValue_total (color : Color) (s : GameState) :
  wfGame s -> exists w, replyValue color s w /\ w <> NegInf.
Proof.
  intro Hwf. unfold replyValue. cbn [minimax].
  destruct (generateMoves_candidates s (other color) Hwf) as (replies & Hgen & Hcand).
  destruct (evaluate_total s color Hwf) as [v0 Hv0].
  destruct (winner s) as [win|] eqn:Hw.
  - rewrite Hv0. exists (Fin v0). split; [|discriminate]. split; [reflexivity|].
    exists replies. split; [exact Hgen|]. split; [eauto|]. discriminate.
  - rewrite Hgen. destruct replies as [|r1 rs].
    + rewrite Hv0. exists (Fin v0). split; [|discriminate]. split; [reflexivity|].
      exists []. split; [reflexivity|]. split; [eauto|]. intros _ H. now destruct H.
    + set (leaf := fun st => match evaluate st color with
                             | Some v => Some (Fin v) | None => None end).
      assert (Hleaf : forall m, In m (r1 :: rs) -> exists v, leaf (cand_next m) = Some (Fin v)).
      { intros m Hin. unfold leaf.
        destruct (evaluate_total (cand_next m) color) as [v ->]; eauto.
        eapply isCandidate_wf; eauto. }
      destruct (minLoop_leaves leaf (r1 :: rs) Hleaf PosInf PosInf)
        as (r & Hr & Hrn & _ & Hor & Hall); try discriminate.
      exists r. split; [|exact Hrn]. split; [exact Hr|].
      exists (r1 :: rs). split; [reflexivity|].
      split; [intros [H|H]; [now destruct H|discriminate]|].
      intros _ _.
      assert (Hfin : forall m w, leaf (cand_next m) = Some w ->
                       exists v, evaluate (cand_next m) color = Some v /\ w = Fin v).
      { intros m w. unfold leaf. destruct (evaluate (cand_next m) color) as [v|]; [|discriminate].
        intros [= <-]. eauto. }
      split.
      * destruct Hor as [->|(m & Hin & Hm)].
        -- exfalso. destruct (Hall r1 (or_introl eq_refl)) as (v & Hv & Hle).
           destruct (Hfin _ _ Hv) as (v' & _ & ->). discriminate.
        -- destruct (Hfin _ _ Hm) as (v & Hv & ->). eauto.
      * intros m Hin. destruct (Hall m Hin) as (w & Hw' & Hle).
        destruct (Hfin _ _ Hw') as (v & Hv & ->). eauto.
Qed.

(** X16. At the [Hard] level, when the generator returns at least one
    candidate, [pickAiMove] looks two plies ahead: it values each candidate
    by the worst evaluation the opponent's replies can lead to (the
    candidate's own evaluation when the opponent has no reply), and returns
    the state of a candidate whose value is the greatest. *)
Theorem hard_looks_two_plies_ahead (sortRandomly : list Candidate -> list Candidate)
    (gs : GameState) (first : Candidate) (rest : list Candidate) :
  wfGame gs -> level (ai gs) = Hard ->
  generateMoves gs (cpuPlays (ai gs)) = Some (first :: rest) ->
  exists m w,
    In m (first :: rest)
    /\ pickAiMoveAtLevel sortRandomly gs = Some (cand_next m)
    /\ replyValue (cpuPlays (ai gs)) (cand_next m) w
    /\ forall m', In m' (first :: rest) ->
         exists w', replyValue (cpuPlays (ai gs)) (cand_next m') w'
                    /\ num_leb w' w = true.
Proof.
  intros Hwf Hlevel Hgen.
  destruct (generateMoves_candidates gs (cpuPlays (ai gs)) Hwf) as (mvs & Hmvs & Hcand).
  rewrite Hgen in Hmvs. injection Hmvs as <-.
  set (color := cpuPlays (ai gs)) in *.
  set (score := fun s => minimax 1 s NegInf PosInf false color).
  assert (Htot : forall m, In m (first :: rest) ->
                   exists w, replyValue color (cand_next m) w /\ w <> NegInf).
  { intros m Hin. apply replyValue_total. eapply isCandidate_wf; eauto. }
  assert (Hsc : forall m, In m (first :: rest) -> exists s, score (cand_next m) = Some s).
  { intros m Hin. destruct (Htot m Hin) as (w & [Hw _] & _). eauto. }
  destruct (bestNext_total score (first :: rest) Hsc NegInf (cand_next first)) as [r Hr].
  destruct (bestNext_first score first rest r) as (m & top & Hin & -> & Hs & Hall); auto.
  { intros m s Hin Hs. destruct (Htot m Hin) as (w & [Hw _] & Hn).
    unfold score in Hs. congruence. }
  exists m, top. split; [exact Hin|]. split.
  - unfold pickAiMoveAtLevel. fold color. rewrite Hgen, Hlevel. exact Hr.
  - assert (Hval : forall m' s', In m' (first :: rest) -> score (cand_next m') = Some s' ->
                     replyValue color (cand_next m') s').
    { intros m' s' Hin' Hs'. destruct (Htot m' Hin') as (w & Hw & _).
      destruct Hw as [Hw1 Hw2]. unfold score in Hs'.
      assert (w = s') by congruence. subst w. split; auto. }
    split; [now apply Hval|].
    intros m' Hin'. destruct (Hall m' Hin') as (s' & Hs' & Hle).
    exists s'. split; [now apply Hval|exact Hle].
Qed.

Lemma bestNext_In (score : GameState -> option Num) (moves : list Candidate) :
  forall best bestN r,
    bestNext score moves best bestN = Some r ->
    r = bestN \/ exists m, In m moves /\ r = cand_next m.
Proof.
  intros best bestN r H.
  destruct (bestNext_spec score moves best bestN r H) as (top & [[_ ->]|(m & Hin & -> & _)] & _);
    eauto.
Qed.

(** X17. Whatever its level, the computer opponent plays a candidate of the
    generator or leaves the state as it is: on a well-formed game that is
    not over, the state [pickAiMove] returns is the state itself or the
    result of a candidate move of its colour, which has no winner and no
    message.  The computer never plays a move that ends the game.  (At the
    [Easy] level this holds for any shuffle that returns elements of the
    list it is given.) *)
Theorem ai_never_ends_the_game (sortRandomly : list Candidate -> list Candidate)
    (gs gs' : GameState) :
  (forall l, incl (sortRandomly l) l) ->
  wfGame gs -> winner gs = None ->
  pickAiMoveAtLevel sortRandomly gs = Some gs' ->
  gs' = gs
  \/ exists c,
       isCandidate gs (cpuPlays (ai gs)) c /\ gs' = cand_next c
       /\ winner gs' = None /\ truthy (message gs') = false.
Proof.
  intros Hsort Hwf Hw. unfold pickAiMoveAtLevel.
  destruct (generateMoves_candidates gs (cpuPlays (ai gs)) Hwf) as (mvs & -> & Hcand).
  destruct mvs as [|first rest]; [intros [= <-]; auto|].
  assert (Hok : forall c, In c (first :: rest) ->
                  exists c', isCandidate gs (cpuPlays (ai gs)) c' /\ cand_next c = cand_next c'
                             /\ winner (cand_next c) = None
                             /\ truthy (message (cand_next c)) = false).
  { intros c Hin. exists c. pose proof (Hcand c Hin) as Hc.
    split; [exact Hc|]. split; [reflexivity|].
    split; [exact (isCandidate_no_winner gs _ c Hw Hc)|].
    destruct Hc as (sq & ms & m & n & n2 & _ & _ & _ & _ & _ & _ & Hmsg & ->). exact Hmsg. }
  destruct (level (ai gs)).
  - destruct (sortRandomly (first :: rest)) as [|s0 l] eqn:Es; [discriminate|].
    intros [= <-]. right. apply Hok. apply (Hsort (first :: rest)). rewrite Es. now left.
  - intro H. right.
    destruct (bestNext_In _ _ _ _ _ H) as [->|(m & Hin & ->)]; apply Hok; auto. now left.
  - intro H. right.
    destruct (bestNext_In _ _ _ _ _ H) as [->|(m & Hin & ->)]; apply Hok; auto. now left.
Qed.

Lemma cpuMedium_wfGame : wfGame cpuMedium.
Proof. split; [vm_compute; reflexivity|]. intros sq c. discriminate. Qed.

Lemma cpuHard_wfGame : wfGame cpuHard.
Proof. split; [vm_compute; reflexivity|]. intros sq c. discriminate. Qed.

Lemma medium_picks_a_best_move_witness :
  exists first rest m v,
    generateMoves cpuMedium white = Some (first :: rest)
    /\ In m (first :: rest)
    /\ pickAiMoveAtLevel (fun l => l) cpuMedium = Some (cand_next m)
    /\ evaluate (cand_next m) white = Some v.
Proof.
  assert (Hg : exists first rest, generateMoves cpuMedium white = Some (first :: rest)).
  { do 2 eexists. vm_compute. reflexivity. }
  destruct Hg as (first & rest & Hg).
  destruct (medium_picks_a_best_move (fun l => l) cpuMedium first rest
              cpuMedium_wfGame eq_refl Hg) as (m & v & Hin & Hp & Hv & _).
  exists first, rest, m, v. auto.
Defined.

Lemma hard_looks_two_plies_ahead_witness :
  exists first rest m w,
    generateMoves cpuHard white = Some (first :: rest)
    /\ In m (first :: rest)
    /\ pickAiMoveAtLevel (fun l => l) cpuHard = Some (cand_next m)
    /\ replyValue white (cand_next m) w.
Proof.
  assert (Hg : exists first rest, generateMoves cpuHard white = Some (first :: rest)).
  { do 2 eexists. vm_compute. reflexivity. }
  destruct Hg as (first & rest & Hg).
  destruct (hard_looks_two_plies_ahead (fun l => l) cpuHard first rest
              cpuHard_wfGame eq_refl Hg) as (m & w & Hin & Hp & Hv & _).
  exists first, rest, m, w. auto.
Defined.

Lemma ai_never_ends_the_game_witness :
  exists gs',
    pickAiMoveAtLevel (fun l => l) cpuHard = Some gs'
    /\ (gs' = cpuHard
        \/ exists c, isCandidate cpuHard white c /\ gs' = cand_next c
                     /\ winner gs' = None /\ truthy (message gs') = false).
Proof.
  assert (Hp : exists gs', pickAiMoveAtLevel (fun l => l) cpuHard = Some gs').
  { eexists. vm_compute. reflexivity. }
  destruct Hp as (gs' & Hp). exists gs'. split; [exact Hp|].
  apply (ai_never_ends_the_game (fun l => l) cpuHard gs').
  - intros l x Hx. exact Hx.
  - exact cpuHard_wfGame.
  - reflexivity.
  - exact Hp.
Defined.


(** ** Kings and their flags, in games without promotions *)

Ltac accounted Hd :=
  let Hf := fresh "Hf" in
  split; [lia|split; [lia|split; [lia|
    split; intro Hf; [apply Hd in Hf; lia|apply Hd; lia]]]].

Lemma occCount_K_range (c : Color) (o : Occupant) : 0 <= occCount c K o <= 1.
Proof. apply occCount_range. Qed.

(** One transformation keeps the kings accounted for. *)
Lemma transformOccupant_flags (g : GameState) (p : Z) (n : PieceType) (o : Occupant)
    (k : Color -> Z) :
  isLoanPiece o = false ->
  kingsAccounted g k (fun c => occCount c K o) ->
  kingsAccounted (fst (transformOccupant g p n o)) k
    (fun c => occCount c K (snd (transformOccupant g p n o))).
Proof.
  intros Hloan HJ. unfold transformOccupant.
  destruct o as [|c0|c0 cur born loan ret]; cbn [fst snd]; auto.
  - destruct (getCT (stock g) c0 n >? 0) eqn:E; cbn [fst snd]; auto.
    apply Z.gtb_lt in E. intro c. specialize (HJ c).
    pose proof (HJ' := HJ). clear HJ.
    destruct c, c0, n; cbn in *; lia || intuition (try lia; try congruence).
  - destruct loan; [discriminate|].
    destruct (negb (type_eqb cur n) && (getCT (stock g) c0 n >? 0)) eqn:E;
      cbn [fst snd]; auto.
    apply andb_true_iff in E as [En E]. apply Z.gtb_lt in E.
    apply negb_true_iff, type_eqb_neq in En.
    intro c. pose proof (HJ c) as HJc. pose proof (HJ c0) as HJ0.
    destruct c, c0, cur, n; try (exfalso; apply En; reflexivity);
      cbn in *; intuition (try lia; try congruence).
Qed.

Lemma sweepSquares_flags (sqs : list Square) :
  forall g k,
    noLoans sqs ->
    kingsAccounted g k (fun c => nonLoanCount sqs c K) ->
    kingsAccounted (fst (sweepSquares g sqs)) k
      (fun c => nonLoanCount (snd (sweepSquares g sqs)) c K).
Proof.
  induction sqs as [|sq rest IH]; intros g k Hno HJ; cbn [sweepSquares fst snd]; auto.
  inversion Hno as [|? ? Hsq Hrest]; subst.
  assert (H1 : kingsAccounted (fst (transformSquare g sq))
                 (fun c => k c + nonLoanCount rest c K)
                 (fun c => occCount c K (occupant (snd (transformSquare g sq))))).
  { assert (H0 : kingsAccounted g (fun c => k c + nonLoanCount rest c K)
                   (fun c => occCount c K (occupant sq))).
    { intro c. specialize (HJ c). cbn beta in *. cbn [nonLoanCount] in HJ.
      pose proof (nonLoanCount_nonneg rest c K).
      pose proof (occCount_K_range c (occupant sq)).
      destruct HJ as (Ha & Hb & Hc & Hd). accounted Hd. }
    unfold transformSquare.
    destruct (negb (inZone (rank sq))); cbn [fst snd]; auto.
    destruct (blueSymbol sq) as [n|]; cbn [fst snd]; auto.
    pose proof (transformOccupant_flags g (moveNumber g) n (occupant sq) _ Hsq H0) as H.
    destruct (transformOccupant g (moveNumber g) n (occupant sq)) as [g' o'].
    exact H. }
  destruct (transformSquare g sq) as [g1 sq']. cbn [fst snd] in H1.
  assert (H2 : kingsAccounted g1 (fun c => k c + occCount c K (occupant sq'))
                 (fun c => nonLoanCount rest c K)).
  { intro c. specialize (H1 c). cbn beta in *.
    pose proof (occCount_K_range c (occupant sq')).
    pose proof (nonLoanCount_nonneg rest c K).
    destruct (HJ c) as (_ & Hk & _).
    destruct H1 as (Ha & Hb & Hc & Hd). accounted Hd. }
  specialize (IH g1 _ Hrest H2).
  destruct (sweepSquares g1 rest) as [g2 rest']. cbn [fst snd] in *.
  intro c. specialize (IH c). specialize (HJ c). cbn beta in *. cbn [nonLoanCount].
  cbn [occupant] in *.
  pose proof (occCount_K_range c (occupant sq')).
  destruct IH as (Ha & Hb & Hc & Hd). destruct HJ as (_ & Hk & _).
  accounted Hd.
Qed.

Lemma occCount_isKingOf (c : Color) (o : Occupant) :
  isLoanPiece o = false ->
  occCount c K o = if isKingOf c o then 1 else 0.
Proof.
  destruct o as [|c0|c0 t born [|] ret]; cbn; auto; [discriminate|].
  intros _. destruct t; cbn; rewrite ?andb_false_r, ?andb_true_r; auto.
Qed.

Lemma king_found (c : Color) (b : list Square) :
  noLoans b ->
  (1 <= nonLoanCount b c K
   <-> exists s, find (fun sq => isKingOf c (occupant sq)) b = Some s).
Proof.
  induction 1 as [|x b Hx Hb IH]; cbn [nonLoanCount find].
  - split; [lia|intros [s H]; discriminate].
  - rewrite (occCount_isKingOf c _ Hx).
    pose proof (nonLoanCount_nonneg b c K).
    destruct (isKingOf c (occupant x)).
    + split; [eauto|lia].
    + rewrite <- IH. split; lia.
Qed.

Lemma activeCount_noLoans (gs : GameState) (c : Color) (t : PieceType) :
  noLoans (board gs) -> activeCount gs c t = nonLoanCount (board gs) c t.
Proof.
  unfold activeCount.
  assert (H : forall b acc, noLoans b ->
            fold_left
              (fun a sq => match occupant sq with
                           | Piece pc pt _ _ _ =>
                               if color_eqb pc c && type_eqb pt t then a + 1 else a
                           | _ => a
                           end) b acc
            = acc + nonLoanCount b c t).
  { induction b as [|x b IH]; intros acc Hno; cbn [fold_left nonLoanCount]; [lia|].
    inversion Hno as [|? ? Hx Hb]; subst. rewrite (IH _ Hb).
    unfold occCount. destruct (occupant x) as [|c0|c0 t0 born [|] ret]; try lia;
      [discriminate|].
    destruct (color_eqb c0 c && type_eqb t0 t); lia. }
  intros Hno. rewrite (H _ _ Hno). lia.
Qed.

(** The landing phases of a move keep the kings accounted for. *)
Lemma landed_flags (gs : GameState) (a : SquareId) (sFrom to : Square) (c0 : Color) :
  find (hasId a) (board gs) = Some sFrom ->
  find (hasId (id to)) (board gs) = Some to ->
  a <> id to ->
  noLoans (board gs) ->
  kingsAccounted gs (fun _ => 0) (fun c => nonLoanCount (board gs) c K) ->
  let l := landed gs a to c0 in
  kingsAccounted l (fun _ => 0) (fun c => nonLoanCount (board l) c K).
Proof.
  intros Hfrom Hto Hne Hno HJ. unfold landed.
  destruct (recordCapture_fields gs (occupant to)) as (Hb1 & _ & _ & _ & _ & Hs1 & _).
  assert (Hk1 : forall c,
             getC (kingOnBoard (fst (recordCapture gs (occupant to)))) c
             = if isKingOf c (occupant to) then false else getC (kingOnBoard gs) c).
  { intro c. unfold recordCapture.
    destruct (occupant to) as [| |tc ty born loan ret]; cbn [fst isKingOf]; auto.
    destruct ty; cbn [type_eqb fst kingOnBoard setKingOnBoard setQuietus]; auto.
    rewrite getC_setC. reflexivity. }
  set (n1 := fst (recordCapture gs (occupant to))) in *.
  set (mover := occupant sFrom).
  assert (Hmover : isLoanPiece mover = false) by (eapply find_noLoans; eauto).
  assert (Htarget : isLoanPiece (occupant to) = false) by (eapply find_noLoans; eauto).
  set (n2 := moveOccupant n1 a (id to) c0).
  assert (Hocc : occupantOf (board n1) a = mover).
  { unfold occupantOf. now rewrite Hb1, Hfrom. }
  assert (Hb2 : board n2
                = setOccupantAt a Null (setOccupantAt (id to) mover (board gs))).
  { subst n2. unfold moveOccupant. cbn [board setLastMove setBoard].
    now rewrite Hocc, Hb1. }
  assert (Hfa : find (hasId a) (setOccupantAt (id to) mover (board gs)) = Some sFrom).
  { rewrite find_hasId_set.
    assert (E : String.eqb (id to) a = false) by (apply String.eqb_neq; congruence).
    now rewrite E. }
  assert (Hfind2 : find (hasId (id to)) (board n2) = Some (withOccupant to mover)).
  { rewrite Hb2, !find_hasId_set.
    apply String.eqb_neq in Hne. rewrite Hne, String.eqb_refl, Hto. reflexivity. }
  assert (Hcnt2 : forall c, nonLoanCount (board n2) c K
                            = nonLoanCount (board gs) c K - occCount c K (occupant to)).
  { intros c. rewrite Hb2.
    rewrite (setOccupantAt_count a Null _ sFrom c K Hfa).
    rewrite (setOccupantAt_count (id to) mover _ to c K Hto).
    fold mover. cbn [occCount]. lia. }
  assert (HJ2 : kingsAccounted n2 (fun _ => 0) (fun c => nonLoanCount (board n2) c K)).
  { intro c. destruct (HJ c) as (Ha & _ & Hc & Hd). cbn beta in *.
    change (stock n2) with (stock n1). change (kingOnBoard n2) with (kingOnBoard n1).
    rewrite Hs1, Hk1, Hcnt2, (occCount_isKingOf c _ Htarget).
    pose proof (find_occCount (id to) (board gs) to c K Hto) as Hle.
    rewrite (occCount_isKingOf c _ Htarget) in Hle.
    pose proof (nonLoanCount_nonneg (board gs) c K).
    destruct (isKingOf c (occupant to)).
    - split; [lia|split; [lia|split; [lia|split; [discriminate|lia]]]].
    - rewrite Z.sub_0_r. accounted Hd. }
  assert (Ho2 : occupantOf (board n2) (id to) = mover).
  { unfold occupantOf. now rewrite Hfind2. }
  assert (H3 : landLoan n2 to = n2).
  { unfold landLoan. rewrite Ho2.
    destruct mover as [| |? ? ? [|] ?]; auto. discriminate. }
  rewrite H3.
  assert (H4 : kingsAccounted (landTransform n2 to) (fun _ => 0)
                 (fun c => nonLoanCount (board (landTransform n2 to)) c K)).
  { unfold landTransform.
    destruct (blueSymbol to) as [n|]; auto.
    destruct (inZone (rank to)); auto.
    rewrite Ho2.
    assert (H0 : kingsAccounted n2
                   (fun c => nonLoanCount (board n2) c K - occCount c K mover)
                   (fun c => occCount c K mover)).
    { intro c. destruct (HJ2 c) as (Ha & _ & Hc & Hd). cbn beta in *.
      pose proof (find_occCount (id to) (board n2) _ c K Hfind2) as Hle.
      cbn [occupant withOccupant] in Hle.
      accounted Hd. }
    pose proof (transformOccupant_flags n2 (moveNumber n2 + 1) n mover _ Hmover H0) as H.
    pose proof (transformOccupant_rules n2 (moveNumber n2 + 1) n mover) as [_ Hb4].
    destruct (transformOccupant n2 (moveNumber n2 + 1) n mover) as [g4 o4].
    cbn [fst snd board setBoard stock kingOnBoard] in *.
    intro c. destruct (H c) as (Ha & Hb & Hc & Hd). cbn beta in *.
    rewrite Hb4, (setOccupantAt_count (id to) o4 _ _ c K Hfind2).
    cbn [occupant withOccupant stock kingOnBoard setBoard].
    accounted Hd. }
  destruct (markPromotion_fields (landTransform n2 to) to)
    as (Hb5 & _ & _ & _ & Hs5 & _ & Hk5 & _).
  cbv zeta. intro c. destruct (H4 c) as (Ha & Hb & Hc & Hd). cbn beta in *.
  rewrite Hb5, Hs5, Hk5. accounted Hd.
Qed.

(** A move keeps the kings accounted for. *)
Lemma move_flags (gs : GameState) (a b : SquareId) (gs' : GameState) :
  wfBoard (board gs) -> noLoans (board gs) ->
  (forall c t, holding gs c t <= cap t) ->
  kingsAccounted gs (fun _ => 0) (fun c => nonLoanCount (board gs) c K) ->
  performMove gs a b = Some gs' ->
  kingsAccounted gs' (fun _ => 0) (fun c => nonLoanCount (board gs') c K).
Proof.
  intros Hwf Hno Hle HJ Hmove.
  destruct (performMove_cases _ _ _ _ Hmove) as [[-> _]|[(msg & _ & -> & _)|Hacc]]; auto.
  pose proof (accepted_distinct gs a b gs' Hwf Hacc) as Hne.
  destruct Hacc as (sFrom & to & c0 & legal & _ & Hfrom & Hto & _ & _ & _ & _ & _ & Happ).
  destruct (applyMove_inv _ _ _ _ _ Happ) as (win & _ & ->).
  destruct (withWin_fields (settled gs a to c0) win) as (Hb & _ & _ & _ & Hs & _ & Hk & _).
  pose proof (find_hasId_id _ _ _ Hto) as Hid. rewrite <- Hid in Hto, Hne.
  destruct (landed_balanced gs a sFrom to c0 Hfrom Hto Hne Hno Hle) as [Hnol _].
  pose proof (landed_flags gs a sFrom to c0 Hfrom Hto Hne Hno HJ) as HJl.
  cbv zeta in HJl.
  set (l := landed gs a to c0) in *.
  assert (E : expireLoans (advanceTurn l) = advanceTurn l).
  { unfold expireLoans.
    rewrite (expireSquares_noLoans (board (advanceTurn l)) (advanceTurn l) Hnol).
    destruct l; reflexivity. }
  assert (Hsw : kingsAccounted (applyAutoTransforms (advanceTurn l)) (fun _ => 0)
                  (fun c => nonLoanCount (board (applyAutoTransforms (advanceTurn l))) c K)).
  { unfold applyAutoTransforms, deepClone.
    pose proof (sweepSquares_flags (board (advanceTurn l)) (advanceTurn l) (fun _ => 0)
                  Hnol HJl) as H.
    destruct (sweepSquares (advanceTurn l) (board (advanceTurn l))) as [g' b'].
    exact H. }
  intro c. destruct (Hsw c) as (Ha & Hb' & Hc & Hd). cbn beta in *.
  rewrite Hb, Hs, Hk. unfold settled. fold l. rewrite E.
  cbn [board stock kingOnBoard setMessage setSelected].
  accounted Hd.
Qed.

(** X18. In a game played without promotions the king flags tell the
    truth: from a new game, after any moves (captures included, no
    promotion choice), [kingOnBoard[c]] is true exactly when a king of
    colour [c] stands on the board, there is never more than one king of a
    colour, and no piece is on loan. *)
Theorem king_flags_are_truthful (rnd : nat -> Z) (g0 g : GameState)
    (Hinit : initialGame rnd = Some g0) (Hrun : MoveRun g0 g) :
  forall c,
    (getC (kingOnBoard g) c = true <-> exists ksq, findKingSquare g c = Some ksq)
    /\ activeCount g c K <= 1
    /\ noLoans (board g).
Proof.
  assert (HJ : kingsAccounted g (fun _ => 0) (fun c => nonLoanCount (board g) c K)).
  { induction Hrun as [|g g' a b Hrun IH Hmove].
    - destruct (initialGame_balanced rnd g0 Hinit) as (_ & _ & Hh).
      unfold initialGame in Hinit.
      destruct (createInitialBoard_pieces rnd) as (b & Hb & _ & _ & Hcnt).
      rewrite Hb in Hinit. injection Hinit as <-.
      intro c. cbn [board stock kingOnBoard]. rewrite Hcnt.
      destruct c; cbn; split; try lia; (split; [lia|split; [lia|split; [discriminate|lia]]]).
    - destruct (MoveRun_balanced rnd g0 Hinit g Hrun) as (Hwf & Hno & Hle).
      eapply move_flags; eauto. }
  destruct (MoveRun_balanced rnd g0 Hinit g Hrun) as (_ & Hno & _).
  intro c. destruct (HJ c) as (Ha & _ & Hc & Hd). cbn beta in *.
  pose proof (nonLoanCount_nonneg (board g) c K) as Hn.
  split; [|split; [rewrite (activeCount_noLoans g c K Hno); lia|exact Hno]].
  unfold findKingSquare. rewrite <- (king_found c (board g) Hno).
  rewrite Hd. lia.
Qed.

Lemma king_flags_are_truthful_witness :
  exists g0 g1,
    initialGame (fun _ => 0) = Some g0
    /\ performMove g0 "e7" "e6" = Some g1
    /\ (getC (kingOnBoard g1) white = true
        <-> exists ksq, findKingSquare g1 white = Some ksq).
Proof.
  eexists. eexists.
  split; [vm_compute; reflexivity|].
  split; [vm_compute; reflexivity|].
  refine (proj1 (king_flags_are_truthful (fun _ => 0) _ _ _ _ white)).
  - vm_compute; reflexivity.
  - eapply (@moves_step _ _ _ "e7" "e6"); [apply moves_start | vm_compute; reflexivity].
Defined.


(** ** The end of the game *)













(** ** Attacks by pawns *)

Lemma occupantAt_inBounds (b : list Square) (f r : Z) (o : Occupant) :
  wfBoard b -> occupantAt b f r = Some o -> inBounds f r = true.
Proof.
  intros Hwf H. unfold occupantAt in H.
  destruct (find (atCoord f r) b) as [s|] eqn:Hs; [|discriminate].
  apply find_some in Hs as [Hin Hat].
  unfold atCoord in Hat. apply andb_true_iff in Hat as [Hf Hr].
  apply Z.eqb_eq in Hf, Hr. subst.
  now destruct (wf_place b Hwf s Hin).
Qed.

(** X20. [isSquareAttacked] reads a pawn's moves, not its captures: an
    empty square is attacked by a pawn exactly when it is the square
    straight ahead of the pawn, and never when it is diagonally ahead.  So
    a king may step next to a pawn's capture squares, and the square in
    front of a pawn counts as attacked. *)
Theorem pawn_attacks_where_it_moves (gs : GameState) (sq : Square) (c : Color)
    (born : Z) (loan : bool) (ret : option Z) (f r : Z) :
  wfBoard (board gs) -> In sq (board gs) ->
  occupant sq = Piece c P born loan ret ->
  occupantAt (board gs) f r = Some Null ->
  exists ms,
    legalMovesForPiece gs sq = Some ms
    /\ (In (f, r) ms <-> f = file sq /\ r = rank sq + pawnDir c)
    /\ (f = file sq -> r = rank sq + pawnDir c ->
        isSquareAttacked gs f r c = Some true).
Proof.
  intros Hwf Hin Ho Hat.
  destruct (wf_place (board gs) Hwf sq Hin) as [Hb _].
  pose proof (occupantAt_inBounds _ _ _ _ Hwf Hat) as Hfr.
  destruct (legalMovesForPiece_spec gs sq c P born loan ret Hwf Hb Ho) as (ms & Hms & Hspec).
  exists ms. split; [exact Hms|].
  assert (Hiff : In (f, r) ms <-> f = file sq /\ r = rank sq + pawnDir c).
  { rewrite Hspec. cbn [geometryDest]. unfold pawnDest. cbn [fst snd]. split.
    - intros (_ & Hr & [[Hf _]|[_ (o & Ho' & He)]]); [auto|].
      rewrite Hat in Ho'. injection Ho' as <-. discriminate.
    - intros [-> ->]. split; [exact Hfr|]. split; [reflexivity|]. left. auto. }
  split; [exact Hiff|].
  intros Hf Hr. apply isSquareAttacked_iff; auto.
  exists sq, ms. split; [exact Hin|]. split; [rewrite Ho; cbn; apply color_eqb_refl|].
  split; [exact Hms|]. apply Hiff. auto.
Qed.

Lemma pawn_attacks_where_it_moves_witness :
  isSquareAttacked pawnOnA3 0 2 white = Some true.
Proof.
  assert (Hwf : wfBoard (board pawnOnA3)) by (vm_compute; reflexivity).
  assert (Hin : In squareA3 (board pawnOnA3)) by (vm_compute; tauto).
  destruct (pawn_attacks_where_it_moves pawnOnA3 squareA3 white 1 false None 0 2
              Hwf Hin eq_refl eq_refl) as (ms & _ & _ & H).
  apply H; reflexivity.
Defined.

(** ** The promotion square *)





(** ** Boards and their colours *)

(** X22. The two colours of the board alternate like a chess board: for
    coordinates whose sum is not negative, a square and its neighbour on
    the same rank or on the same file have different colours, and a square
    and its diagonal neighbour have the same colour; a1 (file 0, rank 1) is
    dark. *)
Theorem woodColor_is_a_checkerboard (f r : Z) :
  0 <= f + r ->
  woodColor f r <> woodColor (f + 1) r
  /\ woodColor f r <> woodColor f (r + 1)
  /\ woodColor f r = woodColor (f + 1) (r + 1)
  /\ woodColor 0 1 = oak.
Proof.
  intro H. unfold woodColor.
  replace (f + 1 + r) with (f + r + 1) by lia.
  replace (f + (r + 1)) with (f + r + 1) by lia.
  replace (f + 1 + (r + 1)) with (f + r + 2) by lia.
  rewrite !Z.rem_mod_nonneg by lia.
  assert (E1 : (f + r + 1) mod 2 = 1 - (f + r) mod 2).
  { pose proof (Z.mod_pos_bound (f + r) 2 ltac:(lia)).
    pose proof (Z.mod_pos_bound (f + r + 1) 2 ltac:(lia)).
    pose proof (Z.div_mod (f + r) 2 ltac:(lia)).
    pose proof (Z.div_mod (f + r + 1) 2 ltac:(lia)). lia. }
  assert (E2 : (f + r + 2) mod 2 = (f + r) mod 2).
  { replace (f + r + 2) with (f + r + 1 * 2) by lia. apply Z.mod_add. lia. }
  rewrite E1, E2.
  pose proof (Z.mod_pos_bound (f + r) 2 ltac:(lia)) as Hb.
  assert (Hc : (f + r) mod 2 = 0 \/ (f + r) mod 2 = 1) by lia.
  destruct Hc as [-> | ->]; cbn; repeat split; auto; discriminate.
Qed.

Lemma woodColor_is_a_checkerboard_witness :
  woodColor 0 1 <> woodColor 1 1 /\ woodColor 0 1 = woodColor 1 2.
Proof.
  destruct (woodColor_is_a_checkerboard 0 1 ltac:(lia)) as (H1 & _ & H3 & _).
  split; [exact H1|exact H3].
Defined.


(** ** Square identifiers *)

Lemma rank_text_inj (r r' : Z) :
  NilZero.string_of_int (Z.to_int r) = NilZero.string_of_int (Z.to_int r') -> r = r'.
Proof.
  intro H. apply DecimalZ.to_int_inj.
  assert (Hn : forall z, Z.to_int z <> Decimal.Pos Decimal.Nil
                         /\ Z.to_int z <> Decimal.Neg Decimal.Nil).
  { intros [|p|p]; cbn; split; try discriminate;
      intros [= E]; now apply Unsigned.to_uint_nonnil in E. }
  destruct (Hn r) as [H1 H2]. destruct (Hn r') as [H1' H2'].
  pose proof (NilZero.isi (Z.to_int r) H1 H2) as E.
  pose proof (NilZero.isi (Z.to_int r') H1' H2') as E'.
  rewrite H in E. congruence.
Qed.

Lemma find_id_grid (i : SquareId) (b : list Square) :
  wfBoard b ->
  option_map place (find (hasId i) b) = find (idKey i) (map place emptyBoard).
Proof.
  intro Hwf. rewrite <- Hwf. apply (find_place (idKey i) b).
Qed.

(** X23. [idFrom] names the squares: on the 64-square board, the
    identifier of in-bounds coordinates finds the square of these
    coordinates, the one that the lookup by coordinates finds; two
    different in-bounds coordinates have different identifiers; and the
    identifier of coordinates that are not on the board (a file outside
    0..7, read as [undefined], or a rank outside 1..8) finds no square. *)
Theorem idFrom_names_the_square (b : list Square) (f r : Z) :
  wfBoard b ->
  (inBounds f r = true ->
   (exists s, find (hasId (idFrom f r)) b = Some s /\ file s = f /\ rank s = r
              /\ find (atCoord f r) b = Some s)
   /\ forall f' r', inBounds f' r' = true -> idFrom f r = idFrom f' r' ->
        f = f' /\ r = r')
  /\ (inBounds f r = false -> find (hasId (idFrom f r)) b = None).
Proof.
  intro Hwf. split.
  - intro Hb. split.
    + destruct (find_coord_wf b Hwf f r Hb) as (s & Hs & _ & Hf & Hr & _).
      exists s. rewrite (find_id_coord b Hwf f r Hb). auto.
    + intros f' r' Hb' E.
      destruct (find_coord_wf b Hwf f r Hb) as (s & Hs & _ & Hf & Hr & _).
      destruct (find_coord_wf b Hwf f' r' Hb') as (s' & Hs' & _ & Hf' & Hr' & _).
      rewrite <- (find_id_coord b Hwf f r Hb) in Hs.
      rewrite <- (find_id_coord b Hwf f' r' Hb'), <- E in Hs'.
      rewrite Hs in Hs'. injection Hs' as <-. split; congruence.
  - intro Hout.
    pose proof (find_id_grid (idFrom f r) b Hwf) as E.
    destruct (find (hasId (idFrom f r)) b) as [s|]; [exfalso|reflexivity].
    cbn [option_map] in E. symmetry in E.
    apply find_some in E as [Hin E].
    pose proof grid_places as Hgrid. rewrite forallb_forall in Hgrid.
    specialize (Hgrid _ Hin). apply andb_true_iff in Hgrid as [Hb' Hid].
    unfold idKey in E. apply String.eqb_eq in E, Hid.
    destruct (place s) as [[i f'] r']. cbn [fst snd] in *. subst i.
    clear Hin s. revert Hid. unfold idFrom.
    set (t := NilZero.string_of_int (Z.to_int r)).
    set (t' := NilZero.string_of_int (Z.to_int r')).
    apply inBounds_iff in Hb'. destruct Hb' as [Hf' Hr'].
    assert (E' : (f' <? 0) = false) by (apply Z.ltb_ge; lia). rewrite E'.
    assert (Hc' : f' = 0 \/ f' = 1 \/ f' = 2 \/ f' = 3 \/ f' = 4 \/ f' = 5 \/ f' = 6
                  \/ f' = 7) by lia.
    assert (Hfile : f < 0 \/ 8 <= f \/ 0 <= f < 8) by lia.
    destruct Hfile as [Hf|[Hf|Hf]].
    + apply Z.ltb_lt in Hf. rewrite Hf.
      destruct Hc' as [->|[->|[->|[->|[->|[->|[->| ->]]]]]]]; cbn; discriminate.
    + assert (E : (f <? 0) = false) by (apply Z.ltb_ge; lia). rewrite E.
      assert (Eu : nth (Z.to_nat f) FILES "undefined" = "undefined").
      { apply nth_overflow. change (List.length FILES) with 8%nat. lia. }
      rewrite Eu.
      destruct Hc' as [->|[->|[->|[->|[->|[->|[->| ->]]]]]]]; cbn; discriminate.
    + assert (Hr : ~ 1 <= r <= 8).
      { intro Hr. assert (inBounds f r = true) by (apply inBounds_iff; lia). congruence. }
      assert (E : (f <? 0) = false) by (apply Z.ltb_ge; lia). rewrite E.
      assert (Ht : t' <> t).
      { intro Heq. apply rank_text_inj in Heq. lia. }
      assert (Hc : f = 0 \/ f = 1 \/ f = 2 \/ f = 3 \/ f = 4 \/ f = 5 \/ f = 6 \/ f = 7)
        by lia.
      clearbody t t'.
      destruct Hc as [->|[->|[->|[->|[->|[->|[->| ->]]]]]]];
        destruct Hc' as [->|[->|[->|[->|[->|[->|[->| ->]]]]]]];
        cbn; intros [= Heq]; auto.
Qed.

Lemma idFrom_names_the_square_witness :
  (exists s, find (hasId (idFrom 0 3)) (board pawnOnA3) = Some s
             /\ file s = 0 /\ rank s = 3)
  /\ find (hasId (idFrom 8 3)) (board pawnOnA3) = None.
Proof.
  assert (Hwf : wfBoard (board pawnOnA3)) by (vm_compute; reflexivity).
  split.
  - destruct (proj1 (proj1 (idFrom_names_the_square (board pawnOnA3) 0 3 Hwf) eq_refl))
      as (s & Hs & Hf & Hr & _).
    exists s. auto.
  - exact (proj2 (idFrom_names_the_square (board pawnOnA3) 8 3 Hwf) eq_refl).
Defined.


(** ** Conservation of the pieces *)

(** A move takes from the holdings what it adds to the quietus. *)
Lemma move_accounts (gs : GameState) (a b : SquareId) (gs' : GameState) :
  wfBoard (board gs) -> noLoans (board gs) ->
  (forall c t, holding gs c t <= cap t) ->
  performMove gs a b = Some gs' ->
  forall c t,
    holding gs' c t + getCT (quietus gs') c t = holding gs c t + getCT (quietus gs) c t.
Proof.
  intros Hwf Hno Hle Hmove.
  destruct (performMove_cases _ _ _ _ Hmove) as [[-> _]|[(msg & _ & -> & _)|Hacc]]; auto.
  pose proof (accepted_distinct gs a b gs' Hwf Hacc) as Hne.
  destruct Hacc as (sFrom & to & c0 & legal & _ & Hfrom & Hto & _ & _ & _ & _ & _ & Happ).
  destruct (applyMove_inv _ _ _ _ _ Happ) as (win & _ & ->).
  destruct (withWin_fields (settled gs a to c0) win) as (Hb & _ & _ & _ & Hs & Hq & _).
  pose proof (find_hasId_id _ _ _ Hto) as Hid. rewrite <- Hid in Hto, Hne.
  destruct (landed_balanced gs a sFrom to c0 Hfrom Hto Hne Hno Hle) as [Hnol Hhl].
  assert (Hlel : forall c t, holding (landed gs a to c0) c t <= cap t).
  { intros c' t'. rewrite Hhl. specialize (Hle c' t').
    pose proof (occCount_range c' t' (occupant to)). lia. }
  destruct (settle_balanced (landed gs a to c0) Hnol Hlel) as [_ Hhs].
  intros c t.
  assert (Hh : holding (withWin (settled gs a to c0) win) c t
               = holding gs c t - occCount c t (occupant to)).
  { unfold holding in *. rewrite Hb, Hs.
    unfold settled. cbn [board stock setMessage setSelected].
    rewrite Hhs. apply Hhl. }
  rewrite Hh, Hq, settled_quietus.
  pose proof (find_noLoans (id to) (board gs) to Hno Hto) as Hloan.
  unfold recordCapture, occCount.
  destruct (occupant to) as [|c1|tc ty born [|] ret]; cbn [fst]; try lia; [discriminate|].
  destruct (type_eqb ty K); cbn [fst quietus setKingOnBoard setQuietus];
    rewrite getCT_setCT; destruct (color_eqb tc c && type_eqb ty t) eqn:E; try lia;
    apply andb_true_iff in E as [Ec Et];
    apply color_eqb_eq in Ec; apply type_eqb_eq in Et; subst; lia.
Qed.

Lemma Run_nonneg (rnd : nat -> Z) (g0 g : GameState) :
  initialGame rnd = Some g0 -> Run g0 g ->
  forall c t, 0 <= getCT (stock g) c t /\ 0 <= getCT (quietus g) c t.
Proof.
  intros Hinit Hrun.
  induction Hrun as [|g g' a b _ IH Hmove|g g' t' _ IH Hp].
  - unfold initialGame in Hinit. destruct (createInitialBoard rnd); [|discriminate].
    injection Hinit as <-. intros [] []; cbn; lia.
  - eapply performMove_nonneg; eauto.
  - eapply applyPromotionChoice_nonneg; eauto.
Qed.

Lemma MoveRun_Run (g0 g : GameState) : MoveRun g0 g -> Run g0 g.
Proof. induction 1; [apply run_start|eapply run_move; eauto]. Qed.

(** X24. No piece is ever lost or made in a game without promotions: from
    a new game, after any moves (captures included, no promotion choice),
    for every colour and type the pieces in the stock, on the board and in
    the quietus add up to the initial cap K1, Q1, R2, B2, N2, P8, and each
    of the three counts is at least 0. *)
Theorem pieces_are_conserved (rnd : nat -> Z) (g0 g : GameState)
    (Hinit : initialGame rnd = Some g0) (Hrun : MoveRun g0 g) :
  forall c t,
    getCT (stock g) c t + activeCount g c t + getCT (quietus g) c t = cap t
    /\ 0 <= getCT (stock g) c t /\ 0 <= activeCount g c t
    /\ 0 <= getCT (quietus g) c t.
Proof.
  assert (H : forall c t, holding g c t + getCT (quietus g) c t = cap t).
  { induction Hrun as [|g g' a b Hrun IH Hmove].
    - destruct (initialGame_balanced rnd g0 Hinit) as (_ & _ & Hh).
      intros c t. rewrite Hh.
      unfold initialGame in Hinit. destruct (createInitialBoard rnd); [|discriminate].
      injection Hinit as <-. destruct c, t; reflexivity.
    - destruct (MoveRun_balanced rnd g0 Hinit g Hrun) as (Hwf & Hno & Hle).
      intros c t. rewrite (move_accounts g a b g' Hwf Hno Hle Hmove). apply IH. }
  destruct (MoveRun_balanced rnd g0 Hinit g Hrun) as (_ & Hno & _).
  intros c t. specialize (H c t). unfold holding in H.
  rewrite (activeCount_noLoans g c t Hno).
  pose proof (nonLoanCount_nonneg (board g) c t).
  destruct (Run_nonneg rnd g0 g Hinit (MoveRun_Run g0 g Hrun) c t).
  lia.
Qed.

Lemma pieces_are_conserved_witness :
  exists g0 g1,
    initialGame (fun _ => 0) = Some g0
    /\ performMove g0 "e7" "e6" = Some g1
    /\ getCT (stock g1) white P + activeCount g1 white P + getCT (quietus g1) white P
       = cap P.
Proof.
  eexists. eexists.
  split; [vm_compute; reflexivity|].
  split; [vm_compute; reflexivity|].
  refine (proj1 (pieces_are_conserved (fun _ => 0) _ _ _ _ white P)).
  - vm_compute; reflexivity.
  - eapply (@moves_step _ _ _ "e7" "e6"); [apply moves_start | vm_compute; reflexivity].
Defined.


(** ** The search of the hard level: pruning *)

Lemma Qle_bool_false (x y : QArith_base.Q) : Qle_bool x y = false -> (y < x)%Q.
Proof.
  intro H. apply Qnot_le_lt. intro Hle. apply Qle_bool_iff in Hle. congruence.
Qed.

Ltac q_facts :=
  repeat match goal with
         | H : Qle_bool _ _ = true |- _ => apply Qle_bool_iff in H
         | H : Qle_bool _ _ = false |- _ => apply Qle_bool_false in H
         end.

(** Decides a statement on the order of a few numbers of the search, by
    cases on which are infinite and on how the finite ones compare. *)
Ltac num_order :=
  intros; unfold num_eqv, clamp, num_max, num_min in *;
  repeat match goal with x : Num |- _ => destruct x end;
  cbn [num_leb] in *;
  repeat (match goal with
          | |- context [if Qle_bool ?x ?y then _ else _] => destruct (Qle_bool x y) eqn:?
          | H : context [if Qle_bool ?x ?y then _ else _] |- _ => destruct (Qle_bool x y) eqn:?
          end; cbn [num_leb] in *);
  repeat match goal with H : _ /\ _ |- _ => destruct H end;
  try discriminate;
  repeat match goal with |- _ /\ _ => split end;
  try match goal with |- Qle_bool ?x ?y = _ => destruct (Qle_bool x y) eqn:? end;
  try reflexivity;
  try (exfalso; q_facts; lra).

Lemma num_eqv_refl (a : Num) : num_eqv a a.
Proof. split; apply num_leb_refl. Qed.

Lemma num_eqv_sym (a b : Num) : num_eqv a b -> num_eqv b a.
Proof. intros [H1 H2]. now split. Qed.

Lemma num_eqv_trans (a b c : Num) : num_eqv a b -> num_eqv b c -> num_eqv a c.
Proof.
  intros [H1 H2] [H3 H4]. split; eapply num_leb_trans; eauto.
Qed.

Lemma clamp_full (x : Num) : clamp NegInf PosInf x = x.
Proof. now destruct x. Qed.

(** *** The window algebra of a maximizing node *)

Lemma window_nonempty_max (a alpha val beta : Num) :
  num_eqv a (num_max alpha val) -> num_leb beta a = false -> num_leb beta alpha = false.
Proof. num_order. Qed.

Lemma max_alpha_step (a alpha val v : Num) :
  num_eqv a (num_max alpha val) ->
  num_eqv (num_max a (num_max val v)) (num_max alpha (num_max val v)).
Proof. num_order. Qed.

Lemma max_alpha_child (a alpha val v : Num) :
  num_eqv a (num_max alpha val) ->
  num_eqv (num_max a (num_max val v)) (num_max a v).
Proof. num_order. Qed.

Lemma min_beta_max (a beta v : Num) :
  num_leb beta a = false ->
  num_eqv (num_min beta (num_max a v)) (clamp a beta v).
Proof. num_order. Qed.

Lemma num_min_eqv (b x y : Num) : num_eqv x y -> num_eqv (num_min b x) (num_min b y).
Proof. num_order. Qed.

Lemma num_max_eqv (a x y : Num) : num_eqv x y -> num_eqv (num_max a x) (num_max a y).
Proof. num_order. Qed.

Lemma clamp_lower_eqv (a a' beta m : Num) :
  num_eqv a a' -> num_eqv (clamp a beta m) (num_max a' (num_min beta m)).
Proof. num_order. Qed.

Lemma clamp_max (alpha beta mp m : Num) :
  num_eqv (num_max (clamp alpha beta mp) (num_min beta m)) (clamp alpha beta (num_max mp m)).
Proof. num_order. Qed.

Lemma num_min_below (a beta : Num) :
  num_leb beta a = false -> num_eqv a (num_min beta a).
Proof. num_order. Qed.

Lemma num_min_at_least (a beta : Num) :
  num_leb beta a = true -> num_eqv (num_min beta a) beta.
Proof. num_order. Qed.

Lemma clamp_saturated_high (alpha beta mp m : Num) :
  num_eqv (clamp alpha beta mp) beta -> num_leb mp m = true ->
  num_eqv (clamp alpha beta m) beta.
Proof. num_order. Qed.

(** *** The window algebra of a minimizing node *)

Lemma min_beta_step (b beta val v : Num) :
  num_eqv b (num_min beta val) ->
  num_eqv (num_min b (num_min val v)) (num_min beta (num_min val v)).
Proof. num_order. Qed.

Lemma min_beta_child (b beta val v : Num) :
  num_eqv b (num_min beta val) ->
  num_eqv (num_min b (num_min val v)) (num_min b v).
Proof. num_order. Qed.

Lemma clamp_upper_eqv (alpha b b' m : Num) :
  num_eqv b b' -> num_eqv (clamp alpha b m) (clamp alpha b' m).
Proof. num_order. Qed.

Lemma clamp_min (alpha beta mp m : Num) :
  num_eqv (clamp alpha (clamp alpha beta mp) m) (clamp alpha beta (num_min mp m)).
Proof. num_order. Qed.

Lemma num_max_above (alpha b : Num) :
  num_leb b alpha = false -> num_eqv b (num_max alpha b).
Proof. num_order. Qed.

Lemma num_max_at_most (alpha b : Num) :
  num_leb b alpha = true -> num_eqv (num_max alpha b) alpha.
Proof. num_order. Qed.

Lemma clamp_saturated_low (alpha beta mp m : Num) :
  num_eqv (clamp alpha beta mp) alpha -> num_leb m mp = true ->
  num_eqv (clamp alpha beta m) alpha.
Proof. num_order. Qed.

Lemma clamp_NegInf (alpha beta : Num) : num_eqv alpha (clamp alpha beta NegInf).
Proof. num_order. Qed.

Lemma clamp_PosInf (alpha beta : Num) :
  num_leb beta alpha = false -> num_eqv beta (clamp alpha beta PosInf).
Proof. num_order. Qed.

Lemma num_max_NegInf (alpha : Num) : num_eqv alpha (num_max alpha NegInf).
Proof. num_order. Qed.

Lemma num_min_PosInf (beta : Num) : num_eqv beta (num_min beta PosInf).
Proof. num_order. Qed.

(** *** Folds *)

Lemma fold_max_ge (l : list Num) (acc : Num) :
  num_leb acc (fold_left num_max l acc) = true.
Proof.
  revert acc. induction l as [|x l IH]; intro acc; cbn [fold_left].
  - apply num_leb_refl.
  - apply (num_leb_trans acc (num_max acc x)); [|apply IH].
    unfold num_max. destruct (num_leb acc x) eqn:E; [exact E|apply num_leb_refl].
Qed.

Lemma fold_min_le (l : list Num) (acc : Num) :
  num_leb (fold_left num_min l acc) acc = true.
Proof.
  revert acc. induction l as [|x l IH]; intro acc; cbn [fold_left].
  - apply num_leb_refl.
  - apply (num_leb_trans _ (num_min acc x)); [apply IH|].
    unfold num_min. destruct (num_leb acc x) eqn:E; [apply num_leb_refl|].
    destruct (num_leb_total acc x); congruence.
Qed.

Lemma valuesOf_total (child : GameState -> Num -> Num -> option Num)
    (ref : GameState -> option Num) (list : list Candidate) :
  (forall mv, In mv list -> agrees child ref (cand_next mv)) ->
  exists ms, valuesOf ref list = Some ms.
Proof.
  induction list as [|mv rest IH]; intro Hc; cbn [valuesOf]; [eauto|].
  destruct (Hc mv (or_introl eq_refl)) as (m & -> & _).
  destruct IH as (ms & ->); [intros; apply Hc; now right|].
  cbn. eauto.
Qed.

Lemma maxLoop_clamp (child : GameState -> Num -> Num -> option Num)
    (ref : GameState -> option Num) (alpha beta : Num) (list : list Candidate) :
  (forall mv, In mv list -> agrees child ref (cand_next mv)) ->
  forall val a mp,
    num_leb beta a = false ->
    num_eqv a (num_max alpha val) ->
    num_eqv a (clamp alpha beta mp) ->
    exists r ms,
      maxLoop child list val a beta = Some r
      /\ valuesOf ref list = Some ms
      /\ num_eqv (clamp alpha beta r) (clamp alpha beta (fold_left num_max ms mp)).
Proof.
  induction list as [|mv rest IH]; intros Hc val a mp Hlt Hval Hmp.
  - exists val, []. cbn [maxLoop valuesOf fold_left]. split; [reflexivity|split; [reflexivity|]].
    pose proof (window_nonempty_max a alpha val beta Hval Hlt) as Hab.
    apply (num_eqv_trans _ (num_min beta (num_max alpha val))).
    { apply num_eqv_sym, min_beta_max, Hab. }
    apply (num_eqv_trans _ (num_min beta a)).
    { apply num_min_eqv, num_eqv_sym, Hval. }
    apply (num_eqv_trans _ a); [apply num_eqv_sym, num_min_below, Hlt|exact Hmp].
  - destruct (valuesOf_total child ref (mv :: rest) Hc) as (ms0 & Hms0).
    cbn [valuesOf] in Hms0.
    destruct (Hc mv (or_introl eq_refl)) as (m & Hm & Hv).
    destruct (Hv a beta Hlt) as (v & Ev & Hcl).
    rewrite Hm in Hms0. cbn in Hms0.
    destruct (valuesOf ref rest) as [ms|] eqn:Ems; [|discriminate].
    cbn [maxLoop valuesOf]. rewrite Ev, Hm, Ems. cbn.
    set (val' := num_max val v). set (a' := num_max a val').
    pose proof (window_nonempty_max a alpha val beta Hval Hlt) as Hab.
    assert (Hval' : num_eqv a' (num_max alpha val')) by apply (max_alpha_step a alpha val v Hval).
    assert (Hmp' : num_eqv (num_min beta a') (clamp alpha beta (num_max mp m))).
    { apply (num_eqv_trans _ (num_min beta (num_max a v))).
      { apply num_min_eqv, (max_alpha_child a alpha val v Hval). }
      apply (num_eqv_trans _ (clamp a beta v)); [apply min_beta_max, Hlt|].
      apply (num_eqv_trans _ (clamp a beta m)); [exact Hcl|].
      apply (num_eqv_trans _ (num_max (clamp alpha beta mp) (num_min beta m))).
      { apply clamp_lower_eqv, Hmp. }
      apply clamp_max. }
    destruct (num_leb beta a') eqn:Ebrk.
    + exists val', (m :: ms). split; [reflexivity|split; [reflexivity|]].
      cbn [fold_left].
      assert (H1 : num_eqv (clamp alpha beta val') (num_min beta a')).
      { apply (num_eqv_trans _ (num_min beta (num_max alpha val'))).
        { apply num_eqv_sym, min_beta_max, Hab. }
        apply num_min_eqv, num_eqv_sym, Hval'. }
      assert (H2 : num_eqv (clamp alpha beta (num_max mp m)) beta).
      { apply (num_eqv_trans _ (num_min beta a')); [apply num_eqv_sym, Hmp'|].
        apply num_min_at_least, Ebrk. }
      apply (num_eqv_trans _ (num_min beta a')); [exact H1|].
      apply (num_eqv_trans _ beta); [apply num_min_at_least, Ebrk|].
      apply num_eqv_sym.
      apply (clamp_saturated_high alpha beta (num_max mp m)); [exact H2|apply fold_max_ge].
    + destruct (IH (fun mv' H => Hc mv' (or_intror H)) val' a' (num_max mp m) Ebrk Hval')
        as (r & ms' & Er & Ems' & Hr).
      { apply (num_eqv_trans _ (num_min beta a')); [apply num_min_below, Ebrk|exact Hmp']. }
      exists r, (m :: ms). assert (ms' = ms) as -> by congruence.
      split; [exact Er|split; [reflexivity|exact Hr]].
Qed.

Lemma minLoop_clamp (child : GameState -> Num -> Num -> option Num)
    (ref : GameState -> option Num) (alpha beta : Num) (list : list Candidate) :
  (forall mv, In mv list -> agrees child ref (cand_next mv)) ->
  forall val b mp,
    num_leb b alpha = false ->
    num_eqv b (num_min beta val) ->
    num_eqv b (clamp alpha beta mp) ->
    exists r ms,
      minLoop child list val alpha b = Some r
      /\ valuesOf ref list = Some ms
      /\ num_eqv (clamp alpha beta r) (clamp alpha beta (fold_left num_min ms mp)).
Proof.
  induction list as [|mv rest IH]; intros Hc val b mp Hlt Hval Hmp.
  - exists val, []. cbn [minLoop valuesOf fold_left]. split; [reflexivity|split; [reflexivity|]].
    apply (num_eqv_trans _ (num_max alpha b)).
    { unfold clamp. apply num_max_eqv, num_eqv_sym, Hval. }
    apply (num_eqv_trans _ b); [apply num_eqv_sym, num_max_above, Hlt|exact Hmp].
  - destruct (valuesOf_total child ref (mv :: rest) Hc) as (ms0 & Hms0).
    cbn [valuesOf] in Hms0.
    destruct (Hc mv (or_introl eq_refl)) as (m & Hm & Hv).
    destruct (Hv alpha b Hlt) as (v & Ev & Hcl).
    rewrite Hm in Hms0. cbn in Hms0.
    destruct (valuesOf ref rest) as [ms|] eqn:Ems; [|discriminate].
    cbn [minLoop valuesOf]. rewrite Ev, Hm, Ems. cbn.
    set (val' := num_min val v). set (b' := num_min b val').
    assert (Hval' : num_eqv b' (num_min beta val')) by apply (min_beta_step b beta val v Hval).
    assert (Hmp' : num_eqv (num_max alpha b') (clamp alpha beta (num_min mp m))).
    { apply (num_eqv_trans _ (clamp alpha b v)).
      { unfold clamp. apply num_max_eqv, (min_beta_child b beta val v Hval). }
      apply (num_eqv_trans _ (clamp alpha b m)); [exact Hcl|].
      apply (num_eqv_trans _ (clamp alpha (clamp alpha beta mp) m)).
      { apply clamp_upper_eqv, Hmp. }
      apply clamp_min. }
    destruct (num_leb b' alpha) eqn:Ebrk.
    + exists val', (m :: ms). split; [reflexivity|split; [reflexivity|]].
      cbn [fold_left].
      assert (H1 : num_eqv (clamp alpha beta val') (num_max alpha b')).
      { unfold clamp. apply num_max_eqv, num_eqv_sym, Hval'. }
      assert (H2 : num_eqv (clamp alpha beta (num_min mp m)) alpha).
      { apply (num_eqv_trans _ (num_max alpha b')); [apply num_eqv_sym, Hmp'|].
        apply num_max_at_most, Ebrk. }
      apply (num_eqv_trans _ (num_max alpha b')); [exact H1|].
      apply (num_eqv_trans _ alpha); [apply num_max_at_most, Ebrk|].
      apply num_eqv_sym.
      apply (clamp_saturated_low alpha beta (num_min mp m)); [exact H2|apply fold_min_le].
    + destruct (IH (fun mv' H => Hc mv' (or_intror H)) val' b' (num_min mp m) Ebrk Hval')
        as (r & ms' & Er & Ems' & Hr).
      { apply (num_eqv_trans _ (num_max alpha b')); [apply num_max_above, Ebrk|exact Hmp']. }
      exists r, (m :: ms). assert (ms' = ms) as -> by congruence.
      split; [exact Er|split; [reflexivity|exact Hr]].
Qed.

(** Every node of the search, at every depth. *)
Lemma minimax_agrees (depth : nat) :
  forall (s : GameState) (mx : bool) (c : Color),
    wfGame s ->
    agrees (fun s a b => minimax depth s a b mx c) (fun s => plainMinimax depth s mx c) s.
Proof.
  assert (Hleaf : forall s c, wfGame s ->
            exists m, (v <- evaluate s c ;; Some (Fin v)) = Some m
              /\ forall a b : Num, num_leb b a = false ->
                   exists v, (v <- evaluate s c ;; Some (Fin v)) = Some v
                             /\ num_eqv (clamp a b v) (clamp a b m)).
  { intros s c Hwf. destruct (evaluate_total s c Hwf) as (e & ->). cbn.
    exists (Fin e). split; [reflexivity|]. intros a b _. exists (Fin e).
    split; [reflexivity|apply num_eqv_refl]. }
  induction depth as [|d IH]; intros s mx c Hwf; unfold agrees.
  - cbn [minimax plainMinimax]. apply Hleaf, Hwf.
  - cbn [minimax plainMinimax].
    destruct (winner s); [apply Hleaf, Hwf|].
    set (side := if mx then c else other c).
    destruct (generateMoves_candidates s side Hwf) as (list & -> & Hcand). cbn.
    destruct list as [|mv0 rest]; [apply Hleaf, Hwf|].
    set (list := mv0 :: rest) in *.
    assert (Hc : forall b mv, In mv list ->
              agrees (fun s a b' => minimax d s a b' b c) (fun s => plainMinimax d s b c)
                     (cand_next mv)).
    { intros b mv Hin. apply IH. apply (isCandidate_wf s side mv Hwf), Hcand, Hin. }
    destruct mx; cbn [negb].
    + destruct (valuesOf_total _ _ list (Hc false)) as (ms & Ems). rewrite Ems. cbn.
      eexists. split; [reflexivity|]. intros a b Hab.
      destruct (maxLoop_clamp _ _ a b list (Hc false) NegInf a NegInf Hab
                  (num_max_NegInf a) (clamp_NegInf a b)) as (r & ms' & Er & Ems' & Hr).
      rewrite Ems in Ems'. injection Ems' as <-.
      exists r. split; [exact Er|exact Hr].
    + destruct (valuesOf_total _ _ list (Hc true)) as (ms & Ems). rewrite Ems. cbn.
      eexists. split; [reflexivity|]. intros a b Hab.
      destruct (minLoop_clamp _ _ a b list (Hc true) PosInf b PosInf Hab
                  (num_min_PosInf b) (clamp_PosInf a b Hab)) as (r & ms' & Er & Ems' & Hr).
      rewrite Ems in Ems'. injection Ems' as <-.
      exists r. split; [exact Er|exact Hr].
Qed.

(** X25.  Pruning never changes the value of the search.  From a state whose
    pieces have distinct known ids, at every depth and for either side:
    the plain search, which looks at every candidate of every node, has a
    value [m]; the search of the code, called with the full window, returns
    a number of the same value; and called with any non-empty window
    [(alpha, beta)] it returns a number that is [m] as far as the window can
    tell: equal to it when [m] lies within the window, at most [alpha] or at
    least [beta] when [m] is. *)
Theorem pruning_keeps_the_value (depth : nat) (s : GameState) (mx : bool) (c : Color) :
  wfGame s ->
  exists m,
    plainMinimax depth s mx c = Some m
    /\ (exists v, minimax depth s NegInf PosInf mx c = Some v /\ num_eqv v m)
    /\ forall alpha beta,
         num_leb beta alpha = false ->
         exists v, minimax depth s alpha beta mx c = Some v
                   /\ num_eqv (clamp alpha beta v) (clamp alpha beta m).
Proof.
  intro Hwf. destruct (minimax_agrees depth s mx c Hwf) as (m & Hm & Hv).
  exists m. split; [exact Hm|split; [|exact Hv]].
  destruct (Hv NegInf PosInf eq_refl) as (v & Ev & Hcl).
  exists v. split; [exact Ev|]. now rewrite !clamp_full in Hcl.
Qed.

Lemma pruning_keeps_the_value_witness :
  exists m,
    plainMinimax 2 cpuHard true white = Some m
    /\ (exists v, minimax 2 cpuHard NegInf PosInf true white = Some v /\ num_eqv v m)
    /\ forall alpha beta,
         num_leb beta alpha = false ->
         exists v, minimax 2 cpuHard alpha beta true white = Some v
                   /\ num_eqv (clamp alpha beta v) (clamp alpha beta m).
Proof.
  exact (pruning_keeps_the_value 2 cpuHard true white cpuHard_wfGame).
Defined.

